(** * PageIndex: structure parser, segmentation primitive and hybrid retrieval

    A shallow embedding of the Python code of [docs/plan/pageindex-design.md]
    ([DocumentParser], [PageIndexService]) and of the relational constraints
    of [python-service/migrations/001_init_pgvector.sql], followed by the
    properties of that code.

    Conventions.
    - A Python [str] is a list of Unicode code points ([text]); [len] is
      [length].
    - Character offsets and list indices are [nat]; [chunk_size] and
      [overlap] are caller-supplied Python ints, hence [Z].
    - The objects the parser mutates through its stack live in a heap
      (a list of cells addressed by position); a cell's [children] are
      addresses, so that a node reached through the stack and through
      its parent is one and the same object.
    - Similarity scores are rationals ([Q]), an idealisation of the
      floats computed by pgvector; the distance operator itself is a
      parameter of the retrieval functions.

    The first part of the file holds the definitions: the code, then the
    predicates and the example data of the properties.  The second part
    holds the lemmas, by component: parser, traversal, segmentation,
    store, retrieval. *)

From Stdlib Require Import ZArith QArith Qminmax Lia Ascii String Sorted.
From stdpp Require Import base list gmap.

#[local] Set Warnings "-register-all".
Local Open Scope nat_scope.

(** ** Text *)

Abbreviation char := N (only parsing).
Abbreviation text := (list N) (only parsing).

Definition NL : char := 10%N.
Definition HASH : char := 35%N.

(** [str.isspace] for one code point; it is also the class [\s] of the
    [re] module on [str] patterns and the set removed by [str.strip()]. *)
Definition is_space (c : char) : bool :=
  (((9 <=? c) && (c <=? 13)) || ((28 <=? c) && (c <=? 32))
   || (c =? 133) || (c =? 160) || (c =? 5760)
   || ((8192 <=? c) && (c <=? 8202))
   || (c =? 8232) || (c =? 8233) || (c =? 8239) || (c =? 8287)
   || (c =? 12288))%N.

Fixpoint lstrip (s : text) : text :=
  match s with
  | c :: s' => if is_space c then lstrip s' else s
  | [] => []
  end.

Definition rstrip (s : text) : text := rev (lstrip (rev s)).

(** [s.strip()] *)
Definition strip (s : text) : text := rstrip (lstrip s).

(** [s[a:b]] for [0 <= a], [0 <= b]: empty when [b <= a] or [a] is past
    the end, cut at the end of [s]. *)
Definition slice (s : text) (a b : nat) : text := take (b - a) (drop a s).

(** ASCII literals for the examples. *)
Fixpoint text_of_string (s : string) : text :=
  match s with
  | EmptyString => []
  | String a s' => N_of_ascii a :: text_of_string s'
  end.

(** [content.split("\n")]: never empty, one more line than newlines. *)
Fixpoint split_lines (s : text) : list text :=
  match s with
  | [] => [[]]
  | c :: s' =>
      if (c =? NL)%N then [] :: split_lines s'
      else match split_lines s' with
           | l :: ls => (c :: l) :: ls
           | [] => [[c]]
           end
  end.

(** ** Heading patterns

    [HEADING_PATTERNS] is the list of [(r"^#{k}\s+(.+)$", k)] for
    [k = 1..4], tried in this order with [re.match] on one line.  A line
    comes from [split("\n")] and so holds no newline: [.] matches every
    character of it and [$] only its end. *)

(** [strip_hashes k s]: the rest of [s] after exactly [k] leading [#]
    characters (the [^#{k}] part), if [s] starts with them. *)
Fixpoint strip_hashes (k : nat) (s : text) : option text :=
  match k with
  | 0 => Some s
  | S k' =>
      match s with
      | c :: s' => if (c =? HASH)%N then strip_hashes k' s' else None
      | [] => None
      end
  end.

(** [\s+(.+)$] on the rest: [\s+] is greedy, so group 1 is what follows
    the longest run of white space; when the run reaches the end of the
    line the regex gives one character back and group 1 is the last
    character. *)
Definition match_rest (r : text) : option text :=
  match r with
  | c :: r' =>
      if is_space c then
        match lstrip r' with
        | [] => match last r' with Some d => Some [d] | None => None end
        | g => Some g
        end
      else None
  | [] => None
  end.

Definition match_pattern (k : nat) (line : text) : option text :=
  match strip_hashes k line with
  | Some r => match_rest r
  | None => None
  end.

Definition HEADING_PATTERNS : list nat := [1; 2; 3; 4].

(** The inner [for pattern, level in self.HEADING_PATTERNS] loop with its
    [break]: the first pattern that matches, with [match.group(1).strip()]. *)
Fixpoint first_match (ps : list nat) (line : text) : option (nat * text) :=
  match ps with
  | k :: ps' =>
      match match_pattern k line with
      | Some g => Some (k, strip g)
      | None => first_match ps' line
      end
  | [] => None
  end.

Definition heading_of (line : text) : option (nat * text) :=
  first_match HEADING_PATTERNS line.

(** ** Document nodes

    The fields of the [DocNode] dataclass other than [node_id] and
    [children].  [page_start] and [page_end] keep their default [None]
    in all the code below. *)
Record NodeData : Type := mkData {
  level : nat;
  index : nat;
  title : text;
  content : text;
  page_start : option nat;
  page_end : option nat;
  char_start : nat;
  char_end : nat
}.

(** A [DocNode] object on the heap: [node_id] ([str(uuid4())], a fresh
    identifier) is the address of the cell, [children] holds addresses. *)
Record Cell : Type := mkCell {
  data : NodeData;
  children : list nat
}.

(** A [DocNode] read back as a value: the tree under one object. *)
Inductive DocNode : Type :=
| Node (node_id : nat) (d : NodeData) (kids : list DocNode).

Definition node_id (n : DocNode) : nat := let 'Node i _ _ := n in i.
Definition node_data (n : DocNode) : NodeData := let 'Node _ d _ := n in d.
Definition node_children (n : DocNode) : list DocNode := let 'Node _ _ k := n in k.

(** [tree_of fuel heap a]: the tree of the object at address [a]. *)
Fixpoint tree_of (fuel : nat) (heap : list Cell) (a : nat) : option DocNode :=
  match fuel with
  | 0 => None
  | S fuel' =>
      match heap !! a with
      | Some c =>
          match mapM (tree_of fuel' heap) (children c) with
          | Some ks => Some (Node a (data c) ks)
          | None => None
          end
      | None => None
      end
  end.

(** ** [DocumentParser.parse_markdown] *)

Record pstate : Type := mkState {
  heap : list Cell;
  stack : list nat          (* bottom first: [stack[0]] is the root *)
}.

(** [node.char_end = pos; node.content = content[node.char_start:pos]] *)
Definition close_node (doc : text) (pos : nat) (c : Cell) : Cell :=
  let d := data c in
  mkCell (mkData (level d) (index d) (title d)
                 (slice doc (char_start d) pos)
                 (page_start d) (page_end d) (char_start d) pos)
         (children c).

(** [node.children.append(new)] *)
Definition add_child (a : nat) (c : Cell) : Cell :=
  mkCell (data c) (children c ++ [a]).

(** [if len(stack) > 1: stack[-1].char_end = pos; stack[-1].content = ...] *)
Definition close_top (doc : text) (pos : nat) (st : pstate) : pstate :=
  if 1 <? length (stack st) then
    match last (stack st) with
    | Some top => mkState (alter (close_node doc pos) top (heap st)) (stack st)
    | None => st
    end
  else st.

(** [char_pos = sum(len(l) + 1 for l in lines[:i])] *)
Definition char_pos_of (lines : list text) (i : nat) : nat :=
  sum_list (map (fun l => length l + 1) (take i lines)).

(** [len(stack[level].children) if level < len(stack) else 0], read
    before the stack is popped. *)
Definition sibling_index (st : pstate) (lvl : nat) : nat :=
  if lvl <? length (stack st) then
    match stack st !! lvl with
    | Some a => match heap st !! a with
                | Some c => length (children c)
                | None => 0
                end
    | None => 0
    end
  else 0.

(** The body of [if match:] for a heading of depth [lvl] on [line], which
    starts at offset [pos]. *)
Definition open_heading (doc : text) (pos : nat) (line : text)
    (lvl : nat) (ttl : text) (st : pstate) : pstate :=
  let st1 := close_top doc pos st in
  let new_node :=
    mkCell (mkData lvl (sibling_index st1 lvl) ttl [] None None
                   (pos + length line + 1) (length doc)) [] in
  (* while len(stack) > level: stack.pop() *)
  let stk := take lvl (stack st1) in
  let a := length (heap st1) in
  match last stk with
  | Some parent =>
      mkState (alter (add_child a) parent (heap st1) ++ [new_node])
              (stk ++ [a])
  | None => st1          (* [stack[-1]] of an empty stack: not reached, the root stays *)
  end.

Definition visit_line (doc : text) (lines : list text) (i : nat)
    (line : text) (st : pstate) : pstate :=
  match heading_of line with
  | Some (lvl, ttl) => open_heading doc (char_pos_of lines i) line lvl ttl st
  | None => st
  end.

(** [for i, line in enumerate(lines)], from line [i] on. *)
Fixpoint scan (doc : text) (lines : list text) (i : nat) (rest : list text)
    (st : pstate) : pstate :=
  match rest with
  | [] => st
  | line :: rest' => scan doc lines (S i) rest' (visit_line doc lines i line st)
  end.

Definition default_title : text :=
  [25991; 26723; 26681; 33410; 28857]%N.   (* the five characters of the default root title *)

Definition root_cell (doc filename : text) : Cell :=
  mkCell (mkData 0 0 (match filename with [] => default_title | _ => filename end)
                 [] None None 0 (length doc)) [].

Definition init_state (doc filename : text) : pstate :=
  mkState [root_cell doc filename] [0].

(** The heap at the end of [parse_markdown]; the returned [root] is the
    object at address [0]. *)
Definition parse_heap (doc filename : text) : list Cell :=
  let lines := split_lines doc in
  heap (close_top doc (length doc)
          (scan doc lines 0 lines (init_state doc filename))).

(** The returned [root], read back from the heap.  The heap of the parser
    is a tree (lemma [parse_tree_total] below), so the default is never
    used. *)
Definition parse_tree (doc filename : text) : option DocNode :=
  let h := parse_heap doc filename in
  tree_of (length h) h 0.

Definition parse_markdown (doc filename : text) : DocNode :=
  default (Node 0 (data (root_cell doc filename)) []) (parse_tree doc filename).

(** The claimed invariant of the tree.  [in_range c pos]: the offset
    [pos] lies in the half-open range of the node. *)
Definition in_range (c : Cell) (pos : nat) : Prop :=
  char_start (data c) <= pos < char_end (data c).

(** The ranges of the children of every node are pairwise disjoint and
    their union is the range of the node. *)
Definition siblings_partition_parent (h : list Cell) : Prop :=
  forall a p, h !! a = Some p -> children p <> [] ->
    (forall pos, in_range p pos <->
                 exists k c, In k (children p) /\ h !! k = Some c /\ in_range c pos)
    /\ (forall i j ki kj ci cj pos,
          i <> j ->
          children p !! i = Some ki -> children p !! j = Some kj ->
          h !! ki = Some ci -> h !! kj = Some cj ->
          ~ (in_range ci pos /\ in_range cj pos)).

(** On trees: the range of [x] is well formed and ends before the range
    of [y] starts. *)
Definition ends_before (x y : DocNode) : Prop :=
  char_start (node_data x) <= char_end (node_data x) /\
  char_end (node_data x) < char_start (node_data y).

(** [stack[i]] has depth [i]: what the comment on the stack in
    [parse_markdown] describes. *)
Definition aligned (st : pstate) : Prop :=
  forall i a c, stack st !! i = Some a -> heap st !! a = Some c ->
                level (data c) = i.

(** The invariant of the loop of [parse_markdown].

    [P] is the offset at which the next line starts. *)
Record parser_inv (doc : text) (P : nat) (st : pstate) : Prop := mkInv {
  inv_shape :
    (length (stack st) = 1 /\ length (heap st) = 1) \/
    (1 < length (stack st) /\ 1 < length (heap st));
  inv_top : last (stack st) = Some (length (heap st) - 1);
  inv_stack : forall a, In a (stack st) -> a < length (heap st);
  inv_children : forall a c, heap st !! a = Some c ->
    Forall (fun k => a < k < length (heap st)) (children c) /\
    StronglySorted lt (children c);
  inv_start : forall a c, 0 < a -> heap st !! a = Some c ->
    char_start (data c) <= P;
  inv_order : forall a b ca cb, 0 < a -> a < b ->
    heap st !! a = Some ca -> heap st !! b = Some cb ->
    char_start (data ca) <= char_end (data ca) /\
    char_end (data ca) < char_start (data cb);
  inv_end : forall a c, heap st !! a = Some c ->
    char_end (data c) <= length doc
}.

(** What holds of the final heap. *)
Record tree_inv (doc : text) (h : list Cell) : Prop := mkTreeInv {
  tree_children : forall a c, h !! a = Some c ->
    Forall (fun k => a < k < length h) (children c) /\
    StronglySorted lt (children c);
  tree_order : forall a b ca cb, 0 < a -> a < b ->
    h !! a = Some ca -> h !! b = Some cb ->
    char_start (data ca) <= char_end (data ca) /\
    char_end (data ca) < char_start (data cb);
  tree_end : forall a c, h !! a = Some c -> char_end (data c) <= length doc
}.

(** ** [DocumentParser._smart_split] *)

(** The longest match of [\s*\n] at the start of [s], which follows the
    first newline of a separator: [\s*] is greedy, so the match ends at the
    last newline of the run of white space.  The result is what follows
    the match. *)
Fixpoint blank_tail (s : text) : option text :=
  match s with
  | c :: s' =>
      if is_space c then
        match blank_tail s' with
        | Some r => Some r
        | None => if (c =? NL)%N then Some s' else None
        end
      else None
  | [] => None
  end.

(** A match of [\n\s*\n] at the start of [s]. *)
Definition match_blank (s : text) : option text :=
  match s with
  | c :: s' => if (c =? NL)%N then blank_tail s' else None
  | [] => None
  end.

(** [re.split(r'\n\s*\n', s)]: the pieces between the successive leftmost
    matches.  Every match consumes at least two characters, so [length s]
    steps are enough. *)
Fixpoint split_blank (fuel : nat) (s : text) : list text :=
  match fuel with
  | 0 => [s]
  | S fuel' =>
      match s with
      | [] => [[]]
      | c :: s' =>
          match match_blank s with
          | Some r => [] :: split_blank fuel' r
          | None =>
              match split_blank fuel' s' with
              | p :: ps => (c :: p) :: ps
              | [] => [[c]]
              end
          end
      end
  end.

Definition paragraphs (s : text) : list text := split_blank (length s) s.

(** The class [[。！？\n]]. *)
Definition is_delim (c : char) : bool :=
  ((c =? 12290) || (c =? 65281) || (c =? 65311) || (c =? NL))%N.

(** [re.split(r'([。！？\n])', s)]: texts and the captured delimiters in
    turn, [t0, d0, t1, d1, ..., tn]. *)
Fixpoint split_delims (s : text) : list text :=
  match s with
  | [] => [[]]
  | c :: s' =>
      if is_delim c then [] :: [c] :: split_delims s'
      else match split_delims s' with
           | p :: ps => (c :: p) :: ps
           | [] => [[c]]
           end
  end.

(** [l[0::2]] and [l[1::2]] *)
Fixpoint evens {A} (l : list A) : list A :=
  match l with
  | x :: _ :: l' => x :: evens l'
  | [x] => [x]
  | [] => []
  end.

Definition odds {A} (l : list A) : list A :=
  match l with
  | _ :: l' => evens l'
  | [] => []
  end.

(** [[''.join(i) for i in zip(sentences[0::2], sentences[1::2] + [''])]] *)
Definition sentences_of (para : text) : list text :=
  let sentences := split_delims para in
  zip_with app (evens sentences) (odds sentences ++ [[]]).

Record sstate : Type := mkS {
  chunks : list text;
  current_chunk : text;
  current_size : nat
}.

Definition nonempty (s : text) : bool :=
  match s with [] => false | _ => true end.

(** [current_chunk[-overlap:] if overlap > 0 else ""] *)
Definition overlap_text (current : text) (overlap : Z) : text :=
  if (0 <? overlap)%Z then drop (length current - Z.to_nat overlap) current
  else [].

(** The branch that emits the buffer and seeds the next one:
    [chunks.append(current_chunk.strip())],
    [current_chunk = overlap_text + unit],
    [current_size = len(current_chunk)]. *)
Definition emit_and_seed (overlap : Z) (unit : text) (st : sstate) : sstate :=
  let cc := overlap_text (current_chunk st) overlap ++ unit in
  mkS (chunks st ++ [strip (current_chunk st)]) cc (length cc).

(** The body of [for sentence in sentences]. *)
Definition add_sentence (chunk_size overlap : Z) (st : sstate) (sentence : text)
    : sstate :=
  if (Z.of_nat (current_size st + length sentence) >? chunk_size)%Z
     && nonempty (current_chunk st)
  then emit_and_seed overlap sentence st
  else mkS (chunks st) (current_chunk st ++ sentence)
           (current_size st + length sentence).

Definition PARA_SEP : text := [NL; NL].

(** The [else] branch of [if len(para) > chunk_size]. *)
Definition add_short_para (chunk_size overlap : Z) (st : sstate) (para : text)
    : sstate :=
  if (Z.of_nat (current_size st + length para + 2) >? chunk_size)%Z
     && nonempty (current_chunk st)
  then emit_and_seed overlap para st
  else
    let cc := if nonempty (current_chunk st)
              then current_chunk st ++ PARA_SEP ++ para
              else para in
    mkS (chunks st) cc (length cc).

(** The body of [for para in paragraphs]. *)
Definition add_para (chunk_size overlap : Z) (st : sstate) (para0 : text)
    : sstate :=
  let para := strip para0 in
  if nonempty para then
    if (Z.of_nat (length para) >? chunk_size)%Z
    then fold_left (add_sentence chunk_size overlap) (sentences_of para) st
    else add_short_para chunk_size overlap st para
  else st.

(** [if current_chunk.strip(): chunks.append(current_chunk.strip())] *)
Definition finish (st : sstate) : list text :=
  if nonempty (strip (current_chunk st))
  then chunks st ++ [strip (current_chunk st)]
  else chunks st.

Definition _smart_split (content : text) (chunk_size overlap : Z) : list text :=
  finish (fold_left (add_para chunk_size overlap) (paragraphs content)
                    (mkS [] [] 0)).

(** The units that the loops of [_smart_split] add to the buffer, in
    order: the stripped paragraphs that fit in [chunk_size], and the
    sentences of those that do not. *)
Inductive unit_kind : Type := Sentence | Paragraph.

Definition units_of_para (chunk_size : Z) (para0 : text) : list (unit_kind * text) :=
  let para := strip para0 in
  if nonempty para then
    if (Z.of_nat (length para) >? chunk_size)%Z
    then map (pair Sentence) (sentences_of para)
    else [(Paragraph, para)]
  else [].

Definition units_of (content : text) (chunk_size : Z) : list (unit_kind * text) :=
  flat_map (units_of_para chunk_size) (paragraphs content).

Definition add_unit (chunk_size overlap : Z) (st : sstate)
    (u : unit_kind * text) : sstate :=
  match fst u with
  | Sentence => add_sentence chunk_size overlap st (snd u)
  | Paragraph => add_short_para chunk_size overlap st (snd u)
  end.

(** The characters of a text that are not white space. *)
Definition solid (s : text) : text :=
  List.filter (fun c => negb (is_space c)) s.

(** *** Buffers with their seed

    The loop of [_smart_split] once more, over the units, with each buffer
    kept in two parts: the overlap [seed] it was started with, and the
    [body] added after it.  [split_traced] returns these two parts for
    every emitted chunk; erasing the trace gives [_smart_split] back
    (lemma [split_traced_erase]). *)
Record tstate : Type := mkT {
  done : list (text * text);
  seed : text;
  body : text;
  tsize : nat
}.

Definition t_emit (overlap : Z) (unit : text) (st : tstate) : tstate :=
  let sd := overlap_text (seed st ++ body st) overlap in
  mkT (done st ++ [(seed st, body st)]) sd unit (length (sd ++ unit)).

Definition t_add_unit (chunk_size overlap : Z) (st : tstate)
    (u : unit_kind * text) : tstate :=
  match fst u with
  | Sentence =>
      if (Z.of_nat (tsize st + length (snd u)) >? chunk_size)%Z
         && nonempty (seed st ++ body st)
      then t_emit overlap (snd u) st
      else mkT (done st) (seed st) (body st ++ snd u) (tsize st + length (snd u))
  | Paragraph =>
      if (Z.of_nat (tsize st + length (snd u) + 2) >? chunk_size)%Z
         && nonempty (seed st ++ body st)
      then t_emit overlap (snd u) st
      else
        let b := if nonempty (seed st ++ body st)
                 then body st ++ PARA_SEP ++ snd u
                 else snd u in
        mkT (done st) (seed st) b (length (seed st ++ b))
  end.

Definition t_finish (st : tstate) : list (text * text) :=
  if nonempty (strip (seed st ++ body st))
  then done st ++ [(seed st, body st)]
  else done st.

Definition split_traced (content : text) (chunk_size overlap : Z)
    : list (text * text) :=
  t_finish (fold_left (t_add_unit chunk_size overlap)
                      (units_of content chunk_size) (mkT [] [] [] 0)).

(** The chunk emitted for a traced buffer. *)
Definition erase (p : text * text) : text := strip (fst p ++ snd p).

(** Every seed is the overlap text of the buffer before it; the first
    buffer has none. *)
Fixpoint chained (overlap : Z) (prev : option text) (tr : list (text * text))
    : Prop :=
  match tr with
  | [] => True
  | (s, b) :: tr' =>
      s = match prev with
          | Some p => overlap_text p overlap
          | None => []
          end
      /\ chained overlap (Some (s ++ b)) tr'
  end.

(** The trace and the code run in step. *)
Definition in_step (st : sstate) (ts : tstate) : Prop :=
  chunks st = map erase (done ts) /\
  current_chunk st = seed ts ++ body ts /\
  current_size st = tsize ts.

(** The seeds of the emitted buffers and of the open one form a chain. *)
Definition open_chain (ov : Z) (ts : tstate) : Prop :=
  chained ov None (done ts ++ [(seed ts, [])]).

(** The claimed reconstruction: the first chunk, then every other chunk
    without its first [overlap] characters. *)
Definition trim_overlaps (overlap : Z) (chunks : list text) : text :=
  match chunks with
  | [] => []
  | c :: cs => c ++ concat (map (drop (Z.to_nat overlap)) cs)
  end.

(** ** [DocumentParser.get_all_chunks] *)

(** The dict appended for one chunk. *)
Record Chunk : Type := mkChunk {
  chunk_content : text;
  chunk_node_id : nat;
  chunk_node_path : text;
  chunk_level : nat;
  chunk_char_start : nat;
  chunk_char_end : nat
}.

(** [sep.join(parts)] *)
Fixpoint join (sep : text) (parts : list text) : text :=
  match parts with
  | [] => []
  | [p] => p
  | p :: ps => p ++ sep ++ join sep ps
  end.

Definition PATH_SEP : text := [32; 62; 32]%N.      (* " > " *)

(** The chunks appended for one node under the path [current_path]. *)
Definition node_chunks (chunk_size overlap : Z) (id : nat) (d : NodeData)
    (current_path : list text) : list Chunk :=
  if nonempty (content d) && nonempty (strip (content d)) then
    map (fun chunk =>
           mkChunk chunk id (join PATH_SEP current_path) (level d)
                   (char_start d) (char_end d))
        (_smart_split (content d) chunk_size overlap)
  else [].

Fixpoint traverse (chunk_size overlap : Z) (node : DocNode)
    (parent_path : list text) : list Chunk :=
  let 'Node id d kids := node in
  let current_path := parent_path ++ [title d] in
  node_chunks chunk_size overlap id d current_path
  ++ flat_map (fun child => traverse chunk_size overlap child current_path) kids.

(** The nodes of a tree, in the order [traverse] visits them. *)
Fixpoint nodes_of (n : DocNode) : list DocNode :=
  let 'Node _ _ kids := n in
  n :: flat_map nodes_of kids.

Definition get_all_chunks (root : DocNode) (chunk_size overlap : Z) : list Chunk :=
  traverse chunk_size overlap root [].

(** ** The store

    The tables of [001_init_pgvector.sql] and of the DDL of the design
    ([doc_trees], [doc_nodes], the [node_id] column of [document_chunks]),
    with the columns the code reads or writes.  Rows are kept in insertion
    order.  Primary keys and [UNIQUE] constraints are enforced by the
    inserts; referential constraints ([REFERENCES]) are not part of the
    model.  [uuid4()] and [gen_random_uuid()] draw from one supply of
    fresh identifiers, [next_uuid].  A statement that raises leaves the
    rows of the statements before it in place, as on a connection without
    an enclosing transaction; the code opens none. *)

Definition vector : Type := list Q.

Record TreeRow : Type := mkTree {
  tree_id : nat;
  tree_document_id : nat;
  tree_title : text;
  total_nodes : nat
}.

Record NodeRow : Type := mkNodeRow {
  node_row_id : nat;
  node_tree_id : nat;
  parent_id : option nat;
  node_level : nat;
  node_index : nat;
  node_title : text;
  node_char_start : nat;
  node_char_end : nat;
  summary : option text;
  content_preview : option text;
  node_embedding : option vector
}.

(** The JSON object written to [metadata]. *)
Record Metadata : Type := mkMeta {
  meta_node_path : option text;
  meta_level : option nat
}.

Record ChunkRow : Type := mkChunkRow {
  chunk_id : nat;
  document_id : nat;
  chunk_index : nat;
  row_content : text;
  metadata : Metadata;
  row_node_id : option nat
}.

Record EmbeddingRow : Type := mkEmb {
  emb_chunk_id : nat;
  embedding : vector;
  model_id : text
}.

Record db : Type := mkDb {
  doc_trees : list TreeRow;
  doc_nodes : list NodeRow;
  document_chunks : list ChunkRow;
  chunk_embeddings : list EmbeddingRow;
  next_uuid : nat
}.

Inductive error : Type :=
| UniqueViolation (constraint : string).

Inductive outcome (A : Type) : Type :=
| Done (a : A)
| Raised (e : error).
Arguments Done {A} a.
Arguments Raised {A} e.

(** A statement run on the connection: the store after it and what it
    returned or raised. *)
Definition M (A : Type) : Type := db -> db * outcome A.

Definition ret {A} (a : A) : M A := fun s => (s, Done a).

Definition bind {A B} (m : M A) (k : A -> M B) : M B :=
  fun s => match m s with
           | (s', Done a) => k a s'
           | (s', Raised e) => (s', Raised e)
           end.

Notation "x <- m ;; k" := (bind m (fun x => k))
  (at level 100, m at next level, right associativity).
Notation "m ;;; k" := (bind m (fun _ => k))
  (at level 100, right associativity).

Definition raise {A} (e : error) : M A := fun s => (s, Raised e).

Definition fresh_uuid : M nat :=
  fun s => (mkDb (doc_trees s) (doc_nodes s) (document_chunks s)
                 (chunk_embeddings s) (S (next_uuid s)),
            Done (next_uuid s)).

(** [INSERT INTO doc_trees (tree_id, document_id, title)]; [total_nodes]
    takes its default [0]. *)
Definition insert_tree (tid doc : nat) (ttl : text) : M unit :=
  fun s =>
    if existsb (fun r => tree_id r =? tid) (doc_trees s)
    then (s, Raised (UniqueViolation "doc_trees_pkey"))
    else (mkDb (doc_trees s ++ [mkTree tid doc ttl 0]) (doc_nodes s)
               (document_chunks s) (chunk_embeddings s) (next_uuid s),
          Done tt).

(** [UPDATE doc_trees SET total_nodes = $1 WHERE tree_id = $2] *)
Definition update_total_nodes (count tid : nat) : M unit :=
  fun s =>
    (mkDb (map (fun r => if tree_id r =? tid
                         then mkTree (tree_id r) (tree_document_id r)
                                     (tree_title r) count
                         else r) (doc_trees s))
          (doc_nodes s) (document_chunks s) (chunk_embeddings s)
          (next_uuid s),
     Done tt).

(** [INSERT INTO doc_nodes (...) RETURNING id]: the id is generated by the
    store; [UNIQUE(tree_id, node_level, node_index)]. *)
Definition insert_node (tid : nat) (parent : option nat) (lvl idx : nat)
    (ttl : text) (cs ce : nat) (summ prev : option text) : M nat :=
  id <- fresh_uuid ;;
  fun s =>
    if existsb (fun r => (node_tree_id r =? tid) && (node_level r =? lvl)
                         && (node_index r =? idx)) (doc_nodes s)
    then (s, Raised (UniqueViolation "doc_nodes_tree_id_node_level_node_index_key"))
    else (mkDb (doc_trees s)
               (doc_nodes s ++ [mkNodeRow id tid parent lvl idx ttl cs ce
                                          summ prev None])
               (document_chunks s) (chunk_embeddings s) (next_uuid s),
          Done id).

(** [INSERT INTO document_chunks (document_id, chunk_index, content,
    metadata, node_id) RETURNING id];
    [CONSTRAINT uk_chunk_document_index UNIQUE (document_id, chunk_index)]. *)
Definition insert_chunk (doc idx : nat) (body : text) (meta : Metadata)
    (nid : option nat) : M nat :=
  id <- fresh_uuid ;;
  fun s =>
    if existsb (fun r => (document_id r =? doc) && (chunk_index r =? idx))
               (document_chunks s)
    then (s, Raised (UniqueViolation "uk_chunk_document_index"))
    else (mkDb (doc_trees s) (doc_nodes s)
               (document_chunks s ++ [mkChunkRow id doc idx body meta nid])
               (chunk_embeddings s) (next_uuid s),
          Done id).

(** [INSERT INTO chunk_embeddings (chunk_id, embedding, model_id)] *)
Definition insert_embedding (cid : nat) (v : vector) (model : text) : M unit :=
  fun s =>
    (mkDb (doc_trees s) (doc_nodes s) (document_chunks s)
          (chunk_embeddings s ++ [mkEmb cid v model]) (next_uuid s),
     Done tt).

(** ** [PageIndexService._save_nodes] *)

(** [node.content[:n] if node.content else None] *)
Definition prefix_or_none (n : nat) (s : text) : option text :=
  if nonempty s then Some (take n s) else None.

(** [for i, child in enumerate(node.children): count += await save(child, i)],
    from index [i] on. *)
Definition save_each (save : DocNode -> nat -> M nat)
    : list DocNode -> nat -> nat -> M nat :=
  fix each (ks : list DocNode) (i count : nat) : M nat :=
    match ks with
    | [] => ret count
    | child :: ks' =>
        c <- save child i ;;
        each ks' (S i) (count + c)
    end.

Fixpoint _save_nodes (tid : nat) (node : DocNode) (parent_db_id : option nat)
    (lvl idx : nat) : M nat :=
  let 'Node _ d kids := node in
  db_id <- insert_node tid parent_db_id lvl idx (title d)
             (char_start d) (char_end d)
             (prefix_or_none 200 (content d))
             (prefix_or_none 100 (content d)) ;;
  save_each (fun child i => _save_nodes tid child (Some db_id) (S lvl) i)
            kids 0 1.

(** ** [PageIndexService.build_index] *)

(** The embedding provider behind [registry]; [None] is [registry = None]. *)
Definition registry_t : Type := option (text -> vector).

(** [for i, chunk in enumerate(chunks)], from index [i] on. *)
Fixpoint save_chunks (doc : nat) (model : text) (registry : registry_t)
    (i : nat) (cs : list Chunk) : M unit :=
  match cs with
  | [] => ret tt
  | chunk :: cs' =>
      cid <- insert_chunk doc (i + 1) (chunk_content chunk)
               (mkMeta (Some (chunk_node_path chunk)) (Some (chunk_level chunk)))
               (Some (chunk_node_id chunk)) ;;
      match registry with
      | Some embed => insert_embedding cid (embed (chunk_content chunk)) model
      | None => ret tt
      end ;;;
      save_chunks doc model registry (S i) cs'
  end.

Record IndexResult : Type := mkResult {
  res_tree_id : nat;
  res_total_nodes : nat;
  res_total_chunks : nat
}.

Definition build_index (doc : nat) (body filename : text)
    (model : text) (registry : registry_t) : M IndexResult :=
  let root := parse_markdown body filename in
  tid <- fresh_uuid ;;
  insert_tree tid doc filename ;;;
  node_count <- _save_nodes tid root None 0 0 ;;
  update_total_nodes node_count tid ;;;
  let chunks := get_all_chunks root 400 50 in
  save_chunks doc model registry 0 chunks ;;;
  ret (mkResult tid node_count (length chunks)).

(** *** Frames of the statements *)

(** The statements that only add node rows ... *)
Definition adds_nodes (s s' : db) : Prop :=
  doc_trees s' = doc_trees s /\
  doc_nodes s `prefix_of` doc_nodes s' /\
  document_chunks s' = document_chunks s /\
  chunk_embeddings s' = chunk_embeddings s.

(** ... and those that only add chunk and embedding rows. *)
Definition adds_chunks (s s' : db) : Prop :=
  doc_trees s' = doc_trees s /\
  doc_nodes s' = doc_nodes s /\
  document_chunks s `prefix_of` document_chunks s' /\
  chunk_embeddings s `prefix_of` chunk_embeddings s'.

(** A statement [m] keeps [R] when the store after it is related to the
    store before it, whether it returns or raises. *)
Definition keeps (R : db -> db -> Prop) {A} (m : M A) : Prop :=
  forall s, R s (fst (m s)).

(** ** [PageIndexService.hybrid_search] *)

(** [ORDER BY key] and [list.sort(key=...)]: a stable sort in ascending
    order of [key].  PostgreSQL leaves the order of rows with equal keys
    open; the model keeps them in table order. *)
Fixpoint insert_by {A} (key : A -> Q) (x : A) (l : list A) : list A :=
  match l with
  | [] => [x]
  | y :: l' => if Qle_bool (key x) (key y) then x :: l
               else y :: insert_by key x l'
  end.

Definition order_by {A} (key : A -> Q) (l : list A) : list A :=
  foldr (insert_by key) [] l.

(** The order that [order_by key] establishes. *)
Definition key_le {A} (key : A -> Q) (a b : A) : Prop := (key a <= key b)%Q.

(** A row of [node_sql]. *)
Record NodeHit : Type := mkNodeHit {
  hit_node_id : nat;
  hit_title : text;
  hit_node_level : nat;
  hit_summary : option text;
  hit_score : Q
}.

(** A row of [chunk_sql]; the columns of [dn] are [NULL] when the
    [LEFT JOIN] finds no node. *)
Record ChunkHit : Type := mkChunkHit {
  c_chunk_id : nat;
  c_document_id : nat;
  c_content : text;
  c_metadata : Metadata;
  c_node_id : option nat;
  c_node_title : option text;
  c_node_level : option nat;
  c_vector_score : Q
}.

(** An entry of the returned list. *)
Record SearchResult : Type := mkSearchResult {
  r_chunk_id : nat;
  r_document_id : nat;
  r_content : text;
  r_node_path : text;
  r_node_title : option text;
  score : Q;
  vector_score : Q;
  node_boost : Q
}.

Definition BOOST_WEIGHT : Q := 3 # 10.

Section Retrieval.

(** pgvector's cosine distance [a <=> b]. *)
Variable cosine_distance : vector -> vector -> Q.

(** [SELECT ... 1 - (embedding <=> $1) AS score FROM doc_nodes
    WHERE embedding IS NOT NULL ORDER BY embedding <=> $1 LIMIT 10].
    The rows carry the score [1 - d] and not the distance [d] they are
    ordered by; [1 - score] is that distance. *)
Definition node_sql (q : vector) (s : db) : list NodeHit :=
  take 10
    (order_by (fun h => 1 - hit_score h)%Q
       (omap (fun r =>
                match node_embedding r with
                | Some e => Some (mkNodeHit (node_row_id r) (node_title r)
                                    (node_level r) (summary r)
                                    (1 - cosine_distance e q)%Q)
                | None => None
                end) (doc_nodes s))).

(** [chunk_embeddings ce JOIN document_chunks dc ON ce.chunk_id = dc.id
    LEFT JOIN doc_nodes dn ON dc.node_id = dn.id] *)
Definition joined_rows (q : vector) (s : db) : list ChunkHit :=
  flat_map (fun ce =>
    flat_map (fun dc =>
      let sc := (1 - cosine_distance (embedding ce) q)%Q in
      let hit dn := mkChunkHit (chunk_id dc) (document_id dc) (row_content dc)
                      (metadata dc) (row_node_id dc)
                      (option_map node_title dn) (option_map node_level dn) sc in
      match filter (fun dn => row_node_id dc = Some (node_row_id dn)) (doc_nodes s) with
      | [] => [hit None]
      | dns => map (fun dn => hit (Some dn)) dns
      end)
      (filter (fun dc => chunk_id dc = emb_chunk_id ce) (document_chunks s)))
    (chunk_embeddings s).

(** [... WHERE 1 - (ce.embedding <=> $1) >= $2
    ORDER BY ce.embedding <=> $1 LIMIT $3] *)
Definition chunk_sql (q : vector) (min_score : Q) (limit : nat) (s : db)
    : list ChunkHit :=
  take limit
    (order_by (fun h => 1 - c_vector_score h)%Q
       (filter (fun h => Qle_bool min_score (c_vector_score h) = true)
               (joined_rows q s))).

(** [{n["node_id"]: n["score"] for n in relevant_nodes}] *)
Definition node_scores_of (relevant_nodes : list NodeHit) : gmap nat Q :=
  foldl (fun m n => <[hit_node_id n := hit_score n]> m) ∅ relevant_nodes.

(** The body of [for chunk in chunks]. *)
Definition fuse (node_scores : gmap nat Q) (chunk : ChunkHit) : SearchResult :=
  let vector_score := c_vector_score chunk in
  let node_boost :=
    match c_node_id chunk with
    | Some node_id =>
        match node_scores !! node_id with
        | Some s => (s * BOOST_WEIGHT)%Q
        | None => 0%Q
        end
    | None => 0%Q
    end in
  let final_score := Qmin (vector_score + node_boost) 1 in
  mkSearchResult (c_chunk_id chunk) (c_document_id chunk) (c_content chunk)
    (default [] (meta_node_path (c_metadata chunk)))
    (c_node_title chunk) final_score vector_score node_boost.

(** [top_k] is a count ([LIMIT] accepts no negative number).
    [document_ids] and [query] are parameters of the function; its body
    does not mention them. *)
Definition hybrid_search (query : text) (query_embedding : vector)
    (top_k : nat) (min_score : Q) (document_ids : option (list nat))
    (s : db) : list SearchResult :=
  let relevant_nodes := node_sql query_embedding s in
  let node_scores := node_scores_of relevant_nodes in
  let chunks := chunk_sql query_embedding min_score (top_k * 2) s in
  let results := map (fuse node_scores) chunks in
  (* results.sort(key=lambda x: x["score"], reverse=True): a stable sort
     in descending order of the key, that is in ascending order of its
     opposite; then results[:top_k] *)
  take top_k (order_by (fun r => - score r)%Q results).

End Retrieval.


(** [before a b l]: an occurrence of [a] in [l] comes before one of [b]. *)
Definition before {A} (a b : A) (l : list A) : Prop :=
  exists l1 l2 l3, l = l1 ++ a :: l2 ++ b :: l3.

(** The claimed tie rule refers to [chunk_index], which is a column of
    [document_chunks] and not a key of the returned entries: it is looked
    up through [chunk_id]. *)
Definition chunk_index_of (s : db) (cid : nat) : option nat :=
  option_map chunk_index (find (fun r => chunk_id r =? cid) (document_chunks s)).

Definition ties_by_chunk_index (s : db) (res : list SearchResult) : Prop :=
  forall a b ia ib,
    before a b res -> (score a == score b)%Q ->
    chunk_index_of s (r_chunk_id a) = Some ia ->
    chunk_index_of s (r_chunk_id b) = Some ib ->
    ia <= ib.

(** ** Example stores

    Embeddings of the examples are unit vectors, for which the cosine
    distance is one minus the dot product. *)
Definition dot (a b : vector) : Q := foldr Qplus 0%Q (zip_with Qmult a b).
Definition unit_distance (a b : vector) : Q := (1 - dot a b)%Q.

Definition east : vector := [1; 0]%Q.
Definition north_east : vector := [4 # 5; 3 # 5]%Q.
Definition north_west : vector := [- (4 # 5); 3 # 5]%Q.

Definition example_node (id : nat) (e : vector) : NodeRow :=
  mkNodeRow id 1 None 1 0 (text_of_string "Section") 0 0 None None (Some e).

Definition example_chunk (id doc idx : nat) (nid : option nat) : ChunkRow :=
  mkChunkRow id doc idx (text_of_string "body") (mkMeta None None) nid.

(** Chunk 1 of document 1 matches the query [east] exactly and lies in
    node 50, whose embedding points away from the query; chunk 2 belongs
    to document 2 and to no node. *)
Definition db_far_node : db :=
  mkDb [] [example_node 50 north_west]
       [example_chunk 1 1 1 (Some 50); example_chunk 2 2 1 None]
       [mkEmb 1 east []; mkEmb 2 north_east []] 100.

(** Two chunks of node 50, which matches the query [east]; the chunk
    stored with index 2 is the closer one. *)
Definition db_tie : db :=
  mkDb [] [example_node 50 east]
       [example_chunk 1 1 2 (Some 50); example_chunk 2 1 1 (Some 50)]
       [mkEmb 1 east []; mkEmb 2 north_east []] 100.

Definition far_results : list SearchResult :=
  hybrid_search unit_distance [] east 5 (1 # 2)%Q (Some [1]) db_far_node.

Definition tie_results : list SearchResult :=
  hybrid_search unit_distance [] east 5 (1 # 2)%Q None db_tie.

Definition no_result : SearchResult := mkSearchResult 0 0 [] [] None 0 0 0.

Definition LF : string := String (ascii_of_nat 10) EmptyString.

(** A sentence of 900 characters and its full stop, then a short one. *)
Definition long_sentence : text := repeat 97%N 900 ++ [12290%N].
Definition long_text : text := long_sentence ++ text_of_string "end".

(** A short paragraph followed by one of 400 characters. *)
Definition short_then_long : text :=
  text_of_string "short" ++ PARA_SEP ++ repeat 98%N 400.

(** The claimed lower bound: every chunk but the last one is at least
    [min_chunk_size] long. *)
Definition min_size_respected (min_chunk_size : nat) (chunks : list text) : Prop :=
  Forall (fun c => min_chunk_size <= length c) (removelast chunks).

(** Example documents. *)
Definition doc_one_heading : text := text_of_string ("# A" ++ LF ++ "x").
Definition doc_two_chapters : text :=
  text_of_string ("# A" ++ LF ++ "x" ++ LF ++ "# B" ++ LF ++ "y").
Definition doc_skipped_level : text :=
  text_of_string ("# A" ++ LF ++ "### C" ++ LF ++ "### D").
Definition doc_outline : text :=
  text_of_string ("intro" ++ LF ++ "# A" ++ LF ++ "alpha" ++ LF ++ "## B"
                  ++ LF ++ "beta" ++ LF ++ "# C" ++ LF ++ "gamma").

(** The claimed idempotence of indexing: after a second [build_index] for
    the same document id the store holds one tree for it and the chunks
    of the first run, and the second run returns. *)
Definition trees_for (doc : nat) (s : db) : list TreeRow :=
  filter (fun r => tree_document_id r = doc) (doc_trees s).

Definition chunks_for (doc : nat) (s : db) : list (nat * text) :=
  map (fun r => (chunk_index r, row_content r))
      (filter (fun r => document_id r = doc) (document_chunks s)).

Definition reindex_replaces (doc : nat) (body filename model : text)
    (registry : registry_t) (s : db) : Prop :=
  let s1 := fst (build_index doc body filename model registry s) in
  let r2 := build_index doc body filename model registry s1 in
  (exists res, snd r2 = Done res) /\
  length (trees_for doc (fst r2)) = 1 /\
  chunks_for doc (fst r2) = chunks_for doc s1.

Definition empty_db : db := mkDb [] [] [] [] 0.

(** The document, the file name and the expected title of
    [test_parse_markdown], the unit test of the design. *)
Definition test_content : text :=
  [10; 35; 32; 31532; 19968; 31456; 32; 20135; 21697; 20171; 32461; 10; 10;
   36825; 26159; 20135; 21697; 20171; 32461; 30340; 20869; 23481; 12290;
   10; 10; 35; 35; 32; 49; 46; 49; 32; 105; 80; 104; 111; 110; 101; 10; 10;
   105; 80; 104; 111; 110; 101; 32; 26159; 33529; 26524; 20844; 21496;
   30340; 25163; 26426; 20135; 21697; 12290; 10; 10; 35; 35; 35; 32; 49;
   46; 49; 46; 49; 32; 105; 80; 104; 111; 110; 101; 32; 49; 53; 32; 80;
   114; 111; 10; 10; 105; 80; 104; 111; 110; 101; 32; 49; 53; 32; 80; 114;
   111; 32; 26159; 26368; 26032; 30340; 26071; 33328; 26426; 22411; 12290;
   10]%N.

Definition test_filename : text :=
  [27979; 35797; 25991; 26723]%N.

Definition test_chapter_title : text :=
  [31532; 19968; 31456; 32; 20135; 21697; 20171; 32461]%N.

(** ** Auxiliary definitions of the further properties *)

(** Twice the number of texts, plus their lengths: two more than the
    length of their [join] with [PARA_SEP] when there is one text at
    least. *)
Definition padded_length (l : list text) : nat :=
  sum_list (map (fun p => length p + 2) l).

(** No node row of the store holds a vector: the routing query of
    [hybrid_search] finds nothing. *)
Definition unrouted (s : db) : Prop :=
  Forall (fun r => node_embedding r = None) (doc_nodes s).

(** Relations between the store before and after a statement: no vector
    was given to a node; the embedding rows are the same. *)
Definition keeps_unrouted (s s' : db) : Prop := unrouted s -> unrouted s'.

Definition same_embeddings (s s' : db) : Prop :=
  chunk_embeddings s' = chunk_embeddings s.

(** ** The parser on values

    The loop of [parse_markdown] once more, on trees instead of objects:
    the stack is the list of the open nodes, the root first, each with
    those of its children that are complete; the last child of an open
    node is the open node after it.  [stack.pop()] hands the node over to
    its parent, which on the heap holds it already.  The lemma
    [parse_markdown_on_values] shows that this loop builds the tree that
    [parse_markdown] returns. *)

Record frame : Type := mkFrame {
  f_id : nat;
  f_data : NodeData;
  f_kids : list DocNode
}.

(** The tree under the first of the open nodes [fs] (no tree for no
    node). *)
Fixpoint plug (fs : list frame) : list DocNode :=
  match fs with
  | [] => []
  | f :: fs' => [Node (f_id f) (f_data f) (f_kids f ++ plug fs')]
  end.

(** The fields after [node.char_end = pos; node.content = content[...]] *)
Definition close_data (doc : text) (pos : nat) (d : NodeData) : NodeData :=
  mkData (level d) (index d) (title d) (slice doc (char_start d) pos)
         (page_start d) (page_end d) (char_start d) pos.

Definition v_close (doc : text) (pos : nat) (sp : list frame) : list frame :=
  if 1 <? length sp then
    alter (fun f => mkFrame (f_id f) (close_data doc pos (f_data f)) (f_kids f))
          (length sp - 1) sp
  else sp.

(** [while len(stack) > level: stack.pop()]: the nodes from position
    [lvl] on are complete and make up the last child of the node before
    them. *)
Definition collapse (lvl : nat) (sp : list frame) : list frame :=
  match lvl with
  | 0 => []
  | S l => take l sp ++
           match sp !! l with
           | Some f => [mkFrame (f_id f) (f_data f) (f_kids f ++ plug (drop lvl sp))]
           | None => []
           end
  end.

(** [len(stack[level].children) if level < len(stack) else 0] *)
Definition v_sibling_index (sp : list frame) (lvl : nat) : nat :=
  match sp !! lvl with
  | Some f => length (f_kids f ++ plug (drop (S lvl) sp))
  | None => 0
  end.

(** The body of [if match:]; [n] is the identifier of the new node. *)
Definition v_open (doc : text) (pos : nat) (line : text) (lvl : nat)
    (ttl : text) (n : nat) (sp : list frame) : list frame :=
  let sp1 := v_close doc pos sp in
  collapse lvl sp1 ++
  [mkFrame n (mkData lvl (v_sibling_index sp1 lvl) ttl [] None None
                     (pos + length line + 1) (length doc)) []].

Record vstate : Type := mkV {
  frames : list frame;
  v_count : nat;        (* the nodes created so far *)
  v_pos : nat           (* the offset of the next line *)
}.

Definition v_visit (doc : text) (vs : vstate) (line : text) : vstate :=
  match heading_of line with
  | Some (lvl, ttl) =>
      mkV (v_open doc (v_pos vs) line lvl ttl (v_count vs) (frames vs))
          (S (v_count vs)) (v_pos vs + length line + 1)
  | None => mkV (frames vs) (v_count vs) (v_pos vs + length line + 1)
  end.

Definition v_init (doc filename : text) : vstate :=
  mkV [mkFrame 0 (data (root_cell doc filename)) []] 1 0.

Definition v_scan (doc filename : text) (lines : list text) : vstate :=
  fold_left (v_visit doc) lines (v_init doc filename).

Definition v_parse (doc filename : text) : list DocNode :=
  plug (v_close doc (length doc)
          (frames (v_scan doc filename (split_lines doc)))).

(** The objects of a tree in the order [traverse] visits them, each with
    its address. *)
Fixpoint cells_of (n : DocNode) : list (nat * Cell) :=
  let 'Node a d ks := n in
  (a, mkCell d (map node_id ks)) :: flat_map cells_of ks.

(** The offset at which the line after the lines [pre] starts. *)
Definition line_offset (pre : list text) : nat :=
  sum_list (map (fun l => length l + 1) pre).

(** The heap and the open nodes hold the same tree: the stack lists the
    open nodes, and the objects of the tree in pre-order are the cells of
    the heap in the order of their addresses. *)
Record sim (st : pstate) (vs : vstate) : Prop := mkSim {
  sim_stack : stack st = map f_id (frames vs);
  sim_ids : map fst (flat_map cells_of (plug (frames vs)))
            = seq 0 (length (heap st));
  sim_cells : map snd (flat_map cells_of (plug (frames vs))) = heap st;
  sim_count : v_count vs = length (heap st)
}.

(** The heading lines among [lines], the first of which starts at the
    offset [pos]: for each one the offset at which the line starts and
    the offset after the line and its line break. *)
Fixpoint heading_spans (pos : nat) (lines : list text) : list (nat * nat) :=
  match lines with
  | [] => []
  | line :: rest =>
      match heading_of line with
      | Some _ => [(pos, pos + length line + 1)]
      | None => []
      end ++ heading_spans (pos + length line + 1) rest
  end.

(** A chain of nodes from [n] down: each one is a child of the one
    before it. *)
Fixpoint descends (n : DocNode) (path : list DocNode) : Prop :=
  match path with
  | [] => False
  | m :: rest =>
      m = n /\
      match rest with
      | [] => True
      | k :: _ => In k (node_children n) /\ descends k rest
      end
  end.

(** The rule that the field [index] follows: the first of the children
    has [index = prev], and every later one has as [index] the number of
    children of the sibling before it. *)
Fixpoint index_chain (prev : nat) (ks : list DocNode) : Prop :=
  match ks with
  | [] => True
  | k :: ks' => index (node_data k) = prev /\
                index_chain (length (node_children k)) ks'
  end.

(** The depth and the level of the nodes of a tree whose root is at
    depth [d], in pre-order.  The depth is what [_save_nodes] stores as
    [node_level]. *)
Fixpoint depth_levels (d : nat) (n : DocNode) : list (nat * nat) :=
  let 'Node _ x ks := n in
  (d, level x) :: flat_map (depth_levels (S d)) ks.

(** Heading levels that go down by one level at most at a time: each
    level is at most one more than the level before it ([prev] for the
    first one). *)
Fixpoint no_skip (prev : nat) (levels : list nat) : Prop :=
  match levels with
  | [] => True
  | l :: levels' => l <= S prev /\ no_skip l levels'
  end.

(** Two nodes with content: the first one ends before the second one
    starts. *)
Definition section_before (m1 m2 : DocNode) : Prop :=
  content (node_data m1) <> [] -> content (node_data m2) <> [] ->
  char_end (node_data m1) < char_start (node_data m2).

(** Two chunks of one node, or the first one of a node that ends before
    the node of the second one starts. *)
Definition chunk_before (c1 c2 : Chunk) : Prop :=
  (chunk_node_id c1 = chunk_node_id c2 /\
   chunk_char_start c1 = chunk_char_start c2 /\
   chunk_char_end c1 = chunk_char_end c2)
  \/ chunk_char_end c1 < chunk_char_start c2.

(** ** The rows of [_save_nodes]

    What [_save_nodes] inserts for a tree, in the order of its
    [INSERT]s, when the store hands out the identifiers [base],
    [base + 1], ...: a node before its children, the children from first
    to last; [node_level] is the depth in the tree and [node_index] the
    position among the siblings (the [level] and [index] of the call, not
    the fields of the node), [parent_id] the identifier of the row of the
    parent. *)
Definition rows_each (rows : DocNode -> nat -> nat -> list NodeRow)
    : list DocNode -> nat -> nat -> list NodeRow :=
  fix each (ks : list DocNode) (i b : nat) : list NodeRow :=
    match ks with
    | [] => []
    | child :: ks' =>
        rows child i b ++ each ks' (S i) (b + length (nodes_of child))
    end.

Fixpoint rows_of (tid : nat) (node : DocNode) (parent : option nat)
    (lvl idx base : nat) : list NodeRow :=
  let 'Node _ d kids := node in
  mkNodeRow base tid parent lvl idx (title d) (char_start d) (char_end d)
            (prefix_or_none 200 (content d)) (prefix_or_none 100 (content d))
            None
  :: rows_each (fun child i b => rows_of tid child (Some base) (S lvl) i b)
               kids 0 (S base).

(** The [INSERT]s for given rows, one after the other; the identifiers
    are those that the store generates. *)
Fixpoint insert_rows (rows : list NodeRow) : M unit :=
  match rows with
  | [] => ret tt
  | r :: rows' =>
      insert_node (node_tree_id r) (parent_id r) (node_level r) (node_index r)
                  (node_title r) (node_char_start r) (node_char_end r)
                  (summary r) (content_preview r) ;;;
      insert_rows rows'
  end.

(** The columns of [UNIQUE(tree_id, node_level, node_index)]. *)
Definition node_key (r : NodeRow) : nat * nat * nat :=
  (node_tree_id r, node_level r, node_index r).

(** The store with more node rows, and as many identifiers used. *)
Definition add_node_rows (s : db) (rows : list NodeRow) : db :=
  mkDb (doc_trees s) (doc_nodes s ++ rows) (document_chunks s)
       (chunk_embeddings s) (next_uuid s + length rows).

(** The pairs [(node_level, node_index)] under which [_save_nodes] stores
    the nodes of a tree. *)
Definition level_index_pairs (root : DocNode) : list (nat * nat) :=
  map (fun r => (node_level r, node_index r)) (rows_of 0 root None 0 0 0).

(** A run that returns [n] where [r] returns, and raises what [r]
    raises. *)
Definition returning {A} (n : nat) (r : db * outcome A) : db * outcome nat :=
  match r with
  | (s', Done _) => (s', Done n)
  | (s', Raised e) => (s', Raised e)
  end.

(** The chunk rows and the embedding rows that [build_index] inserts for
    the chunks [cs], the first of which gets the index [i + 1], when the
    store hands out the identifiers [base], [base + 1], ... *)
Definition chunk_rows_of (doc i base : nat) (cs : list Chunk) : list ChunkRow :=
  imap (fun j c =>
          mkChunkRow (base + j) doc (i + j + 1) (chunk_content c)
                     (mkMeta (Some (chunk_node_path c)) (Some (chunk_level c)))
                     (Some (chunk_node_id c))) cs.

Definition embedding_rows_of (model : text) (registry : registry_t) (base : nat)
    (cs : list Chunk) : list EmbeddingRow :=
  match registry with
  | Some embed => imap (fun j c => mkEmb (base + j) (embed (chunk_content c)) model) cs
  | None => []
  end.

(** Two chapters with one section each. *)
Definition doc_two_sections : text :=
  text_of_string ("# A" ++ LF ++ "## A1" ++ LF ++ "# B" ++ LF ++ "## B1").

(** ** [PageIndexService.get_node_tree] *)

(** [dict(n)] for a row [n] of the node query, and the key ["children"]
    that the loop adds.  The dicts are the values of [node_map]; a
    [children] list holds some of these same objects, which are named
    here by their key in [node_map].  [None]: the dict has no key
    ["children"]. *)
Record NodeDict : Type := mkNodeDict {
  nd_id : nat;
  nd_parent_id : option nat;
  nd_node_level : nat;
  nd_node_index : nat;
  nd_title : text;
  nd_summary : option text;
  nd_char_start : nat;
  nd_char_end : nat;
  nd_children : option (list nat)
}.

Definition dict_of_row (r : NodeRow) : NodeDict :=
  mkNodeDict (node_row_id r) (parent_id r) (node_level r) (node_index r)
             (node_title r) (summary r) (node_char_start r) (node_char_end r)
             None.

(** [ORDER BY node_level, node_index]; rows with equal keys stay in table
    order. *)
Definition row_le (a b : NodeRow) : bool :=
  (node_level a <? node_level b)
  || ((node_level a =? node_level b) && (node_index a <=? node_index b)).

Fixpoint insert_row (x : NodeRow) (l : list NodeRow) : list NodeRow :=
  match l with
  | [] => [x]
  | y :: l' => if row_le x y then x :: l else y :: insert_row x l'
  end.

Definition order_rows (l : list NodeRow) : list NodeRow := foldr insert_row [] l.

(** [SELECT ... FROM doc_nodes WHERE tree_id = $1
    ORDER BY node_level, node_index] *)
Definition tree_nodes_sql (tid : nat) (s : db) : list NodeRow :=
  order_rows (filter (fun r => node_tree_id r = tid) (doc_nodes s)).

(** [{n["id"]: dict(n) for n in nodes}] *)
Definition node_map_of (nodes : list NodeRow) : gmap nat NodeDict :=
  foldl (fun m n => <[node_row_id n := dict_of_row n]> m) ∅ nodes.

(** [if "children" not in parent: parent["children"] = []] and
    [parent["children"].append(child)] *)
Definition append_child (child : nat) (d : NodeDict) : NodeDict :=
  mkNodeDict (nd_id d) (nd_parent_id d) (nd_node_level d) (nd_node_index d)
             (nd_title d) (nd_summary d) (nd_char_start d) (nd_char_end d)
             (Some (default [] (nd_children d) ++ [child])).

(** The body of [for node in nodes]: the state is [node_map] and
    [root]. *)
Definition link (st : gmap nat NodeDict * option nat) (node : NodeRow)
    : gmap nat NodeDict * option nat :=
  match parent_id node with
  | None => (fst st, Some (node_row_id node))
  | Some p =>
      match fst st !! p with
      | Some parent => (<[p := append_child (node_row_id node) parent]> (fst st), snd st)
      | None => st
      end
  end.

(** The returned dict: its [root] is an object of [node_map], given with
    the objects it reaches. *)
Record TreeView : Type := mkView {
  view_tree_id : nat;
  view_title : text;
  view_total_nodes : nat;
  view_root : option nat;
  view_nodes : gmap nat NodeDict
}.

(** [fetchrow] returns the first row of the query, [None] for no row. *)
Definition get_node_tree (document_id : nat) (s : db) : option TreeView :=
  match List.find (fun t => tree_document_id t =? document_id) (doc_trees s) with
  | None => None
  | Some tree =>
      let nodes := tree_nodes_sql (tree_id tree) s in
      let st := foldl link (node_map_of nodes, None) nodes in
      Some (mkView (tree_id tree) (tree_title tree) (total_nodes tree)
                   (snd st) (fst st))
  end.

(** The [children] entry after more children. *)
Definition more_children (c : option (list nat)) (l : list nat) : option (list nat) :=
  match l with
  | [] => c
  | _ => Some (default [] c ++ l)
  end.

(** A dict with another [children] entry. *)
Definition set_children (d : NodeDict) (c : option (list nat)) : NodeDict :=
  mkNodeDict (nd_id d) (nd_parent_id d) (nd_node_level d) (nd_node_index d)
             (nd_title d) (nd_summary d) (nd_char_start d) (nd_char_end d) c.
(** * Properties *)

(** ** Stable sorting by a rational key *)

Section OrderBy.
Context {A : Type} (key : A -> Q).
Local Open Scope Q_scope.

Lemma in_insert_by x y l : In y (insert_by key x l) <-> y = x \/ In y l.
Proof.
  induction l as [|z l IH]; simpl.
  - intuition.
  - destruct (Qle_bool (key x) (key z)); simpl; [intuition|].
    rewrite IH. intuition.
Qed.

Lemma in_order_by y l : In y (order_by key l) <-> In y l.
Proof.
  induction l as [|x l IH]; simpl; [tauto|].
  rewrite in_insert_by, IH. intuition.
Qed.

Lemma insert_by_sorted x l :
  StronglySorted (key_le key) l -> StronglySorted (key_le key) (insert_by key x l).
Proof.
  induction 1 as [|z l Hs IH Hz]; simpl.
  - repeat constructor.
  - destruct (Qle_bool (key x) (key z)) eqn:E.
    + apply Qle_bool_iff in E.
      constructor; [constructor; assumption|].
      constructor; [exact E|].
      rewrite List.Forall_forall in Hz |- *. intros w Hw.
      unfold key_le in *. eapply Qle_trans; [exact E|]. apply Hz, Hw.
    + constructor; [exact IH|].
      rewrite List.Forall_forall in Hz |- *. intros w Hw.
      apply in_insert_by in Hw as [-> | Hw]; [|apply Hz, Hw].
      unfold key_le. apply Qlt_le_weak, Qnot_le_lt.
      intros Hle. apply Qle_bool_iff in Hle. congruence.
Qed.

Lemma order_by_sorted l : StronglySorted (key_le key) (order_by key l).
Proof.
  induction l as [|x l IH]; simpl; [constructor|].
  apply insert_by_sorted, IH.
Qed.

Lemma before_cons (a b x : A) l :
  before a b (x :: l) <-> (a = x /\ In b l) \/ before a b l.
Proof.
  split.
  - intros (l1 & l2 & l3 & E). destruct l1 as [|y l1]; simpl in E.
    + injection E as -> ->. left. split; [reflexivity|].
      apply in_or_app. right. left. reflexivity.
    + injection E as -> ->. right. exists l1, l2, l3. reflexivity.
  - intros [[-> Hb] | (l1 & l2 & l3 & ->)].
    + apply in_split in Hb as (l2 & l3 & ->). exists [], l2, l3. reflexivity.
    + exists (x :: l1), l2, l3. reflexivity.
Qed.

Lemma before_nil (a b : A) : ~ before a b [].
Proof. intros (l1 & l2 & l3 & E). destruct l1; discriminate. Qed.

(** Where a pair of the sorted list comes from: the two elements were
    in this order already, or the inserted element is one of them and
    it went past elements of strictly smaller key only. *)
Lemma before_insert_by a b x l :
  before a b (insert_by key x l) ->
  before a b l \/ (a = x /\ In b l) \/ (b = x /\ In a l /\ key a < key x).
Proof.
  induction l as [|z l IH]; simpl.
  - rewrite before_cons. intros [[_ []] | H]. destruct (before_nil _ _ H).
  - destruct (Qle_bool (key x) (key z)) eqn:E.
    + rewrite before_cons. intros [[-> Hb] | H]; auto.
    + assert (Hlt : key z < key x).
      { apply Qnot_le_lt. intros Hle. apply Qle_bool_iff in Hle. congruence. }
      rewrite before_cons. intros [[-> Hb] | H].
      * apply in_insert_by in Hb as [-> | Hb].
        -- right. right. simpl. auto.
        -- left. apply before_cons. auto.
      * destruct (IH H) as [H' | [[-> Hb] | (-> & Ha & Hk)]].
        -- left. apply before_cons. auto.
        -- right. left. simpl. auto.
        -- right. right. simpl. auto.
Qed.

(** Stability: elements that the sort leaves in the order [a], [b]
    although [b] has no larger key were in that order before. *)
Lemma order_by_stable a b l :
  before a b (order_by key l) -> key b <= key a -> before a b l.
Proof.
  induction l as [|x l IH]; simpl; intros H Hk.
  - destruct (before_nil _ _ H).
  - apply before_insert_by in H as [H | [[-> Hb] | (-> & Ha & Hlt)]].
    + apply before_cons. right. apply IH; assumption.
    + apply before_cons. left. split; [reflexivity|].
      apply (proj1 (in_order_by _ _)) in Hb. exact Hb.
    + exfalso. eapply Qlt_not_le; eauto.
Qed.

End OrderBy.

Lemma sorted_before_rel {A} (R : A -> A -> Prop) (a b : A) l :
  StronglySorted R l -> before a b l -> R a b.
Proof.
  induction 1 as [|z l Hs IH Hz]; intros H.
  - destruct (before_nil _ _ H).
  - apply before_cons in H as [[-> Hb] | H]; [|apply IH, H].
    rewrite List.Forall_forall in Hz. apply Hz, Hb.
Qed.

Lemma StronglySorted_impl {A} (R S : A -> A -> Prop) l :
  (forall a b, R a b -> S a b) -> StronglySorted R l -> StronglySorted S l.
Proof.
  intros HRS. induction 1 as [|z l Hs IH Hz]; constructor; [exact IH|].
  rewrite List.Forall_forall in Hz |- *. auto.
Qed.

Lemma before_take {A} (a b : A) n l : before a b (take n l) -> before a b l.
Proof.
  intros (l1 & l2 & l3 & E).
  exists l1, l2, (l3 ++ drop n l).
  rewrite <- (take_drop n l) at 1. rewrite E.
  rewrite <- !app_assoc. simpl. rewrite <- !app_assoc. reflexivity.
Qed.

Lemma before_map {A B} (f : A -> B) (a b : B) l :
  before a b (map f l) ->
  exists a' b', before a' b' l /\ f a' = a /\ f b' = b.
Proof.
  intros (l1 & l2 & l3 & E).
  apply map_eq_app in E as (m1 & m23 & -> & <- & E).
  apply map_eq_cons in E as (a' & m23' & -> & <- & E).
  apply map_eq_app in E as (m2 & m3 & -> & <- & E).
  apply map_eq_cons in E as (b' & m3' & -> & <- & <-).
  exists a', b'. split; [|auto]. exists m1, m2, m3'. reflexivity.
Qed.

Lemma sorted_take {A} (R : A -> A -> Prop) n l :
  StronglySorted R l -> StronglySorted R (take n l).
Proof.
  intros H. revert n. induction H as [|x l Hs IH Hx]; intros [|n]; simpl;
    try constructor.
  - apply IH.
  - rewrite List.Forall_forall in Hx |- *. intros y Hy. apply Hx.
    rewrite <- (take_drop n l). apply in_or_app. left. exact Hy.
Qed.

Lemma in_take {A} (x : A) n l : In x (take n l) -> In x l.
Proof.
  intros H. rewrite <- (take_drop n l). apply in_or_app. left. exact H.
Qed.

(** ** The structure parser *)

(** *** Lines and offsets *)

Lemma split_lines_total s :
  sum_list (map (fun l => length l + 1) (split_lines s)) = length s + 1.
Proof.
  induction s as [|c s IH]; [reflexivity|].
  cbn [split_lines]. destruct (c =? NL)%N.
  - simpl in *. lia.
  - destruct (split_lines s) as [|l ls]; simpl in *; lia.
Qed.

Lemma char_pos_of_app pre line rest :
  char_pos_of (pre ++ line :: rest) (length pre) =
  sum_list (map (fun l => length l + 1) pre).
Proof.
  unfold char_pos_of. rewrite take_app_length. reflexivity.
Qed.

Lemma sum_lines_app_le pre line (rest : list text) :
  sum_list (map (fun l => length l + 1) pre) + length line + 1 <=
  sum_list (map (fun l : text => length l + 1) (pre ++ line :: rest)).
Proof. rewrite map_app, sum_list_with_app. simpl. unfold id. lia. Qed.

(** *** Headings *)

Lemma first_match_level ps line lvl ttl :
  first_match ps line = Some (lvl, ttl) -> In lvl ps.
Proof.
  induction ps as [|k ps IH]; simpl; [discriminate|].
  destruct (match_pattern k line).
  - intros [= <- <-]. auto.
  - auto.
Qed.

Lemma heading_of_level line lvl ttl :
  heading_of line = Some (lvl, ttl) -> 1 <= lvl <= 4.
Proof.
  intros H. apply first_match_level in H. simpl in H.
  intuition lia.
Qed.

(** *** One step on the heap *)

Lemma close_top_stack doc pos st : stack (close_top doc pos st) = stack st.
Proof.
  unfold close_top. destruct (1 <? length (stack st)); [|reflexivity].
  destruct (last (stack st)); reflexivity.
Qed.

Lemma close_top_length doc pos st :
  length (heap (close_top doc pos st)) = length (heap st).
Proof.
  unfold close_top. destruct (1 <? length (stack st)); [|reflexivity].
  destruct (last (stack st)); simpl; [apply length_alter | reflexivity].
Qed.

(** [close_top] changes [char_end] and [content] of the top of the stack
    and nothing else. *)
Lemma close_top_lookup doc pos st a c1 :
  heap (close_top doc pos st) !! a = Some c1 ->
  exists c,
    heap st !! a = Some c /\
    children c1 = children c /\
    char_start (data c1) = char_start (data c) /\
    level (data c1) = level (data c) /\
    ((c1 = c /\ ~ (1 < length (stack st) /\ last (stack st) = Some a)) \/
     (1 < length (stack st) /\ last (stack st) = Some a /\
      char_end (data c1) = pos)).
Proof.
  unfold close_top.
  destruct (1 <? length (stack st)) eqn:E.
  2:{ apply Nat.ltb_ge in E. intros H. exists c1. repeat split; auto.
      left. split; [reflexivity|]. lia. }
  apply Nat.ltb_lt in E.
  destruct (last (stack st)) as [top|] eqn:L.
  2:{ intros H. exists c1. repeat split; auto.
      left. split; [reflexivity|]. intros [_ ?]; discriminate. }
  simpl. destruct (decide (a = top)) as [-> | NE].
  - rewrite list_lookup_alter_eq. intros H.
    apply fmap_Some in H as (c & Hc & ->).
    exists c. simpl. auto 8.
  - rewrite list_lookup_alter_ne by congruence. intros H. exists c1.
    repeat split; auto. left. split; [reflexivity|]. intros [_ [= ?]]. congruence.
Qed.

Lemma open_heading_eq doc pos line lvl ttl st parent :
  last (take lvl (stack st)) = Some parent ->
  open_heading doc pos line lvl ttl st =
  mkState
    (alter (add_child (length (heap st))) parent (heap (close_top doc pos st))
     ++ [mkCell (mkData lvl (sibling_index (close_top doc pos st) lvl) ttl []
                        None None (pos + length line + 1) (length doc)) []])
    (take lvl (stack st) ++ [length (heap st)]).
Proof.
  intros H. unfold open_heading.
  rewrite close_top_stack, close_top_length, H. reflexivity.
Qed.

Lemma take_last_exists {A} (l : list A) n :
  l <> [] -> 1 <= n -> exists x, last (take n l) = Some x /\ In x l.
Proof.
  intros Hl Hn.
  destruct (last (take n l)) as [x|] eqn:E.
  - exists x. split; [reflexivity|].
    apply last_Some in E as (l' & E).
    apply (in_take x n). rewrite E. apply in_or_app. right. left. reflexivity.
  - apply last_None in E. destruct l; [congruence|].
    destruct n; [lia | discriminate].
Qed.

(** What a cell of the heap after [open_heading] looks like. *)
Lemma open_heading_lookup doc pos line lvl ttl st parent a c2 :
  last (take lvl (stack st)) = Some parent ->
  parent < length (heap st) ->
  heap (open_heading doc pos line lvl ttl st) !! a = Some c2 ->
  (a = length (heap st) /\
   children c2 = [] /\
   level (data c2) = lvl /\
   char_start (data c2) = pos + length line + 1 /\
   char_end (data c2) = length doc)
  \/
  (a < length (heap st) /\
   exists c,
     heap st !! a = Some c /\
     char_start (data c2) = char_start (data c) /\
     level (data c2) = level (data c) /\
     ((char_end (data c2) = char_end (data c) /\
       ~ (1 < length (stack st) /\ last (stack st) = Some a)) \/
      (1 < length (stack st) /\ last (stack st) = Some a /\
       char_end (data c2) = pos)) /\
     ((children c2 = children c /\ a <> parent) \/
      (a = parent /\ children c2 = children c ++ [length (heap st)]))).
Proof.
  intros Hp Hlt. rewrite (open_heading_eq _ _ _ _ _ _ _ Hp). simpl.
  destruct (decide (a < length (heap st))) as [Ha | Ha].
  - rewrite lookup_app_l by (rewrite length_alter, close_top_length; exact Ha).
    intros H. right. split; [exact Ha|].
    destruct (decide (a = parent)) as [-> | NE].
    + rewrite list_lookup_alter_eq in H.
      apply fmap_Some in H as (c1 & E1 & ->).
      destruct (close_top_lookup _ _ _ _ _ E1) as (c & Hc & Hk & Hs & Hl & He).
      exists c. simpl. rewrite Hk, Hs, Hl. repeat split; auto.
      destruct He as [[-> He] | He]; auto.
    + rewrite list_lookup_alter_ne in H by congruence.
      destruct (close_top_lookup _ _ _ _ _ H) as (c & Hc & Hk & Hs & Hl & He).
      exists c. rewrite Hk, Hs, Hl. repeat split; auto.
      destruct He as [[-> He] | He]; auto.
  - rewrite lookup_app_r by (rewrite length_alter, close_top_length; lia).
    rewrite length_alter, close_top_length.
    destruct (a - length (heap st)) as [|m] eqn:E; simpl; [|discriminate].
    intros [= <-]. left. simpl. repeat split; auto. lia.
Qed.

Lemma open_heading_length doc pos line lvl ttl st parent :
  last (take lvl (stack st)) = Some parent ->
  length (heap (open_heading doc pos line lvl ttl st)) = S (length (heap st)).
Proof.
  intros Hp. rewrite (open_heading_eq _ _ _ _ _ _ _ Hp). simpl.
  rewrite length_app, length_alter, close_top_length. simpl. lia.
Qed.

(** *** The invariant of the loop *)

Lemma sorted_snoc (l : list nat) n :
  StronglySorted lt l -> Forall (fun k => k < n) l -> StronglySorted lt (l ++ [n]).
Proof.
  induction 1 as [|x l Hs IH Hx]; intros Hn; simpl.
  - repeat constructor.
  - apply List.Forall_cons_iff in Hn as [Hxn Hn].
    constructor; [apply IH, Hn|].
    apply List.Forall_app. split; [exact Hx|]. repeat constructor. exact Hxn.
Qed.

Lemma parser_inv_init doc filename :
  parser_inv doc 0 (init_state doc filename).
Proof.
  constructor; simpl.
  - left. auto.
  - reflexivity.
  - intros a [<- | []]. lia.
  - intros [|a] c; simpl; [|discriminate]. intros [= <-]. simpl.
    split; constructor.
  - intros [|a] c Ha; simpl; [lia | discriminate].
  - intros [|a] [|b] ca cb Ha Hab; simpl; try lia; discriminate.
  - intros [|a] c; simpl; [|discriminate]. intros [= <-]. simpl. lia.
Qed.

Lemma parser_inv_mono doc P P' st :
  parser_inv doc P st -> P <= P' -> parser_inv doc P' st.
Proof.
  intros [] HP. constructor; auto.
  intros a c Ha Hc. etransitivity; [eapply inv_start0; eauto | exact HP].
Qed.

Lemma parser_inv_open doc P line lvl ttl st :
  parser_inv doc P st -> 1 <= lvl -> P <= length doc ->
  parser_inv doc (P + length line + 1) (open_heading doc P line lvl ttl st).
Proof.
  intros [Hshape Htop Hstack Hkids Hstart Horder Hend] Hlvl HP.
  assert (Hne : stack st <> []).
  { intros E. rewrite E in Hshape. simpl in Hshape. lia. }
  destruct (take_last_exists (stack st) lvl Hne Hlvl) as (parent & Hp & Hin).
  pose proof (Hstack _ Hin) as Hplt.
  pose proof (open_heading_lookup doc P line lvl ttl st parent) as L.
  pose proof (open_heading_length doc P line lvl ttl st parent Hp) as Hlen.
  assert (Hlast : forall a, last (stack st) = Some a -> a = length (heap st) - 1)
    by (intros a E; congruence).
  constructor.
  - right. split.
    + rewrite (open_heading_eq _ _ _ _ _ _ _ Hp). simpl.
      rewrite length_app. simpl.
      apply last_Some in Hp as (l' & E). rewrite E, length_app. simpl. lia.
    + rewrite Hlen. destruct Hshape; lia.
  - rewrite Hlen. rewrite (open_heading_eq _ _ _ _ _ _ _ Hp). simpl.
    rewrite last_snoc. f_equal. lia.
  - rewrite Hlen. rewrite (open_heading_eq _ _ _ _ _ _ _ Hp). simpl.
    intros a Ha. apply in_app_or in Ha as [Ha | [<- | []]]; [|lia].
    apply in_take in Ha. apply Hstack in Ha. lia.
  - intros a c2 H2. rewrite Hlen.
    destruct (L a c2 Hp Hplt H2) as [(-> & Hk & _) | (Ha & c & Hc & _ & _ & _ & Hk)].
    + rewrite Hk. split; constructor.
    + destruct (Hkids a c Hc) as [HF HS].
      destruct Hk as [[-> _] | [-> ->]].
      * split; [|exact HS]. eapply List.Forall_impl; [|exact HF].
        simpl. intros k Hk. lia.
      * split.
        -- apply List.Forall_app. split.
           ++ eapply List.Forall_impl; [|exact HF]. simpl. intros k Hk. lia.
           ++ repeat constructor; lia.
        -- apply sorted_snoc; [exact HS|].
           eapply List.Forall_impl; [|exact HF]. simpl. intros k Hk. lia.
  - intros a c2 Ha H2.
    destruct (L a c2 Hp Hplt H2) as [(-> & _ & _ & Hs & _) | (Ha' & c & Hc & Hs & _)].
    + lia.
    + rewrite Hs. specialize (Hstart a c Ha Hc). lia.
  - intros a b c2a c2b Ha Hab H2a H2b.
    destruct (L a c2a Hp Hplt H2a) as [(-> & _) | (Ha' & ca & Hca & Hsa & _ & Hea & _)].
    { apply lookup_lt_Some in H2b. lia. }
    rewrite Hsa.
    destruct (L b c2b Hp Hplt H2b)
      as [(-> & _ & _ & Hsb & _) | (Hb' & cb & Hcb & Hsb & _)]; rewrite Hsb.
    + (* [b] is the new node *)
      destruct Hea as [[Hea Hnot] | (Hlen1 & Hl & Hea)]; rewrite Hea.
      * destruct (decide (a = length (heap st) - 1)) as [E | NE].
        -- exfalso. apply Hnot. split; [|rewrite Htop; congruence].
           destruct Hshape as [[_ H1] | [H1 _]]; [lia | exact H1].
        -- assert (Ht : length (heap st) - 1 < length (heap st)) by lia.
           apply lookup_lt_is_Some_2 in Ht as [ct Hct].
           assert (Hat : a < length (heap st) - 1) by lia.
           destruct (Horder a _ ca ct Ha Hat Hca Hct) as [H1 H2].
           assert (Ht0 : 0 < length (heap st) - 1) by lia.
           specialize (Hstart _ ct Ht0 Hct). lia.
      * specialize (Hstart a ca Ha Hca). lia.
    + (* both are old *)
      destruct Hea as [[Hea Hnot] | (Hlen1 & Hl & Hea)].
      * rewrite Hea. exact (Horder a b ca cb Ha Hab Hca Hcb).
      * apply Hlast in Hl. lia.
  - intros a c2 H2.
    destruct (L a c2 Hp Hplt H2)
      as [(-> & _ & _ & _ & He) | (Ha' & c & Hc & _ & _ & He & _)].
    + lia.
    + destruct He as [[He _] | (_ & _ & He)]; rewrite He; [eapply Hend; eauto | lia].
Qed.

Lemma parser_inv_scan doc rest :
  forall pre st,
    sum_list (map (fun l => length l + 1) (pre ++ rest)) = length doc + 1 ->
    parser_inv doc (sum_list (map (fun l => length l + 1) pre)) st ->
    parser_inv doc (length doc + 1) (scan doc (pre ++ rest) (length pre) rest st).
Proof.
  induction rest as [|line rest IH]; intros pre st Htot Hinv.
  - simpl. rewrite app_nil_r in Htot. rewrite <- Htot. exact Hinv.
  - cbn [scan].
    replace (pre ++ line :: rest) with ((pre ++ [line]) ++ rest) in *
      by (rewrite <- app_assoc; reflexivity).
    replace (S (length pre)) with (length (pre ++ [line]))
      by (rewrite length_app; simpl; lia).
    apply IH; [exact Htot|].
    pose proof (sum_lines_app_le pre line rest) as Hle.
    replace (pre ++ line :: rest) with ((pre ++ [line]) ++ rest) in Hle
      by (rewrite <- app_assoc; reflexivity).
    rewrite Htot in Hle.
    assert (Hsum : sum_list (map (fun l : text => length l + 1) (pre ++ [line]))
                   = sum_list (map (fun l : text => length l + 1) pre) + length line + 1).
    { rewrite map_app, sum_list_with_app. simpl. unfold id. lia. }
    rewrite Hsum.
    unfold visit_line.
    destruct (heading_of line) as [[lvl ttl]|] eqn:Hh.
    + replace ((pre ++ [line]) ++ rest) with (pre ++ line :: rest)
        by (rewrite <- app_assoc; reflexivity).
      rewrite char_pos_of_app.
      apply heading_of_level in Hh.
      apply parser_inv_open; [exact Hinv | lia | lia].
    + eapply parser_inv_mono; [exact Hinv | lia].
Qed.

Lemma parse_heap_inv doc filename : tree_inv doc (parse_heap doc filename).
Proof.
  unfold parse_heap.
  pose proof (parser_inv_scan doc (split_lines doc) [] (init_state doc filename)) as H.
  simpl in H. specialize (H (split_lines_total doc) (parser_inv_init doc filename)).
  set (st := scan doc (split_lines doc) 0 (split_lines doc) (init_state doc filename)) in *.
  destruct H as [Hshape Htop Hstack Hkids Hstart Horder Hend].
  pose proof (close_top_lookup doc (length doc) st) as L.
  constructor.
  - intros a c1 H1. rewrite close_top_length.
    destruct (L a c1 H1) as (c & Hc & Hk & _). rewrite Hk. eauto.
  - intros a b c1a c1b Ha Hab H1a H1b.
    destruct (L a c1a H1a) as (ca & Hca & _ & Hsa & _ & Hea).
    destruct (L b c1b H1b) as (cb & Hcb & _ & Hsb & _ & _).
    rewrite Hsa, Hsb.
    destruct Hea as [[-> _] | (_ & Hl & _)]; [eauto|].
    rewrite Htop in Hl. injection Hl as <-.
    apply lookup_lt_Some in Hcb. lia.
  - intros a c1 H1.
    destruct (L a c1 H1) as (c & Hc & _ & _ & _ & He).
    destruct He as [[-> _] | (_ & _ & He)]; [eauto | lia].
Qed.

(** C1, counterexample to the claim as stated.  For the text of a heading
    line ["# A"] and a line ["x"] the root spans [[0, 5)] and its only
    child [[4, 5)]: offset 0 is in the range of the parent and in the
    range of no child. *)
Lemma siblings_do_not_cover_parent :
  ~ siblings_partition_parent (parse_heap doc_one_heading []).
Proof.
  intros H.
  destruct (H 0 (mkCell (mkData 0 0 default_title [] None None 0 5) [1]))
    as [Hcover _].
  - vm_compute. reflexivity.
  - discriminate.
  - destruct (proj1 (Hcover 0)) as (k & c & Hk & Hc & Hr).
    + unfold in_range. simpl. lia.
    + simpl in Hk. destruct Hk as [<- | []].
      vm_compute in Hc. injection Hc as <-.
      unfold in_range in Hr. simpl in Hr. lia.
Qed.

(** *** The heap is a tree *)

Lemma tree_of_total (h : list Cell) :
  (forall a c, h !! a = Some c ->
               Forall (fun k => a < k < length h) (children c)) ->
  forall fuel a, a < length h -> length h - a <= fuel ->
                 is_Some (tree_of fuel h a).
Proof.
  intros Hkids. induction fuel as [|fuel IH]; intros a Ha Hf; [lia|].
  simpl. destruct (lookup_lt_is_Some_2 h a Ha) as [c Hc]. rewrite Hc.
  destruct (mapM (tree_of fuel h) (children c)) as [ks|] eqn:E; [eauto|].
  exfalso. apply mapM_None_1 in E. apply List.Exists_exists in E as (k & Hk & Hnone).
  specialize (Hkids a c Hc). rewrite List.Forall_forall in Hkids.
  specialize (Hkids k Hk).
  destruct (IH k) as [t Ht]; [lia | lia | congruence].
Qed.

(** [parse_markdown] returns the tree under the root object. *)
Lemma parse_tree_total doc filename :
  parse_tree doc filename = Some (parse_markdown doc filename).
Proof.
  unfold parse_markdown.
  destruct (parse_heap_inv doc filename) as [Hkids _ _].
  assert (Hlen : 0 < length (parse_heap doc filename)).
  { unfold parse_heap. rewrite close_top_length.
    pose proof (parser_inv_scan doc (split_lines doc) [] (init_state doc filename)) as H.
    simpl in H. specialize (H (split_lines_total doc) (parser_inv_init doc filename)).
    destruct H as [Hshape _ _ _ _ _ _]. lia. }
  destruct (tree_of_total (parse_heap doc filename)
              (fun a c Hc => proj1 (Hkids a c Hc))
              (length (parse_heap doc filename)) 0 Hlen ltac:(lia)) as [t Ht].
  unfold parse_tree. rewrite Ht. reflexivity.
Qed.


(** *** The same on the returned tree *)

Lemma tree_of_root h fuel a t :
  tree_of fuel h a = Some t ->
  node_id t = a /\ exists c, h !! a = Some c /\ node_data t = data c.
Proof.
  destruct fuel as [|fuel]; simpl; [discriminate|].
  destruct (h !! a) as [c|]; [|discriminate].
  destruct (mapM _ _); [|discriminate].
  intros [= <-]. simpl. eauto.
Qed.

Lemma Forall2_In_r {A B} (P : A -> B -> Prop) l l' y :
  Forall2 P l l' -> In y l' -> exists x, In x l /\ P x y.
Proof.
  induction 1 as [|a b l l' Hab HF IH]; simpl; [tauto|].
  intros [<- | Hy]; [eauto|].
  destruct (IH Hy) as (x & Hx & Hp). eauto.
Qed.

(** Every node of the tree is a cell of the heap, with the same children
    in the same order. *)
Lemma tree_of_nodes h fuel :
  forall a t, tree_of fuel h a = Some t ->
  forall n, In n (nodes_of t) ->
  exists c,
    h !! node_id n = Some c /\ node_data n = data c /\
    Forall2 (fun k kid => node_id kid = k /\
                          exists ck, h !! k = Some ck /\ node_data kid = data ck)
            (children c) (node_children n).
Proof.
  induction fuel as [|fuel IH]; intros a t Ht n Hn; simpl in Ht; [discriminate|].
  destruct (h !! a) as [c|] eqn:Hc; [|discriminate].
  destruct (mapM (tree_of fuel h) (children c)) as [ks|] eqn:Hks; [|discriminate].
  injection Ht as <-. apply mapM_Some_1 in Hks.
  simpl in Hn. destruct Hn as [<- | Hn].
  - exists c. simpl. split; [exact Hc|]. split; [reflexivity|].
    eapply Forall2_impl; [exact Hks|]. simpl. intros k kid Hk.
    apply tree_of_root in Hk. exact Hk.
  - apply in_flat_map in Hn as (kid & Hkid & Hn).
    destruct (Forall2_In_r _ _ _ _ Hks Hkid) as (k & _ & Hk).
    exact (IH k kid Hk n Hn).
Qed.

Lemma sorted_Forall2 {A B} (R : A -> A -> Prop) (S : B -> B -> Prop)
    (P : A -> B -> Prop) (l : list A) (l' : list B) :
  Forall2 P l l' ->
  StronglySorted R l ->
  (forall a1 a2 b1 b2, R a1 a2 -> P a1 b1 -> P a2 b2 -> S b1 b2) ->
  StronglySorted S l'.
Proof.
  intros HF HS HRS. induction HF as [|a b l l' Hab HF IH]; [constructor|].
  apply StronglySorted_inv in HS as [HS Ha].
  constructor; [apply IH, HS|].
  clear IH HS. induction HF as [|a2 b2 l l' Hab2 HF IH]; constructor.
  - apply List.Forall_cons_iff in Ha as [Ha _]. eapply HRS; eauto.
  - apply IH. apply List.Forall_cons_iff in Ha as [_ Ha]. exact Ha.
Qed.

Lemma sorted_with {A} (R : A -> A -> Prop) (Q : A -> Prop) l :
  StronglySorted R l -> Forall Q l ->
  StronglySorted (fun a b => Q a /\ R a b) l.
Proof.
  induction 1 as [|x l Hs IH Hx]; intros HQ; [constructor|].
  apply List.Forall_cons_iff in HQ as [Hqx HQ].
  constructor; [apply IH, HQ|].
  eapply List.Forall_impl; [|exact Hx]. simpl. auto.
Qed.

(** In the tree returned by [parse_markdown] the children of every node
    come in document order with disjoint ranges, and the children of a
    node other than the root start after the range of the node. *)
Lemma parse_markdown_siblings_ordered doc filename n :
  In n (nodes_of (parse_markdown doc filename)) ->
  StronglySorted ends_before (node_children n) /\
  (node_id n <> 0 ->
   Forall (fun k => char_end (node_data n) < char_start (node_data k))
          (node_children n)).
Proof.
  intros Hn.
  pose proof (parse_tree_total doc filename) as Ht. unfold parse_tree in Ht.
  destruct (tree_of_nodes _ _ _ _ Ht n Hn) as (c & Hc & Hd & HF).
  destruct (parse_heap_inv doc filename) as [Hkids Horder _].
  destruct (Hkids _ _ Hc) as [Hlt Hsorted].
  split.
  - eapply sorted_Forall2;
      [exact HF | exact (sorted_with _ _ _ Hsorted Hlt) |].
    simpl. intros k1 k2 x1 x2 [Hk1 Hk12] (E1 & c1 & Hc1 & Hd1) (E2 & c2 & Hc2 & Hd2).
    unfold ends_before. rewrite Hd1, Hd2.
    apply (Horder k1 k2 c1 c2); [lia | exact Hk12 | exact Hc1 | exact Hc2].
  - intros Hroot. rewrite Hd.
    clear Hsorted. induction HF as [|k kid ks kids Hk HF IH]; constructor.
    + destruct Hk as (E & ck & Hck & Hdk). rewrite Hdk.
      apply List.Forall_cons_iff in Hlt as [Hlt _].
      apply (Horder (node_id n) k c ck); [lia | lia | exact Hc | exact Hck].
    + apply IH. apply List.Forall_cons_iff in Hlt as [_ Hlt]. exact Hlt.
Qed.

Example outline_tree_ranges :
  map (fun n => (node_id n, char_start (node_data n), char_end (node_data n),
                 map node_id (node_children n)))
      (nodes_of (parse_markdown doc_outline []))
  = [(0, 0, 35, [1; 3]); (1, 10, 16, [2]); (2, 21, 26, []); (3, 30, 35, [])].
Proof. vm_compute. reflexivity. Qed.

(** *** The pop rule *)

(** On a stack that holds one node per depth ([aligned]: no heading has
    skipped a level so far) popping while the stack is longer than the
    depth [lvl] of the heading leaves on top a node of depth below [lvl];
    the new node becomes its last child and starts right after the
    heading line, and it is the only node created. *)
Lemma open_heading_pop_rule doc P line lvl ttl st :
  parser_inv doc P st -> aligned st -> 1 <= lvl ->
  exists parent cp cp' new,
    last (take lvl (stack st)) = Some parent /\
    heap st !! parent = Some cp /\
    level (data cp) < lvl /\
    stack (open_heading doc P line lvl ttl st)
      = take lvl (stack st) ++ [length (heap st)] /\
    heap (open_heading doc P line lvl ttl st) !! parent = Some cp' /\
    children cp' = children cp ++ [length (heap st)] /\
    heap (open_heading doc P line lvl ttl st) !! length (heap st) = Some new /\
    level (data new) = lvl /\
    char_start (data new) = P + length line + 1 /\
    length (heap (open_heading doc P line lvl ttl st)) = S (length (heap st)).
Proof.
  intros Hinv Hal Hlvl.
  assert (Hne : stack st <> []).
  { intros E. destruct (inv_shape _ _ _ Hinv) as [[H _] | [H _]];
      rewrite E in H; simpl in H; lia. }
  destruct (take_last_exists (stack st) lvl Hne Hlvl) as (parent & Hp & Hin).
  pose proof (inv_stack _ _ _ Hinv _ Hin) as Hplt.
  destruct (lookup_lt_is_Some_2 _ _ Hplt) as [cp Hcp].
  assert (Hp1 : is_Some (heap (close_top doc P st) !! parent)).
  { apply lookup_lt_is_Some_2. rewrite close_top_length. exact Hplt. }
  destruct Hp1 as [c1 Hc1].
  destruct (close_top_lookup _ _ _ _ _ Hc1) as (c & Hc & Hk & _).
  assert (c = cp) by congruence. subst c.
  exists parent, cp, (add_child (length (heap st)) c1).
  eexists.
  split; [exact Hp|]. split; [exact Hcp|]. split.
  { rewrite last_lookup in Hp.
    apply lookup_take_Some in Hp as [Hp Hlt].
    rewrite (Hal _ _ _ Hp Hcp). exact Hlt. }
  rewrite (open_heading_eq _ _ _ _ _ _ _ Hp). simpl.
  split; [reflexivity|]. split.
  { rewrite lookup_app_l by (rewrite length_alter, close_top_length; exact Hplt).
    rewrite list_lookup_alter_eq, Hc1. reflexivity. }
  split; [simpl; rewrite Hk; reflexivity|]. split.
  { rewrite lookup_app_r by (rewrite length_alter, close_top_length; lia).
    rewrite length_alter, close_top_length, Nat.sub_diag. reflexivity. }
  simpl. split; [reflexivity|]. split; [reflexivity|].
  rewrite length_app, length_alter, close_top_length. simpl. lia.
Qed.

(** C3. The text ["# A"], ["### C"], ["### D"].  When the third line is
    read the stack is [[root, A, C]], of depths 0, 1 and 3.  The heading
    has depth 3; the stack is not longer than 3, so nothing is popped
    although the top, C, has depth 3 and not less: D (node 3) is pushed
    on top of C and becomes a child of C (node 2), not of A (node 1).
    The last line lists [level] and [children] of the four nodes of the
    final heap. *)
Theorem skipped_level_misplaces_sibling :
  let lines := split_lines doc_skipped_level in
  let before := scan doc_skipped_level lines 0 (take 2 lines)
                     (init_state doc_skipped_level []) in
  let after := scan doc_skipped_level lines 0 lines
                    (init_state doc_skipped_level []) in
  stack before = [0; 1; 2] /\
  omap (fun a => option_map (fun c => level (data c)) (heap before !! a))
       (stack before) = [0; 1; 3] /\
  heading_of (text_of_string "### D") = Some (3, [68%N]) /\
  stack after = [0; 1; 2; 3] /\
  map (fun c => (level (data c), children c)) (parse_heap doc_skipped_level [])
  = [(0, [1]); (1, [2]); (3, [3]); (3, [])].
Proof. vm_compute. repeat split; reflexivity. Qed.

(** The assertions of [test_parse_markdown]. *)
Example test_parse_markdown :
  let root := parse_markdown test_content test_filename in
  title (node_data root) = test_filename /\
  length (node_children root) = 1 /\
  option_map (fun n => title (node_data n)) (head (node_children root))
    = Some test_chapter_title /\
  option_map (fun n => length (node_children n)) (head (node_children root))
    = Some 1.
Proof. vm_compute. repeat split; reflexivity. Qed.

(** ** The traversal *)

(** Induction on a tree with the hypothesis for every child. *)
Lemma DocNode_tree_ind (P : DocNode -> Prop) :
  (forall id d kids, Forall P kids -> P (Node id d kids)) ->
  forall n, P n.
Proof.
  intros step.
  fix IH 1.
  intros [id d kids].
  apply step.
  induction kids as [|k kids IHk]; constructor.
  - apply IH.
  - exact IHk.
Qed.

Lemma node_chunks_stamp cs ov id d path c :
  In c (node_chunks cs ov id d path) ->
  nonempty (strip (content d)) = true /\
  chunk_node_id c = id /\
  chunk_char_start c = char_start d /\
  chunk_char_end c = char_end d /\
  In (chunk_content c) (_smart_split (content d) cs ov).
Proof.
  unfold node_chunks.
  destruct (nonempty (content d)); simpl; [|tauto].
  destruct (nonempty (strip (content d))); simpl; [|tauto].
  rewrite in_map_iff. intros (piece & <- & Hin). simpl. auto.
Qed.

Lemma traverse_stamp cs ov n :
  forall path c, In c (traverse cs ov n path) ->
  exists m, In m (nodes_of n) /\
    nonempty (strip (content (node_data m))) = true /\
    chunk_node_id c = node_id m /\
    chunk_char_start c = char_start (node_data m) /\
    chunk_char_end c = char_end (node_data m) /\
    In (chunk_content c) (_smart_split (content (node_data m)) cs ov).
Proof.
  induction n as [id d kids IH] using DocNode_tree_ind.
  intros path c Hc. simpl in Hc.
  apply in_app_or in Hc as [Hc | Hc].
  - exists (Node id d kids). split; [simpl; auto|].
    simpl. eapply node_chunks_stamp; eauto.
  - apply in_flat_map in Hc as (k & Hk & Hc).
    rewrite List.Forall_forall in IH.
    destruct (IH k Hk _ _ Hc) as (m & Hm & Hrest).
    exists m. split; [|exact Hrest].
    simpl. right. apply in_flat_map. eauto.
Qed.

(** C10. Every chunk that [get_all_chunks] emits belongs to a node of the
    tree with non-blank content and records as [char_start] and [char_end]
    the [char_start] and [char_end] of that node itself: all the chunks
    of one node carry the same range, the whole range of the node, and
    the offsets say nothing of where the chunk lies inside it. *)
Theorem get_all_chunks_node_range (root : DocNode) (chunk_size overlap : Z)
    (c : Chunk) :
  In c (get_all_chunks root chunk_size overlap) ->
  exists n, In n (nodes_of root) /\
    nonempty (strip (content (node_data n))) = true /\
    chunk_node_id c = node_id n /\
    chunk_char_start c = char_start (node_data n) /\
    chunk_char_end c = char_end (node_data n) /\
    In (chunk_content c) (_smart_split (content (node_data n)) chunk_size overlap).
Proof.
  unfold get_all_chunks. apply traverse_stamp.
Qed.

(** C10, witness: the first chunk of [doc_outline], the body of the
    chapter ["# A"]; the node spans [[10, 16)]. *)
Lemma get_all_chunks_node_range_witness :
  exists n,
    In n (nodes_of (parse_markdown doc_outline [])) /\
    nonempty (strip (content (node_data n))) = true /\
    chunk_node_id (nth 0 (get_all_chunks (parse_markdown doc_outline []) 400 50)
                         (mkChunk [] 0 [] 0 0 0)) = node_id n /\
    chunk_char_start (nth 0 (get_all_chunks (parse_markdown doc_outline []) 400 50)
                            (mkChunk [] 0 [] 0 0 0)) = char_start (node_data n) /\
    chunk_char_end (nth 0 (get_all_chunks (parse_markdown doc_outline []) 400 50)
                          (mkChunk [] 0 [] 0 0 0)) = char_end (node_data n) /\
    In (chunk_content (nth 0 (get_all_chunks (parse_markdown doc_outline []) 400 50)
                             (mkChunk [] 0 [] 0 0 0)))
       (_smart_split (content (node_data n)) 400 50).
Proof.
  apply (get_all_chunks_node_range (parse_markdown doc_outline []) 400 50).
  vm_compute. left. reflexivity.
Defined.

Example outline_chunk_ranges :
  map (fun c => (chunk_node_id c, chunk_char_start c, chunk_char_end c))
      (get_all_chunks (parse_markdown doc_outline []) 400 50)
  = [(1, 10, 16); (2, 21, 26); (3, 30, 35)].
Proof. vm_compute. reflexivity. Qed.

(** ** The segmentation primitive *)

Lemma solid_app a b : solid (a ++ b) = solid a ++ solid b.
Proof. unfold solid. apply List.filter_app. Qed.

Lemma solid_lstrip s : solid (lstrip s) = solid s.
Proof.
  induction s as [|c s IH]; simpl; [reflexivity|].
  destruct (is_space c) eqn:E; simpl; rewrite ?E; simpl; congruence.
Qed.

Lemma solid_rev s : solid (rev s) = rev (solid s).
Proof.
  induction s as [|c s IH]; simpl; [reflexivity|].
  rewrite solid_app, IH. simpl.
  destruct (is_space c); simpl; [apply app_nil_r | reflexivity].
Qed.

Lemma solid_strip s : solid (strip s) = solid s.
Proof.
  unfold strip, rstrip.
  rewrite solid_rev, solid_lstrip, solid_rev, rev_involutive.
  apply solid_lstrip.
Qed.

Lemma solid_nil_lstrip s : solid s = [] -> lstrip s = [].
Proof.
  induction s as [|c s IH]; simpl; [reflexivity|].
  destruct (is_space c); simpl; [exact IH | discriminate].
Qed.

Lemma strip_nil_iff s : strip s = [] <-> solid s = [].
Proof.
  split.
  - intros H. rewrite <- solid_strip, H. reflexivity.
  - intros H. unfold strip, rstrip.
    rewrite (solid_nil_lstrip s H). reflexivity.
Qed.

Lemma nonempty_true (s : text) : nonempty s = true <-> s <> [].
Proof. destruct s; simpl; split; congruence. Qed.

Lemma nonempty_false (s : text) : nonempty s = false <-> s = [].
Proof. destruct s; simpl; split; congruence. Qed.

Lemma length_overlap_text cur ov : length (overlap_text cur ov) <= Z.to_nat ov.
Proof.
  unfold overlap_text. destruct (0 <? ov)%Z; simpl; [|lia].
  rewrite length_drop. lia.
Qed.

(** The two nested loops are one loop over the units. *)
Lemma fold_add_sentence cs ov l st :
  fold_left (add_sentence cs ov) l st =
  fold_left (add_unit cs ov) (map (pair Sentence) l) st.
Proof.
  revert st. induction l as [|x l IH]; intros st; simpl; [reflexivity|].
  apply IH.
Qed.

Lemma add_para_units cs ov st para0 :
  add_para cs ov st para0 = fold_left (add_unit cs ov) (units_of_para cs para0) st.
Proof.
  unfold add_para, units_of_para.
  destruct (nonempty (strip para0)); [|reflexivity].
  destruct (Z.of_nat (length (strip para0)) >? cs)%Z; [|reflexivity].
  apply fold_add_sentence.
Qed.

Lemma fold_add_para cs ov ps st :
  fold_left (add_para cs ov) ps st =
  fold_left (add_unit cs ov) (flat_map (units_of_para cs) ps) st.
Proof.
  revert st. induction ps as [|p ps IH]; intros st; simpl; [reflexivity|].
  rewrite fold_left_app, <- add_para_units. apply IH.
Qed.

Lemma smart_split_units content cs ov :
  _smart_split content cs ov =
  finish (fold_left (add_unit cs ov) (units_of content cs) (mkS [] [] 0)).
Proof. unfold _smart_split, units_of. rewrite fold_add_para. reflexivity. Qed.

(** Chunks are only ever appended. *)
Lemma add_unit_chunks cs ov st u c :
  In c (chunks st) -> In c (chunks (add_unit cs ov st u)).
Proof.
  intros H. unfold add_unit, add_sentence, add_short_para, emit_and_seed.
  destruct (fst u);
    match goal with |- context [if ?b then _ else _] => destruct b end;
    simpl; auto; apply in_or_app; auto.
Qed.

Lemma fold_add_unit_chunks cs ov l st c :
  In c (chunks st) -> In c (chunks (fold_left (add_unit cs ov) l st)).
Proof.
  revert st. induction l as [|u l IH]; intros st H; simpl; [exact H|].
  apply IH, add_unit_chunks, H.
Qed.

Lemma finish_chunks st c : In c (chunks st) -> In c (finish st).
Proof.
  intros H. unfold finish. destruct (nonempty _); [|exact H].
  apply in_or_app. auto.
Qed.

Lemma finish_buffer st :
  strip (current_chunk st) <> [] -> In (strip (current_chunk st)) (finish st).
Proof.
  intros H. unfold finish. apply nonempty_true in H. rewrite H.
  apply in_or_app. right. left. reflexivity.
Qed.

(** An oversized unit starts a buffer of its own, after the seed. *)
Lemma add_unit_oversized cs ov st k (u : text) :
  (Z.of_nat (length u) > cs)%Z ->
  exists seed : text,
    length seed <= Z.to_nat ov /\
    current_chunk (add_unit cs ov st (k, u)) = seed ++ u /\
    (Z.of_nat (current_size (add_unit cs ov st (k, u))) > cs)%Z.
Proof.
  intros Hu. unfold add_unit, add_sentence, add_short_para, emit_and_seed. simpl.
  destruct k.
  - assert (E : (Z.of_nat (current_size st + length u) >? cs)%Z = true)
      by (apply Z.gtb_lt; lia).
    rewrite E. simpl. destruct (nonempty (current_chunk st)) eqn:N; simpl.
    + exists (overlap_text (current_chunk st) ov).
      split; [apply length_overlap_text|]. split; [reflexivity|].
      rewrite length_app. lia.
    + apply nonempty_false in N. rewrite N. exists []. simpl.
      split; [lia|]. split; [reflexivity|]. lia.
  - assert (E : (Z.of_nat (current_size st + length u + 2) >? cs)%Z = true)
      by (apply Z.gtb_lt; lia).
    rewrite E. simpl. destruct (nonempty (current_chunk st)) eqn:N; simpl.
    + exists (overlap_text (current_chunk st) ov).
      split; [apply length_overlap_text|]. split; [reflexivity|].
      rewrite length_app. lia.
    + exists []. simpl. split; [lia|]. split; [reflexivity|]. lia.
Qed.

(** A buffer that is over [chunk_size] is emitted by the next unit,
    whatever that unit is. *)
Lemma add_unit_flushes cs ov st v :
  (Z.of_nat (current_size st) > cs)%Z -> current_chunk st <> [] ->
  In (strip (current_chunk st)) (chunks (add_unit cs ov st v)).
Proof.
  intros Hs Hne. apply nonempty_true in Hne.
  unfold add_unit, add_sentence, add_short_para, emit_and_seed.
  destruct (fst v); rewrite Hne.
  - assert (E : (Z.of_nat (current_size st + length (snd v)) >? cs)%Z = true)
      by (apply Z.gtb_lt; lia).
    rewrite E. simpl. apply in_or_app. right. left. reflexivity.
  - assert (E : (Z.of_nat (current_size st + length (snd v) + 2) >? cs)%Z = true)
      by (apply Z.gtb_lt; lia).
    rewrite E. simpl. apply in_or_app. right. left. reflexivity.
Qed.

(** C9. A unit of the text (a paragraph, or a sentence of a paragraph
    that was split) that is longer than [chunk_size] and holds at least
    one character that is not white space is emitted in one chunk, in
    full and alone: the chunk is [strip (seed ++ u)], where [seed] is the
    overlap seed taken from the end of the previous buffer (at most
    [overlap] characters, none for the first unit).  Nothing is cut to
    [chunk_size] or to any other bound, and [_smart_split] is a total
    function: it returns for every input. *)
Theorem oversized_unit_emitted_whole (content : text) (chunk_size overlap : Z)
    (k : unit_kind) (u : text) :
  In (k, u) (units_of content chunk_size) ->
  (Z.of_nat (length u) > chunk_size)%Z ->
  strip u <> [] ->
  exists seed : text,
    length seed <= Z.to_nat overlap /\
    In (strip (seed ++ u)) (_smart_split content chunk_size overlap).
Proof.
  intros Hin Hlen Hsolid.
  rewrite smart_split_units.
  apply in_split in Hin as (l1 & l2 & ->).
  rewrite fold_left_app. cbn [fold_left].
  set (st1 := fold_left (add_unit chunk_size overlap) l1 (mkS [] [] 0)).
  destruct (add_unit_oversized chunk_size overlap st1 k u Hlen)
    as (seed & Hseed & Hbuf & Hsize).
  exists seed. split; [exact Hseed|].
  assert (Hne : strip (seed ++ u) <> []).
  { rewrite strip_nil_iff, solid_app. rewrite strip_nil_iff in Hsolid.
    intros H. apply app_eq_nil in H as [_ H]. auto. }
  destruct l2 as [|v l2]; cbn [fold_left].
  - rewrite <- Hbuf. apply finish_buffer. rewrite Hbuf. exact Hne.
  - apply finish_chunks, fold_add_unit_chunks.
    rewrite <- Hbuf. apply add_unit_flushes; [exact Hsize|].
    rewrite Hbuf. intros H. rewrite H in Hne. apply Hne. reflexivity.
Qed.

(** C9, witness: a sentence of 901 characters with [chunk_size = 400]
    (and more than the [max_chunk_size = 800] of the design). *)
Lemma oversized_unit_emitted_whole_witness :
  exists seed : text,
    length seed <= Z.to_nat 50 /\
    In (strip (seed ++ long_sentence)) (_smart_split long_text 400 50).
Proof.
  apply (oversized_unit_emitted_whole long_text 400 50 Sentence long_sentence).
  - vm_compute. left. reflexivity.
  - vm_compute. reflexivity.
  - vm_compute. discriminate.
Defined.

Example long_sentence_chunks :
  _smart_split long_text 400 50 =
  [long_sentence; drop 851 long_sentence ++ text_of_string "end"].
Proof. vm_compute. reflexivity. Qed.

(** *** Paragraph splitting *)

Lemma gtb_false (a b : Z) : (a <= b)%Z -> (a >? b)%Z = false.
Proof. intros H. rewrite Z.gtb_ltb. apply Z.ltb_ge. exact H. Qed.

Lemma gtb_true (a b : Z) : (a > b)%Z -> (a >? b)%Z = true.
Proof. intros H. rewrite Z.gtb_ltb. apply Z.ltb_lt. lia. Qed.

Lemma blank_tail_length s r : blank_tail s = Some r -> length r < length s.
Proof.
  revert r. induction s as [|c s IH]; intros r; simpl; [discriminate|].
  destruct (is_space c); [|discriminate].
  destruct (blank_tail s) as [r'|].
  - intros [= <-]. specialize (IH r' eq_refl). lia.
  - destruct (c =? NL)%N; [|discriminate]. intros [= <-]. lia.
Qed.

Lemma match_blank_length s r : match_blank s = Some r -> S (length r) < length s.
Proof.
  destruct s as [|c s]; simpl; [discriminate|].
  destruct (c =? NL)%N; [|discriminate].
  intros H. apply blank_tail_length in H. lia.
Qed.

(** [length s] steps are enough: more fuel changes nothing. *)
Lemma split_blank_fuel fuel s :
  length s <= fuel -> split_blank fuel s = split_blank (length s) s.
Proof.
  revert s. induction fuel as [fuel IH] using lt_wf_ind. intros s Hlen.
  destruct s as [|c s]; [destruct fuel; reflexivity|].
  destruct fuel as [|fuel]; [simpl in Hlen; lia|].
  cbn [length split_blank].
  destruct (match_blank (c :: s)) as [r|] eqn:E.
  - apply match_blank_length in E as E'. simpl in E', Hlen.
    rewrite (IH fuel) by lia. rewrite (IH (length s)) by lia. reflexivity.
  - simpl in Hlen. rewrite (IH fuel) by lia. reflexivity.
Qed.

Lemma split_blank_no_newline fuel s :
  ~ In NL s -> length s <= fuel -> split_blank fuel s = [s].
Proof.
  revert s. induction fuel as [|fuel IH]; intros s Hnl Hlen.
  - destruct s; [reflexivity | simpl in Hlen; lia].
  - destruct s as [|c s]; [reflexivity|].
    cbn [split_blank match_blank].
    destruct (c =? NL)%N eqn:E.
    + apply N.eqb_eq in E. exfalso. apply Hnl. left. auto.
    + rewrite IH; [reflexivity | | simpl in Hlen; lia].
      intros H. apply Hnl. right. exact H.
Qed.

Lemma split_blank_two fuel p1 c p2 :
  ~ In NL p1 -> ~ In NL (c :: p2) -> is_space c = false ->
  length (p1 ++ PARA_SEP ++ c :: p2) <= fuel ->
  split_blank fuel (p1 ++ PARA_SEP ++ c :: p2) = [p1; c :: p2].
Proof.
  unfold PARA_SEP.
  revert fuel. induction p1 as [|a p1 IH]; intros fuel H1 H2 Hc Hlen.
  - destruct fuel as [|fuel]; [simpl in Hlen; lia|].
    simpl. rewrite Hc.
    rewrite split_blank_no_newline; [reflexivity | exact H2|].
    simpl in Hlen |- *. lia.
  - destruct fuel as [|fuel]; [simpl in Hlen; lia|].
    cbn [app split_blank match_blank].
    destruct (a =? NL)%N eqn:E.
    + apply N.eqb_eq in E. exfalso. apply H1. left. auto.
    + rewrite IH; [reflexivity | | exact H2 | exact Hc | simpl in Hlen |- *; lia].
      intros H. apply H1. right. exact H.
Qed.

Lemma strip_id_head c (p : text) : strip (c :: p) = c :: p -> is_space c = false.
Proof.
  intros H. destruct (is_space c) eqn:E; [|reflexivity]. exfalso.
  assert (L : length (strip (c :: p)) <= length p).
  { unfold strip, rstrip. simpl. rewrite E.
    rewrite length_rev.
    assert (G : forall s, length (lstrip s) <= length s).
    { induction s as [|x s IHs]; simpl; [lia|]. destruct (is_space x); simpl; lia. }
    etransitivity; [apply G|]. rewrite length_rev. apply G. }
  rewrite H in L. simpl in L. lia.
Qed.

(** Two paragraphs [p1] and [p2] without newline or outer white space,
    each at most [chunk_size] long and together (with the two characters
    of the separator) longer than [chunk_size]: the chunks are [p1]
    itself and [p2] after the overlap seed taken from [p1]. *)
Lemma two_paragraphs_split (p1 p2 : text) (chunk_size overlap : Z) :
  ~ In NL p1 -> ~ In NL p2 ->
  p1 <> [] -> p2 <> [] ->
  strip p1 = p1 -> strip p2 = p2 ->
  (Z.of_nat (length p1) <= chunk_size)%Z ->
  (Z.of_nat (length p2) <= chunk_size)%Z ->
  (Z.of_nat (length p1 + length p2 + 2) > chunk_size)%Z ->
  _smart_split (p1 ++ PARA_SEP ++ p2) chunk_size overlap =
  [p1; strip (overlap_text p1 overlap ++ p2)].
Proof.
  intros N1 N2 E1 E2 S1 S2 L1 L2 L12.
  destruct p2 as [|c p2]; [congruence|].
  pose proof (strip_id_head c p2 S2) as Hc.
  unfold _smart_split, paragraphs.
  rewrite split_blank_two by (auto; lia).
  cbn [fold_left]. unfold add_para. rewrite S1, S2.
  apply nonempty_true in E1 as NE1. rewrite NE1.
  rewrite !gtb_false by lia.
  cbn [nonempty].
  unfold add_short_para at 2. cbn [current_chunk current_size nonempty].
  rewrite andb_false_r. cbn [chunks].
  unfold add_short_para. cbn [current_chunk current_size chunks].
  rewrite NE1.
  rewrite gtb_true by lia.
  cbn [andb]. unfold emit_and_seed, finish.
  cbn [current_chunk current_size chunks app].
  rewrite S1.
  assert (NE : nonempty (strip (overlap_text p1 overlap ++ c :: p2)) = true).
  { apply nonempty_true. rewrite strip_nil_iff, solid_app. simpl. rewrite Hc.
    simpl. intros H. apply app_eq_nil in H as [_ H]. discriminate. }
  rewrite NE. reflexivity.
Qed.

(** *** The rule of the loop *)

(** A unit that does not fit behind a buffer that is not empty takes the
    branch that emits the buffer. *)
Lemma add_unit_emits cs ov st (u : unit_kind * text) :
  current_chunk st <> [] ->
  (Z.of_nat (current_size st + length (snd u)
             + match fst u with Paragraph => 2 | Sentence => 0 end) > cs)%Z ->
  add_unit cs ov st u = emit_and_seed ov (snd u) st.
Proof.
  intros Hne Hbig. apply nonempty_true in Hne.
  unfold add_unit, add_sentence, add_short_para.
  destruct (fst u); rewrite Hne, gtb_true by lia; reflexivity.
Qed.

(** Chunks are appended, never changed. *)
Lemma add_unit_prefix cs ov st u :
  chunks st `prefix_of` chunks (add_unit cs ov st u).
Proof.
  unfold add_unit, add_sentence, add_short_para, emit_and_seed.
  destruct (fst u);
    match goal with |- context [if ?b then _ else _] => destruct b end;
    simpl; try reflexivity; apply prefix_app_r; reflexivity.
Qed.

Lemma fold_add_unit_prefix cs ov l st :
  chunks st `prefix_of` chunks (fold_left (add_unit cs ov) l st).
Proof.
  revert st. induction l as [|u l IH]; intros st; simpl; [reflexivity|].
  etransitivity; [apply add_unit_prefix | apply IH].
Qed.

Lemma finish_prefix st : chunks st `prefix_of` finish st.
Proof.
  unfold finish. destruct (nonempty _); [apply prefix_app_r|]; reflexivity.
Qed.

(** The chunks after some of the units are the first chunks of the
    result. *)
Lemma units_prefix content cs ov l1 l2 :
  units_of content cs = l1 ++ l2 ->
  chunks (fold_left (add_unit cs ov) l1 (mkS [] [] 0))
    `prefix_of` _smart_split content cs ov.
Proof.
  intros E. rewrite smart_split_units, E, fold_left_app.
  etransitivity; [apply fold_add_unit_prefix | apply finish_prefix].
Qed.

(** C4 (as amended). [_smart_split] has no [min_chunk_size] and merges
    nothing forward.  For every input, at every unit [u] of the content
    (a stripped paragraph of at most [chunk_size] characters, or a
    sentence of a longer one) that comes when the buffer [current_chunk]
    is not empty and [current_size + len(u)] (plus 2 for a paragraph) is
    over [chunk_size], the buffer is emitted as it stands, however short:
    its [strip()] is the next chunk of the result, and the new buffer is
    the overlap tail of the old one followed by [u].  The chunks emitted
    up to any unit are the first chunks of the result: none is changed or
    merged later.  In particular, for two paragraphs [p1] and [p2]
    without newline or outer white space, each at most [chunk_size] long
    and together (with the two characters of the separator) longer than
    [chunk_size], the chunks are [p1] itself, however short, and [p2]
    after the overlap seed taken from [p1]. *)
Theorem smart_split_never_merges (chunk_size overlap : Z) :
  (forall (content : text) l1 (u : unit_kind * text) l2,
      units_of content chunk_size = l1 ++ u :: l2 ->
      let st := fold_left (add_unit chunk_size overlap) l1 (mkS [] [] 0) in
      current_chunk st <> [] ->
      (Z.of_nat (current_size st + length (snd u)
                 + match fst u with Paragraph => 2 | Sentence => 0 end)
       > chunk_size)%Z ->
      _smart_split content chunk_size overlap !! length (chunks st)
        = Some (strip (current_chunk st)) /\
      current_chunk (add_unit chunk_size overlap st u)
        = overlap_text (current_chunk st) overlap ++ snd u)
  /\
  (forall (content : text) l1 l2,
      units_of content chunk_size = l1 ++ l2 ->
      chunks (fold_left (add_unit chunk_size overlap) l1 (mkS [] [] 0))
        `prefix_of` _smart_split content chunk_size overlap)
  /\
  (forall p1 p2 : text,
      ~ In NL p1 -> ~ In NL p2 ->
      p1 <> [] -> p2 <> [] ->
      strip p1 = p1 -> strip p2 = p2 ->
      (Z.of_nat (length p1) <= chunk_size)%Z ->
      (Z.of_nat (length p2) <= chunk_size)%Z ->
      (Z.of_nat (length p1 + length p2 + 2) > chunk_size)%Z ->
      _smart_split (p1 ++ PARA_SEP ++ p2) chunk_size overlap =
      [p1; strip (overlap_text p1 overlap ++ p2)]).
Proof.
  split; [|split].
  - intros content l1 u l2 E st Hne Hbig.
    pose proof (add_unit_emits chunk_size overlap st u Hne Hbig) as Hemit.
    split; [|rewrite Hemit; reflexivity].
    destruct (units_prefix content chunk_size overlap (l1 ++ [u]) l2) as [k Hk].
    { rewrite <- app_assoc. exact E. }
    rewrite fold_left_app in Hk. cbn [fold_left] in Hk. fold st in Hk.
    rewrite Hemit in Hk. cbn [emit_and_seed chunks] in Hk.
    rewrite Hk, <- app_assoc. apply list_lookup_middle. reflexivity.
  - intros content l1 l2 E. exact (units_prefix content chunk_size overlap l1 l2 E).
  - intros p1 p2. apply two_paragraphs_split.
Qed.

(** C4, witness: the paragraph "short" before a paragraph of 400
    characters, with the default [chunk_size = 400] and [overlap = 50].
    The second paragraph comes when the buffer holds "short", and
    "short" is the first chunk. *)
Lemma smart_split_never_merges_witness :
  _smart_split short_then_long 400 50 !! 0 = Some (text_of_string "short") /\
  _smart_split short_then_long 400 50 =
  [text_of_string "short";
   strip (overlap_text (text_of_string "short") 50 ++ repeat 98%N 400)].
Proof.
  destruct (smart_split_never_merges 400 50) as (Hrule & _ & Htwo).
  split.
  - refine (proj1 (Hrule short_then_long
                     [(Paragraph, text_of_string "short")]
                     (Paragraph, repeat 98%N 400) [] _ _ _)).
    + vm_compute. reflexivity.
    + vm_compute. discriminate.
    + vm_compute. reflexivity.
  - apply (Htwo (text_of_string "short") (repeat 98%N 400)).
    + vm_compute. intuition discriminate.
    + intros H. apply repeat_spec in H. discriminate.
    + discriminate.
    + discriminate.
    + vm_compute. reflexivity.
    + vm_compute. reflexivity.
    + vm_compute. discriminate.
    + vm_compute. discriminate.
    + vm_compute. reflexivity.
Defined.

(** C4, counterexample to the claim as stated: with the defaults of the
    design ([chunk_size = 400], [overlap = 50], [min_chunk_size = 120])
    the first of the two chunks of [short_then_long] is 5 characters
    long. *)
Lemma short_chunk_not_merged :
  ~ min_size_respected 120 (_smart_split short_then_long 400 50).
Proof.
  unfold min_size_respected.
  replace (removelast (_smart_split short_then_long 400 50))
    with [text_of_string "short"] by (vm_compute; reflexivity).
  intros H. apply Forall_inv in H. simpl in H. lia.
Qed.

(** *** Reconstruction up to white space *)

Lemma sentences_of_cons c s :
  sentences_of (c :: s) =
  if is_delim c then [c] :: sentences_of s
  else match sentences_of s with
       | h :: t => (c :: h) :: t
       | [] => [[c]]
       end.
Proof.
  unfold sentences_of. simpl.
  destruct (is_delim c).
  - destruct (split_delims s) as [|x l]; reflexivity.
  - destruct (split_delims s) as [|x [|y [|z l]]]; reflexivity.
Qed.

Lemma concat_sentences_of s : concat (sentences_of s) = s.
Proof.
  induction s as [|c s IH]; [reflexivity|].
  rewrite sentences_of_cons.
  destruct (is_delim c).
  - simpl. congruence.
  - destruct (sentences_of s) as [|h t]; simpl in *; congruence.
Qed.

Lemma solid_blank_tail s r : blank_tail s = Some r -> solid r = solid s.
Proof.
  revert r. induction s as [|c s IH]; intros r; simpl; [discriminate|].
  destruct (is_space c) eqn:E; [|discriminate]. simpl.
  destruct (blank_tail s) as [r'|].
  - intros [= <-]. apply IH. reflexivity.
  - destruct (c =? NL)%N; [|discriminate]. intros [= <-]. reflexivity.
Qed.

Lemma solid_match_blank s r : match_blank s = Some r -> solid r = solid s.
Proof.
  destruct s as [|c s]; simpl; [discriminate|].
  destruct (c =? NL)%N eqn:E; [|discriminate].
  apply N.eqb_eq in E. subst c. simpl. apply solid_blank_tail.
Qed.

Lemma solid_split_blank fuel s : solid (concat (split_blank fuel s)) = solid s.
Proof.
  revert s. induction fuel as [|fuel IH]; intros s.
  - simpl. rewrite app_nil_r. reflexivity.
  - destruct s as [|c s]; [reflexivity|].
    cbn [split_blank].
    destruct (match_blank (c :: s)) as [r|] eqn:E.
    + change (concat ([] :: split_blank fuel r)) with (concat (split_blank fuel r)).
      rewrite IH. apply solid_match_blank, E.
    + specialize (IH s).
      destruct (split_blank fuel s) as [|p ps]; simpl in *.
      * destruct (is_space c); simpl; congruence.
      * destruct (is_space c); simpl; congruence.
Qed.

Lemma solid_concat_flat_map {A} (f : A -> list (unit_kind * text)) (g : A -> text) l :
  (forall x, solid (concat (map snd (f x))) = solid (g x)) ->
  solid (concat (map snd (flat_map f l))) = solid (concat (map g l)).
Proof.
  intros H. induction l as [|x l IH]; simpl; [reflexivity|].
  rewrite map_app, concat_app, !solid_app, H, IH. reflexivity.
Qed.

Lemma solid_units_of_para cs p :
  solid (concat (map snd (units_of_para cs p))) = solid p.
Proof.
  unfold units_of_para.
  destruct (nonempty (strip p)) eqn:N.
  - destruct (Z.of_nat (length (strip p)) >? cs)%Z.
    + rewrite map_map. simpl. rewrite map_id, concat_sentences_of.
      apply solid_strip.
    + simpl. rewrite app_nil_r. apply solid_strip.
  - apply nonempty_false in N. apply strip_nil_iff in N. rewrite N. reflexivity.
Qed.

Lemma solid_units_of content cs :
  solid (concat (map snd (units_of content cs))) = solid content.
Proof.
  unfold units_of.
  rewrite (solid_concat_flat_map _ (fun p => p)) by apply solid_units_of_para.
  rewrite map_id. apply solid_split_blank.
Qed.

Lemma t_add_unit_in_step cs ov st ts u :
  in_step st ts -> in_step (add_unit cs ov st u) (t_add_unit cs ov ts u).
Proof.
  intros (Hc & Hb & Hs).
  unfold add_unit, t_add_unit, add_sentence, add_short_para, emit_and_seed, t_emit.
  rewrite Hs, Hb.
  destruct (fst u);
    match goal with |- context [if ?b then _ else _] => destruct b eqn:E end;
    unfold in_step; cbn [chunks current_chunk current_size done seed body tsize].
  - rewrite Hc, map_app. simpl. unfold erase at 2. simpl. auto.
  - rewrite app_assoc. auto.
  - rewrite Hc, map_app. simpl. unfold erase at 2. simpl. auto.
  - destruct (nonempty (seed ts ++ body ts)) eqn:N.
    + rewrite <- app_assoc. auto.
    + apply nonempty_false in N. apply app_eq_nil in N as [N1 N2].
      rewrite N1. auto.
Qed.

Lemma fold_in_step cs ov l st ts :
  in_step st ts ->
  in_step (fold_left (add_unit cs ov) l st) (fold_left (t_add_unit cs ov) l ts).
Proof.
  revert st ts. induction l as [|u l IH]; intros st ts H; simpl; [exact H|].
  apply IH, t_add_unit_in_step, H.
Qed.

Lemma split_traced_erase content cs ov :
  map erase (split_traced content cs ov) = _smart_split content cs ov.
Proof.
  rewrite smart_split_units. unfold split_traced.
  assert (H0 : in_step (mkS [] [] 0) (mkT [] [] [] 0)) by (repeat split).
  destruct (fold_in_step cs ov (units_of content cs) _ _ H0) as (Hc & Hb & _).
  unfold finish, t_finish. rewrite Hb, Hc.
  destruct (nonempty _); [|reflexivity].
  rewrite map_app. reflexivity.
Qed.

(** What the bodies add up to. *)
Lemma t_add_unit_bodies cs ov ts u :
  solid (concat (map snd (done (t_add_unit cs ov ts u))) ++ body (t_add_unit cs ov ts u))
  = solid (concat (map snd (done ts)) ++ body ts) ++ solid (snd u).
Proof.
  unfold t_add_unit, t_emit.
  destruct (fst u);
    match goal with |- context [if ?b then _ else _] => destruct b end;
    cbn [done seed body].
  - rewrite map_app, concat_app. simpl.
    rewrite ?app_nil_r, ?solid_app, <- ?app_assoc. reflexivity.
  - rewrite ?solid_app, <- ?app_assoc. reflexivity.
  - rewrite map_app, concat_app. simpl.
    rewrite ?app_nil_r, ?solid_app, <- ?app_assoc. reflexivity.
  - destruct (nonempty (seed ts ++ body ts)) eqn:N.
    + rewrite ?solid_app, <- ?app_assoc. reflexivity.
    + apply nonempty_false in N. apply app_eq_nil in N as [_ N2].
      rewrite N2, ?solid_app, ?app_nil_r. reflexivity.
Qed.

Lemma fold_bodies cs ov l ts :
  let ts' := fold_left (t_add_unit cs ov) l ts in
  solid (concat (map snd (done ts')) ++ body ts')
  = solid (concat (map snd (done ts)) ++ body ts) ++ solid (concat (map snd l)).
Proof.
  revert ts. induction l as [|u l IH]; intros ts; cbn zeta in *.
  - simpl. rewrite app_nil_r. reflexivity.
  - cbn [fold_left map concat]. rewrite IH, t_add_unit_bodies.
    rewrite ?solid_app, <- ?app_assoc. reflexivity.
Qed.

(** The seeds form a chain. *)
Lemma chained_app ov prev l1 l2 :
  chained ov prev (l1 ++ l2) <->
  chained ov prev l1 /\
  chained ov (match last l1 with
              | Some (s, b) => Some (s ++ b)
              | None => prev
              end) l2.
Proof.
  revert prev. induction l1 as [|[s b] l1 IH]; intros prev.
  - simpl. tauto.
  - cbn [app chained]. rewrite IH. destruct l1 as [|p l1].
    + simpl. tauto.
    + change (last ((s, b) :: p :: l1)) with (last (p :: l1)).
      destruct (last (p :: l1)) as [[s' b']|] eqn:L; [tauto|].
      apply last_None in L. discriminate.
Qed.

Lemma t_add_unit_chain cs ov ts u :
  open_chain ov ts -> open_chain ov (t_add_unit cs ov ts u).
Proof.
  unfold open_chain, t_add_unit, t_emit. intros H.
  destruct (fst u);
    match goal with |- context [if ?b then _ else _] => destruct b end;
    cbn [done seed body]; try exact H.
  all: apply chained_app in H as [H1 H2]; simpl in H2; destruct H2 as [H2 _].
  all: rewrite chained_app; split;
    [ apply chained_app; split; [exact H1 | simpl; auto]
    | rewrite last_snoc; simpl; auto ].
Qed.

Lemma fold_chain cs ov l ts :
  open_chain ov ts -> open_chain ov (fold_left (t_add_unit cs ov) l ts).
Proof.
  revert ts. induction l as [|u l IH]; intros ts H; simpl; [exact H|].
  apply IH, t_add_unit_chain, H.
Qed.

(** C7 (as amended). [_smart_split] rewrites white space: it strips the
    paragraphs and the chunks and replaces every paragraph separator.
    Each emitted chunk is [strip (seed ++ body)], where the seeds are
    the overlap texts of the buffers before them ([chained]) and the
    bodies, concatenated in order, hold the characters of the input that
    are not white space, all of them and in the same order. *)
Theorem smart_split_reconstructs_solid (content : text) (chunk_size overlap : Z) :
  map erase (split_traced content chunk_size overlap)
  = _smart_split content chunk_size overlap /\
  chained overlap None (split_traced content chunk_size overlap) /\
  solid (concat (map snd (split_traced content chunk_size overlap)))
  = solid content.
Proof.
  split; [apply split_traced_erase|]. split.
  - unfold split_traced.
    assert (H0 : open_chain overlap (mkT [] [] [] 0)) by (unfold open_chain; simpl; auto).
    pose proof (fold_chain chunk_size overlap (units_of content chunk_size) _ H0) as H.
    set (ts := fold_left _ _ _) in *.
    unfold open_chain in H. apply chained_app in H as [H1 H2].
    unfold t_finish. destruct (nonempty _); [|exact H1].
    apply chained_app. split; [exact H1|].
    simpl in H2 |- *. tauto.
  - unfold split_traced.
    pose proof (fold_bodies chunk_size overlap (units_of content chunk_size)
                  (mkT [] [] [] 0)) as H.
    simpl in H. rewrite solid_units_of in H.
    set (ts := fold_left _ _ _) in *.
    unfold t_finish. destruct (nonempty (strip (seed ts ++ body ts))) eqn:N.
    + rewrite map_app, concat_app. simpl. rewrite app_nil_r. exact H.
    + apply nonempty_false, strip_nil_iff in N.
      rewrite solid_app in N. apply app_eq_nil in N as [_ N].
      rewrite solid_app, N, app_nil_r in H. exact H.
Qed.

(** C7, counterexample to the claim as stated: the text made of [" a"],
    three newlines and ["b "] comes back as one chunk, without the outer
    spaces and with a separator of two newlines; a single chunk has no
    overlap prefix to trim. *)
Lemma reconstruction_not_exact :
  let content := text_of_string (" a" ++ LF ++ LF ++ LF ++ "b ") in
  _smart_split content 400 50 = [text_of_string ("a" ++ LF ++ LF ++ "b")] /\
  trim_overlaps 50 (_smart_split content 400 50) <> content.
Proof.
  split; [vm_compute; reflexivity|].
  vm_compute. discriminate.
Qed.

(** ** Indexing and the store *)

Lemma adds_nodes_refl s : adds_nodes s s.
Proof. repeat split; reflexivity. Qed.

Lemma adds_nodes_trans s1 s2 s3 :
  adds_nodes s1 s2 -> adds_nodes s2 s3 -> adds_nodes s1 s3.
Proof.
  intros (A1 & A2 & A3 & A4) (B1 & B2 & B3 & B4).
  repeat split; try congruence. etransitivity; eassumption.
Qed.

Lemma adds_chunks_refl s : adds_chunks s s.
Proof. repeat split; reflexivity. Qed.

Lemma adds_chunks_trans s1 s2 s3 :
  adds_chunks s1 s2 -> adds_chunks s2 s3 -> adds_chunks s1 s3.
Proof.
  intros (A1 & A2 & A3 & A4) (B1 & B2 & B3 & B4).
  repeat split; try congruence; etransitivity; eassumption.
Qed.

Section Frames.
Variable R : db -> db -> Prop.
Hypothesis R_refl : forall s, R s s.
Hypothesis R_trans : forall s1 s2 s3, R s1 s2 -> R s2 s3 -> R s1 s3.

Lemma keeps_ret {A} (a : A) : keeps R (ret a).
Proof. intros s. apply R_refl. Qed.

Lemma keeps_bind {A B} (m : M A) (k : A -> M B) :
  keeps R m -> (forall a, keeps R (k a)) -> keeps R (bind m k).
Proof.
  intros Hm Hk s. unfold bind. specialize (Hm s).
  destruct (m s) as [s' [a|e]]; simpl in *; [|exact Hm].
  eapply R_trans; [exact Hm | apply Hk].
Qed.

Lemma keeps_save_each (save : DocNode -> nat -> M nat) ks :
  Forall (fun child => forall i, keeps R (save child i)) ks ->
  forall i count, keeps R (save_each save ks i count).
Proof.
  induction 1 as [|child ks Hc Hks IH]; intros i count; simpl.
  - apply keeps_ret.
  - apply keeps_bind; [apply Hc|]. intros c. apply IH.
Qed.
End Frames.

Lemma keeps_fresh_uuid_nodes : keeps adds_nodes fresh_uuid.
Proof. intros s. repeat split; reflexivity. Qed.

Lemma keeps_fresh_uuid_chunks : keeps adds_chunks fresh_uuid.
Proof. intros s. repeat split; reflexivity. Qed.

Lemma keeps_insert_node tid parent lvl idx ttl cs ce summ prev :
  keeps adds_nodes (insert_node tid parent lvl idx ttl cs ce summ prev).
Proof.
  unfold insert_node.
  apply keeps_bind; [apply adds_nodes_trans | apply keeps_fresh_uuid_nodes |].
  intros id s. destruct (existsb _ _); simpl; [apply adds_nodes_refl|].
  repeat split; try reflexivity. simpl. apply prefix_app_r. reflexivity.
Qed.

Lemma keeps_save_nodes node :
  forall tid parent lvl idx, keeps adds_nodes (_save_nodes tid node parent lvl idx).
Proof.
  induction node as [id d kids IH] using DocNode_tree_ind.
  intros tid parent lvl idx. simpl.
  apply keeps_bind; [apply adds_nodes_trans | apply keeps_insert_node |].
  intros db_id.
  apply keeps_save_each; [apply adds_nodes_refl | apply adds_nodes_trans |].
  eapply List.Forall_impl; [|exact IH]. simpl. intros child H i. apply H.
Qed.

Lemma keeps_insert_chunk doc idx body0 meta nid :
  keeps adds_chunks (insert_chunk doc idx body0 meta nid).
Proof.
  unfold insert_chunk.
  apply keeps_bind; [apply adds_chunks_trans | apply keeps_fresh_uuid_chunks |].
  intros id s. destruct (existsb _ _); simpl; [apply adds_chunks_refl|].
  repeat split; try reflexivity. simpl. apply prefix_app_r. reflexivity.
Qed.

Lemma keeps_insert_embedding cid v model :
  keeps adds_chunks (insert_embedding cid v model).
Proof.
  intros s. repeat split; try reflexivity. simpl. apply prefix_app_r. reflexivity.
Qed.

Lemma keeps_save_chunks doc model registry cs :
  forall i, keeps adds_chunks (save_chunks doc model registry i cs).
Proof.
  induction cs as [|chunk cs IH]; intros i; simpl.
  - apply keeps_ret, adds_chunks_refl.
  - apply keeps_bind; [apply adds_chunks_trans | apply keeps_insert_chunk |].
    intros cid.
    apply keeps_bind; [apply adds_chunks_trans | |].
    + destruct registry; [apply keeps_insert_embedding|].
      apply keeps_ret, adds_chunks_refl.
    + intros _. apply IH.
Qed.

Lemma map_update_fresh count tid (T : list TreeRow) :
  existsb (fun r => tree_id r =? tid) T = false ->
  map (fun r => if tree_id r =? tid
                then mkTree (tree_id r) (tree_document_id r) (tree_title r) count
                else r) T = T.
Proof.
  induction T as [|r T IH]; simpl; [reflexivity|].
  intros H. apply orb_false_elim in H as [H1 H2].
  rewrite H1, IH by exact H2. reflexivity.
Qed.

(** The statements of [build_index], one after the other. *)
Lemma build_index_steps doc body filename model registry s :
  build_index doc body filename model registry s =
  let root := parse_markdown body filename in
  let cks := get_all_chunks root 400 50 in
  let tid := next_uuid s in
  let s1 := mkDb (doc_trees s) (doc_nodes s) (document_chunks s)
                 (chunk_embeddings s) (S (next_uuid s)) in
  if existsb (fun r => tree_id r =? tid) (doc_trees s)
  then (s1, Raised (UniqueViolation "doc_trees_pkey"))
  else
    let s2 := mkDb (doc_trees s ++ [mkTree tid doc filename 0]) (doc_nodes s)
                   (document_chunks s) (chunk_embeddings s) (S (next_uuid s)) in
    match _save_nodes tid root None 0 0 s2 with
    | (s3, Raised e) => (s3, Raised e)
    | (s3, Done count) =>
        let s4 := mkDb (map (fun r => if tree_id r =? tid
                                      then mkTree (tree_id r) (tree_document_id r)
                                                  (tree_title r) count
                                      else r) (doc_trees s3))
                       (doc_nodes s3) (document_chunks s3) (chunk_embeddings s3)
                       (next_uuid s3) in
        match save_chunks doc model registry 0 cks s4 with
        | (s5, Raised e) => (s5, Raised e)
        | (s5, Done _) => (s5, Done (mkResult tid count (length cks)))
        end
    end.
Proof.
  unfold build_index, bind, fresh_uuid, insert_tree, update_total_nodes, ret.
  cbv zeta. cbn [doc_trees doc_nodes document_chunks chunk_embeddings next_uuid].
  destruct (existsb _ (doc_trees s)); [reflexivity|].
  destruct (_save_nodes _ _ _ _ _ _) as [s3 [count|e]]; [|reflexivity].
  destruct (save_chunks _ _ _ _ _ _) as [s5 [u|e]]; reflexivity.
Qed.

(** C2, counterexample to the claim as stated.  The first indexing of
    [doc_outline] under the id 7 returns; the second one inserts a second
    tree and a second set of nodes, deletes nothing, and then raises on
    the first chunk. *)
Lemma reindex_not_idempotent :
  ~ reindex_replaces 7 doc_outline [102%N] [109%N] None empty_db.
Proof.
  intros ([res H] & _). vm_compute in H. discriminate.
Qed.

Example reindex_twice :
  let s1 := fst (build_index 7 doc_outline [102%N] [109%N] None empty_db) in
  let r2 := build_index 7 doc_outline [102%N] [109%N] None s1 in
  snd (build_index 7 doc_outline [102%N] [109%N] None empty_db)
    = Done (mkResult 0 4 3) /\
  snd r2 = Raised (UniqueViolation "uk_chunk_document_index") /\
  length (trees_for 7 s1) = 1 /\
  length (trees_for 7 (fst r2)) = 2 /\
  length (doc_nodes s1) = 4 /\
  length (doc_nodes (fst r2)) = 8 /\
  chunks_for 7 (fst r2) = chunks_for 7 s1.
Proof. vm_compute. repeat split; reflexivity. Qed.

(** ** Hybrid retrieval *)

Lemma node_scores_fold (l : list NodeHit) (m : gmap nat Q) (id : nat) :
  match foldl (fun m n => <[hit_node_id n := hit_score n]> m) m l !! id with
  | Some sc => m !! id = Some sc \/
               exists n, In n l /\ hit_node_id n = id /\ hit_score n = sc
  | None => m !! id = None /\ forall n, In n l -> hit_node_id n <> id
  end.
Proof.
  revert m. induction l as [|n l IH]; intros m; simpl.
  - destruct (m !! id); [left; reflexivity|]. split; [reflexivity|]. intros n [].
  - specialize (IH (<[hit_node_id n := hit_score n]> m)).
    destruct (foldl _ _ l !! id) as [sc|].
    + destruct IH as [H | (n' & Hin & Hid & Hsc)].
      * destruct (decide (hit_node_id n = id)) as [E | NE].
        -- rewrite E, lookup_insert_eq in H. injection H as <-.
           right. exists n. auto.
        -- rewrite lookup_insert_ne in H by exact NE. auto.
      * right. exists n'. auto.
    + destruct IH as [H Hall].
      destruct (decide (hit_node_id n = id)) as [E | NE].
      * rewrite E, lookup_insert_eq in H. discriminate.
      * rewrite lookup_insert_ne in H by exact NE.
        split; [exact H|]. intros n' [<- | Hin]; auto.
Qed.

(** The routing lookup holds exactly the node ids of [relevant_nodes]. *)
Lemma node_scores_lookup (l : list NodeHit) (id : nat) :
  match node_scores_of l !! id with
  | Some sc => exists n, In n l /\ hit_node_id n = id /\ hit_score n = sc
  | None => forall n, In n l -> hit_node_id n <> id
  end.
Proof.
  unfold node_scores_of.
  pose proof (node_scores_fold l ∅ id) as H.
  destruct (foldl _ _ l !! id).
  - destruct H as [H | H]; [|exact H]. rewrite lookup_empty in H. discriminate.
  - apply H.
Qed.

Section RetrievalFacts.
Variable cosine_distance : vector -> vector -> Q.
Local Open Scope Q_scope.

Lemma fuse_score m c :
  score (fuse m c) = Qmin (vector_score (fuse m c) + node_boost (fuse m c)) 1.
Proof. reflexivity. Qed.

Lemma fuse_score_le_1 m c : score (fuse m c) <= 1.
Proof. rewrite fuse_score. apply Q.le_min_r. Qed.

Lemma hybrid_search_in query q top_k min_score ids s r :
  In r (hybrid_search cosine_distance query q top_k min_score ids s) ->
  exists c,
    In c (chunk_sql cosine_distance q min_score (top_k * 2) s) /\
    r = fuse (node_scores_of (node_sql cosine_distance q s)) c.
Proof.
  unfold hybrid_search. intros H.
  apply in_take in H. apply in_order_by in H.
  apply in_map_iff in H as (c & <- & Hc). eauto.
Qed.

(** Descending [score] is ascending [- score]. *)
Lemma hybrid_search_sorted query q top_k min_score ids s :
  StronglySorted (fun a b => score b <= score a)
    (hybrid_search cosine_distance query q top_k min_score ids s).
Proof.
  unfold hybrid_search. apply sorted_take.
  eapply StronglySorted_impl; [|apply order_by_sorted].
  intros a b Hab. unfold key_le in Hab.
  apply Qopp_le_compat in Hab. rewrite !Qopp_involutive in Hab. exact Hab.
Qed.

(** C5 (as amended). Every entry [r] of the result of [hybrid_search]
    comes from a fetched chunk [c]; its [node_boost] is the routing score
    of the node of [c] times [BOOST_WEIGHT = 0.3] when the node id of [c]
    is among the (at most ten) rows of the node routing query, and [0]
    otherwise; its [score] is [min(vector_score + node_boost, 1)].  If
    moreover [vector_score] is [1] and the boost is not negative, the
    score is [1], no entry has a higher score, and only entries that
    score [1] as well come before [r]. *)
Theorem fusion_score query q top_k min_score ids s r :
  In r (hybrid_search cosine_distance query q top_k min_score ids s) ->
  (exists c,
      In c (chunk_sql cosine_distance q min_score (top_k * 2) s) /\
      r_chunk_id r = c_chunk_id c /\
      vector_score r = c_vector_score c /\
      ((exists id n, c_node_id c = Some id /\
                     In n (node_sql cosine_distance q s) /\
                     hit_node_id n = id /\
                     node_boost r = hit_score n * BOOST_WEIGHT)
       \/ (node_boost r = 0 /\
           forall id n, c_node_id c = Some id ->
                        In n (node_sql cosine_distance q s) ->
                        hit_node_id n <> id)))
  /\ score r = Qmin (vector_score r + node_boost r) 1
  /\ (vector_score r == 1 -> 0 <= node_boost r ->
      score r == 1 /\
      forall r',
        In r' (hybrid_search cosine_distance query q top_k min_score ids s) ->
        score r' <= score r /\
        (before r' r (hybrid_search cosine_distance query q top_k min_score ids s) ->
         score r' == 1)).
Proof.
  intros Hr.
  destruct (hybrid_search_in _ _ _ _ _ _ _ Hr) as (c & Hc & ->).
  split; [|split].
  - exists c. split; [exact Hc|]. split; [reflexivity|]. split; [reflexivity|].
    unfold fuse; simpl.
    destruct (c_node_id c) as [id|]; [|right; split; [reflexivity | discriminate]].
    pose proof (node_scores_lookup (node_sql cosine_distance q s) id) as L.
    destruct (node_scores_of _ !! id) as [sc|].
    + destruct L as (n & Hn & Hid & Hsc). left. exists id, n.
      rewrite Hsc. auto.
    + right. split; [reflexivity|]. intros id' n [= <-] Hn. apply L, Hn.
  - reflexivity.
  - intros Hv Hb.
    assert (Hone : score (fuse (node_scores_of (node_sql cosine_distance q s)) c) == 1).
    { rewrite fuse_score. apply Q.min_r. rewrite Hv.
      rewrite <- (Qplus_0_r 1) at 1. apply Qplus_le_r. exact Hb. }
    split; [exact Hone|]. intros r' Hr'.
    destruct (hybrid_search_in _ _ _ _ _ _ _ Hr') as (c' & _ & ->).
    split.
    + rewrite Hone. apply fuse_score_le_1.
    + intros Hbefore. apply Qle_antisym; [apply fuse_score_le_1|].
      rewrite <- Hone.
      exact (sorted_before_rel _ _ _ _ (hybrid_search_sorted _ _ _ _ _ _) Hbefore).
Qed.

End RetrievalFacts.

(** C5, witness of the amended statement: the exact match of [db_tie]. *)
Lemma fusion_score_witness :
  In (nth 0 tie_results no_result) tie_results /\
  (score (nth 0 tie_results no_result) == 1)%Q.
Proof.
  assert (Hin : In (nth 0 tie_results no_result) tie_results)
    by (vm_compute; left; reflexivity).
  split; [exact Hin|].
  destruct (fusion_score unit_distance [] east 5 (1 # 2)%Q None db_tie _ Hin)
    as (_ & _ & H).
  destruct H as [H _]; [| |exact H].
  - vm_compute. reflexivity.
  - vm_compute. discriminate.
Defined.

(** C5, counterexample to the claim as stated.  In [db_far_node] chunk 1
    matches the query exactly ([vector_score = 1]) and its node, 50, is in
    the routing lookup, with the routing score [-4/5]: the boost is
    negative, the final score is [19/25] and not [1], and the chunk is
    ranked second, behind chunk 2. *)
Lemma exact_match_far_node_not_first :
  exists r c n,
    nth_error far_results 1 = Some r /\
    In c (chunk_sql unit_distance east (1 # 2)%Q (5 * 2) db_far_node) /\
    r_chunk_id r = c_chunk_id c /\
    (vector_score r == 1)%Q /\
    In n (node_sql unit_distance east db_far_node) /\
    c_node_id c = Some (hit_node_id n) /\
    (node_boost r == hit_score n * BOOST_WEIGHT)%Q /\
    ~ (score r == 1)%Q /\
    (score r == 19 # 25)%Q /\
    map r_chunk_id far_results = [2; 1].
Proof.
  exists (nth 1 far_results no_result).
  exists (nth 0 (chunk_sql unit_distance east (1 # 2)%Q (5 * 2) db_far_node)
                (mkChunkHit 0 0 [] (mkMeta None None) None None None 0)).
  exists (nth 0 (node_sql unit_distance east db_far_node)
                (mkNodeHit 0 [] 0 None 0)).
  repeat split; try (vm_compute; reflexivity).
  - vm_compute. left. reflexivity.
  - vm_compute. left. reflexivity.
  - intros H. vm_compute in H. discriminate.
Qed.

Section ChunkSqlFacts.
Variable cosine_distance : vector -> vector -> Q.

(** What holds of the candidates and of the result: at most
    [top_k * 2] candidates, each at or above the threshold, and at most
    [top_k] results. *)
Lemma chunk_sql_bounds q min_score limit s :
  length (chunk_sql cosine_distance q min_score limit s) <= limit /\
  forall c, In c (chunk_sql cosine_distance q min_score limit s) ->
            (min_score <= c_vector_score c)%Q.
Proof.
  unfold chunk_sql. split.
  - rewrite length_take. lia.
  - intros c Hc. apply in_take in Hc. apply in_order_by in Hc.
    apply list_elem_of_In in Hc. apply list_elem_of_filter in Hc as [Hc _].
    apply Qle_bool_iff. exact Hc.
Qed.

Lemma hybrid_search_length query q top_k min_score ids s :
  length (hybrid_search cosine_distance query q top_k min_score ids s) <= top_k.
Proof. unfold hybrid_search. rewrite length_take. lia. Qed.

(** The result is the same for every [document_ids]. *)
Lemma hybrid_search_any_document_ids query q top_k min_score ids ids' s :
  hybrid_search cosine_distance query q top_k min_score ids s =
  hybrid_search cosine_distance query q top_k min_score ids' s.
Proof. reflexivity. Qed.

End ChunkSqlFacts.

(** C6. [hybrid_search] called with [document_ids = [1]] on [db_far_node]
    returns, and ranks first, the chunk of document 2: the list of
    document ids restricts nothing. *)
Theorem hybrid_search_ignores_document_ids :
  map r_document_id
      (hybrid_search unit_distance [] east 5 (1 # 2)%Q (Some [1]) db_far_node)
  = [2; 1].
Proof. vm_compute. reflexivity. Qed.

Section ResultOrder.
Variable cosine_distance : vector -> vector -> Q.
Local Open Scope Q_scope.

(** Candidates come in descending order of [vector_score]. *)
Lemma chunk_sql_sorted q min_score limit s :
  StronglySorted (fun a b => c_vector_score b <= c_vector_score a)
    (chunk_sql cosine_distance q min_score limit s).
Proof.
  unfold chunk_sql. apply sorted_take.
  eapply StronglySorted_impl; [|apply order_by_sorted].
  intros a b Hab. unfold key_le, Qminus in Hab.
  apply Qplus_le_r in Hab. apply Qopp_le_compat in Hab.
  rewrite !Qopp_involutive in Hab. exact Hab.
Qed.

(** C8 (as amended). The result of [hybrid_search] is in descending
    order of [score]; two entries with equal [score] come in the order
    in which the candidates were fetched, that is in descending order
    of [vector_score].  [chunk_index] plays no part. *)
Theorem hybrid_search_order query q top_k min_score ids s a b :
  StronglySorted (fun x y => score y <= score x)
    (hybrid_search cosine_distance query q top_k min_score ids s) /\
  (before a b (hybrid_search cosine_distance query q top_k min_score ids s) ->
   score a == score b ->
   vector_score b <= vector_score a).
Proof.
  split; [apply hybrid_search_sorted|].
  unfold hybrid_search. intros H E.
  apply before_take in H.
  apply order_by_stable in H; [|rewrite E; apply Qle_refl].
  apply before_map in H as (ca & cb & H & <- & <-).
  simpl.
  exact (sorted_before_rel _ _ _ _ (chunk_sql_sorted _ _ _ _) H).
Qed.

End ResultOrder.

(** C8, witness: the two entries of [tie_results]. *)
Lemma hybrid_search_order_witness :
  (vector_score (nth 1 tie_results no_result)
   <= vector_score (nth 0 tie_results no_result))%Q.
Proof.
  refine (proj2 (hybrid_search_order unit_distance [] east 5 (1 # 2)%Q None db_tie
                   (nth 0 tie_results no_result) (nth 1 tie_results no_result))
                _ _).
  - exists [], [], []. vm_compute. reflexivity.
  - vm_compute. reflexivity.
Defined.

(** C8, counterexample to the claim as stated.  The two entries of
    [tie_results] have the same final score [1]; the first one is the
    chunk stored with [chunk_index = 2], the second the chunk with
    [chunk_index = 1]. *)
Lemma tie_order_not_by_chunk_index :
  ~ (StronglySorted (fun x y => (score y <= score x)%Q) tie_results /\
     ties_by_chunk_index db_tie tie_results).
Proof.
  intros [_ H].
  specialize (H (nth 0 tie_results no_result) (nth 1 tie_results no_result) 2 1).
  assert (2 <= 1) as Habs; [|lia].
  apply H.
  - exists [], [], []. vm_compute. reflexivity.
  - vm_compute. reflexivity.
  - vm_compute. reflexivity.
  - vm_compute. reflexivity.
Qed.

(** * Further properties

    ** The segmentation primitive: trimming, blank input, sizes *)

Lemma length_lstrip s : length (lstrip s) <= length s.
Proof.
  induction s as [|c s IH]; simpl; [lia|].
  destruct (is_space c); simpl; lia.
Qed.

Lemma length_strip s : length (strip s) <= length s.
Proof.
  unfold strip, rstrip. rewrite length_rev.
  etransitivity; [apply length_lstrip|]. rewrite length_rev. apply length_lstrip.
Qed.

(** What [lstrip] returns does not start with white space. *)
Lemma lstrip_head s c r : lstrip s = c :: r -> is_space c = false.
Proof.
  induction s as [|x s IH]; simpl; [discriminate|].
  destruct (is_space x) eqn:E; [exact IH|].
  intros [= <- <-]. exact E.
Qed.

Lemma lstrip_idem s : lstrip (lstrip s) = lstrip s.
Proof.
  destruct (lstrip s) as [|c r] eqn:E; [reflexivity|].
  apply lstrip_head in E. simpl. rewrite E. reflexivity.
Qed.

Lemma lstrip_snoc l c : is_space c = false -> lstrip (l ++ [c]) = lstrip l ++ [c].
Proof.
  intros Hc. induction l as [|x l IH]; simpl.
  - rewrite Hc. reflexivity.
  - destruct (is_space x); [exact IH | reflexivity].
Qed.

Lemma rstrip_cons c s : is_space c = false -> rstrip (c :: s) = c :: rstrip s.
Proof.
  intros Hc. unfold rstrip. simpl.
  rewrite lstrip_snoc by exact Hc. rewrite rev_app_distr. reflexivity.
Qed.

Lemma rstrip_idem s : rstrip (rstrip s) = rstrip s.
Proof. unfold rstrip. rewrite rev_involutive, lstrip_idem. reflexivity. Qed.

(** [s.strip().strip() == s.strip()] *)
Lemma strip_idem s : strip (strip s) = strip s.
Proof.
  unfold strip.
  destruct (lstrip s) as [|c r] eqn:E; [reflexivity|].
  apply lstrip_head in E.
  rewrite (rstrip_cons c r E). simpl. rewrite E.
  rewrite (rstrip_cons c (rstrip r) E), rstrip_idem. reflexivity.
Qed.

Lemma add_unit_chunks_inv (P : text -> Prop) cs ov st u :
  (forall s, P (strip s)) ->
  Forall P (chunks st) -> Forall P (chunks (add_unit cs ov st u)).
Proof.
  intros HP H. unfold add_unit, add_sentence, add_short_para, emit_and_seed.
  destruct (fst u);
    match goal with |- context [if ?b then _ else _] => destruct b end;
    simpl; auto; apply List.Forall_app; split; auto.
Qed.

Lemma smart_split_inv (P : text -> Prop) content cs ov :
  (forall s, P (strip s)) -> Forall P (_smart_split content cs ov).
Proof.
  intros HP. rewrite smart_split_units.
  assert (H : forall l st, Forall P (chunks st) ->
                           Forall P (chunks (fold_left (add_unit cs ov) l st))).
  { induction l as [|u l IH]; intros st Hst; simpl; [exact Hst|].
    apply IH, add_unit_chunks_inv; assumption. }
  specialize (H (units_of content cs) (mkS [] [] 0) (List.Forall_nil _)).
  unfold finish. destruct (nonempty _); [|exact H].
  apply List.Forall_app. split; [exact H|]. constructor; [apply HP | constructor].
Qed.

(** X1. Every chunk that [_smart_split] returns went through [strip()]:
    stripping it once more changes nothing, and it neither starts nor
    ends with a white-space character. *)
Theorem smart_split_chunks_trimmed (content : text) (chunk_size overlap : Z) :
  Forall (fun c => strip c = c /\
                   (forall x r, c = x :: r -> is_space x = false) /\
                   (forall x r, c = r ++ [x] -> is_space x = false))
         (_smart_split content chunk_size overlap).
Proof.
  apply smart_split_inv. intros s. split; [apply strip_idem|]. split.
  - intros x r E. unfold strip in E.
    pose proof (strip_idem s) as H. unfold strip at 1 in H.
    fold (strip s) in E. rewrite E in H.
    eapply strip_id_head. unfold strip. exact H.
  - intros x r E. unfold strip, rstrip in E.
    apply (f_equal (@rev _)) in E. rewrite rev_involutive, rev_app_distr in E.
    simpl in E. eapply lstrip_head. exact E.
Qed.

Lemma solid_concat_nil (ps : list text) :
  solid (concat ps) = [] -> Forall (fun p => solid p = []) ps.
Proof.
  induction ps as [|p ps IH]; simpl; [constructor|].
  rewrite solid_app. intros H. apply app_eq_nil in H as [H1 H2].
  constructor; auto.
Qed.

Lemma units_of_blank content cs : solid content = [] -> units_of content cs = [].
Proof.
  intros H. unfold units_of, paragraphs.
  rewrite <- (solid_split_blank (length content) content) in H.
  apply solid_concat_nil in H.
  induction H as [|p ps Hp Hps IH]; simpl; [reflexivity|].
  rewrite IH, app_nil_r. unfold units_of_para.
  apply strip_nil_iff in Hp. rewrite Hp. reflexivity.
Qed.

(** X2. [_smart_split] returns no chunk exactly when the content holds
    nothing but white space (the empty string included), whatever
    [chunk_size] and [overlap] are. *)
Theorem smart_split_empty_iff (content : text) (chunk_size overlap : Z) :
  _smart_split content chunk_size overlap = [] <-> solid content = [].
Proof.
  split.
  - intros H. rewrite <- split_traced_erase in H.
    apply map_eq_nil in H. unfold split_traced in H.
    pose proof (fold_bodies chunk_size overlap (units_of content chunk_size)
                  (mkT [] [] [] 0)) as B.
    simpl in B. rewrite solid_units_of in B.
    set (ts := fold_left _ _ _) in *.
    unfold t_finish in H.
    destruct (nonempty (strip (seed ts ++ body ts))) eqn:N.
    + destruct (done ts); discriminate.
    + rewrite H in B. simpl in B. rewrite <- B.
      apply nonempty_false, strip_nil_iff in N.
      rewrite solid_app in N. apply app_eq_nil in N as [_ N]. exact N.
  - intros H. rewrite smart_split_units, units_of_blank by exact H.
    reflexivity.
Qed.

(** The loop keeps [current_size = len(current_chunk)], and a buffer grows
    past [chunk_size] only through its seed. *)
Lemma add_unit_bound cs ov st u :
  (Z.of_nat (length (snd u)) <= cs)%Z ->
  current_size st = length (current_chunk st) ->
  (Z.of_nat (length (current_chunk st)) <= cs + Z.max 0 ov)%Z ->
  Forall (fun c : text => (Z.of_nat (length c) <= cs + Z.max 0 ov)%Z) (chunks st) ->
  let st' := add_unit cs ov st u in
  current_size st' = length (current_chunk st') /\
  (Z.of_nat (length (current_chunk st')) <= cs + Z.max 0 ov)%Z /\
  Forall (fun c : text => (Z.of_nat (length c) <= cs + Z.max 0 ov)%Z) (chunks st').
Proof.
  intros Hu Hs Hc Hch. cbv zeta.
  pose proof (length_overlap_text (current_chunk st) ov) as Hov.
  pose proof (length_strip (current_chunk st)) as Hst.
  unfold add_unit, add_sentence, add_short_para, emit_and_seed.
  destruct (fst u).
  - destruct (Z.of_nat (current_size st + length (snd u)) >? cs)%Z eqn:E;
      destruct (nonempty (current_chunk st)) eqn:N; simpl.
    + split; [reflexivity|]. split; [rewrite length_app; lia|].
      apply List.Forall_app. split; [exact Hch|]. constructor; [lia | constructor].
    + apply nonempty_false in N. rewrite N in *. simpl in *.
      split; [lia|]. split; [lia | exact Hch].
    + rewrite Z.gtb_ltb in E. apply Z.ltb_ge in E.
      rewrite length_app. split; [lia|]. split; [lia | exact Hch].
    + rewrite Z.gtb_ltb in E. apply Z.ltb_ge in E.
      rewrite length_app. split; [lia|]. split; [lia | exact Hch].
  - destruct (Z.of_nat (current_size st + length (snd u) + 2) >? cs)%Z eqn:E;
      destruct (nonempty (current_chunk st)) eqn:N; simpl.
    + split; [reflexivity|]. split; [rewrite length_app; lia|].
      apply List.Forall_app. split; [exact Hch|]. constructor; [lia | constructor].
    + split; [reflexivity|]. split; [lia | exact Hch].
    + rewrite Z.gtb_ltb in E. apply Z.ltb_ge in E.
      split; [reflexivity|]. split; [|exact Hch].
      rewrite !length_app. unfold PARA_SEP. simpl. lia.
    + split; [reflexivity|]. split; [lia | exact Hch].
Qed.

(** X3. When every unit of the content fits in [chunk_size] (the short
    paragraphs do by definition, so this is about the sentences of the
    long ones), no chunk is longer than [chunk_size] plus the [overlap]
    characters of its seed. *)
Theorem smart_split_size_bound (content : text) (chunk_size overlap : Z) :
  Forall (fun u => (Z.of_nat (length (snd u)) <= chunk_size)%Z)
         (units_of content chunk_size) ->
  Forall (fun c : text => (Z.of_nat (length c) <= chunk_size + Z.max 0 overlap)%Z)
         (_smart_split content chunk_size overlap).
Proof.
  intros Hu. rewrite smart_split_units.
  assert (H : forall l st,
    Forall (fun u : unit_kind * text => (Z.of_nat (length (snd u)) <= chunk_size)%Z) l ->
    current_size st = length (current_chunk st) ->
    (Z.of_nat (length (current_chunk st)) <= chunk_size + Z.max 0 overlap)%Z ->
    Forall (fun c : text => (Z.of_nat (length c) <= chunk_size + Z.max 0 overlap)%Z)
           (chunks st) ->
    let st' := fold_left (add_unit chunk_size overlap) l st in
    (Z.of_nat (length (current_chunk st')) <= chunk_size + Z.max 0 overlap)%Z /\
    Forall (fun c : text => (Z.of_nat (length c) <= chunk_size + Z.max 0 overlap)%Z)
           (chunks st')).
  { induction l as [|u l IH]; intros st Hl Hs Hc Hch; cbn [fold_left]; [auto|].
    apply List.Forall_cons_iff in Hl as [Hu1 Hl].
    destruct (add_unit_bound chunk_size overlap st u Hu1 Hs Hc Hch) as (A & B & C).
    apply IH; assumption. }
  destruct (units_of content chunk_size) as [|u0 l0] eqn:EU.
  { simpl. constructor. }
  assert (Hcs : (0 <= chunk_size)%Z).
  { apply List.Forall_cons_iff in Hu as [Hu0 _]. lia. }
  rewrite <- EU in *.
  destruct (H (units_of content chunk_size) (mkS [] [] 0) Hu eq_refl) as [B C].
  { simpl. lia. }
  { constructor. }
  unfold finish. destruct (nonempty _); [|exact C].
  apply List.Forall_app. split; [exact C|]. constructor; [|constructor].
  pose proof (length_strip
    (current_chunk (fold_left (add_unit chunk_size overlap)
                              (units_of content chunk_size) (mkS [] [] 0)))). lia.
Qed.

(** X3, witness: the two sentences of a paragraph of twelve characters, cut
    with [chunk_size = 8] and [overlap = 2]. *)
Lemma smart_split_size_bound_witness :
  Forall (fun c : text => (Z.of_nat (length c) <= 8 + Z.max 0 2)%Z)
         (_smart_split [97; 97; 97; 97; 97; 12290; 98; 98; 98; 98; 98; 12290]%N 8 2).
Proof.
  apply (smart_split_size_bound
           [97; 97; 97; 97; 97; 12290; 98; 98; 98; 98; 98; 12290]%N 8 2).
  vm_compute. repeat constructor; discriminate.
Defined.

(** *** Content that fits in one chunk *)

Lemma strip_fix_last (s r : text) x : strip s = s -> s = r ++ [x] -> is_space x = false.
Proof.
  intros H E. unfold strip, rstrip in H. rewrite E in H at 2.
  apply (f_equal (@rev _)) in H. rewrite rev_involutive, rev_app_distr in H.
  simpl in H. eapply lstrip_head. exact H.
Qed.

Lemma strip_fix (s : text) :
  (forall c r, s = c :: r -> is_space c = false) ->
  (forall c r, s = r ++ [c] -> is_space c = false) ->
  strip s = s.
Proof.
  intros Hh Hl. destruct s as [|c r]; [reflexivity|].
  unfold strip. simpl. rewrite (Hh c r eq_refl).
  unfold rstrip. destruct (rev (c :: r)) as [|x y] eqn:E.
  - apply (f_equal (@rev _)) in E. rewrite rev_involutive in E. discriminate.
  - assert (E' : c :: r = rev y ++ [x]).
    { rewrite <- (rev_involutive (c :: r)), E. reflexivity. }
    simpl. rewrite (Hl x (rev y) E'). simpl. symmetry. exact E'.
Qed.

Lemma join_length (l : list text) :
  l <> [] -> length (join PARA_SEP l) + 2 = padded_length l.
Proof.
  unfold padded_length.
  induction l as [|p l IH]; [congruence|]. intros _.
  destruct l as [|q l]; [simpl; lia|].
  change (join PARA_SEP (p :: q :: l)) with (p ++ PARA_SEP ++ join PARA_SEP (q :: l)).
  rewrite !length_app. change (length PARA_SEP) with 2.
  specialize (IH ltac:(discriminate)).
  cbn [map sum_list sum_list_with] in *. unfold id in *. lia.
Qed.

Lemma join_snoc (l : list text) p :
  l <> [] -> join PARA_SEP (l ++ [p]) = join PARA_SEP l ++ PARA_SEP ++ p.
Proof.
  induction l as [|a l IH]; [congruence|]. intros _.
  destruct l as [|b l]; [reflexivity|].
  change (join PARA_SEP ((a :: b :: l) ++ [p]))
    with (a ++ PARA_SEP ++ join PARA_SEP ((b :: l) ++ [p])).
  rewrite IH by discriminate.
  change (join PARA_SEP (a :: b :: l)) with (a ++ PARA_SEP ++ join PARA_SEP (b :: l)).
  rewrite <- !app_assoc. reflexivity.
Qed.

Lemma join_trimmed (l : list text) :
  l <> [] -> Forall (fun p : text => p <> [] /\ strip p = p) l ->
  join PARA_SEP l <> [] /\ strip (join PARA_SEP l) = join PARA_SEP l.
Proof.
  intros Hne Hl.
  assert (Hhead : exists c r, join PARA_SEP l = c :: r /\ is_space c = false).
  { destruct l as [|p l]; [congruence|].
    apply List.Forall_cons_iff in Hl as [[Hp Hs] _].
    destruct p as [|c p]; [congruence|].
    exists c. destruct l; simpl; eexists; (split; [reflexivity|]);
      eapply strip_id_head; exact Hs. }
  destruct Hhead as (c & r & E & Hc).
  split; [rewrite E; discriminate|].
  apply strip_fix.
  - intros c' r' E'. rewrite E in E'. injection E' as <- _. exact Hc.
  - clear c r E Hc. induction l as [|p l IH]; [congruence|].
    apply List.Forall_cons_iff in Hl as [[Hp Hs] Hl].
    destruct l as [|q l].
    + simpl. intros x r E. eapply strip_fix_last; eassumption.
    + change (join PARA_SEP (p :: q :: l))
        with (p ++ PARA_SEP ++ join PARA_SEP (q :: l)).
      intros x r E.
      assert (L : last (p ++ PARA_SEP ++ join PARA_SEP (q :: l)) = Some x)
        by (rewrite E; apply last_snoc).
      rewrite app_assoc, last_app in L.
      destruct (last (join PARA_SEP (q :: l))) as [y|] eqn:Ly.
      * injection L as ->. apply last_Some in Ly as [r' Er'].
        apply (IH ltac:(discriminate) Hl x r' Er').
      * apply last_None in Ly.
        assert (Hq : q <> []).
        { apply List.Forall_cons_iff in Hl as [[Hq _] _]. exact Hq. }
        destruct q as [|cq q]; [congruence|]. destruct l; discriminate.
Qed.

Lemma padded_split_blank fuel s :
  padded_length (split_blank fuel s) <= length s + 2.
Proof.
  unfold padded_length.
  revert s. induction fuel as [|fuel IH]; intros s; [simpl; lia|].
  destruct s as [|c s]; [simpl; lia|].
  cbn [split_blank].
  destruct (match_blank (c :: s)) as [r|] eqn:E.
  - apply match_blank_length in E. specialize (IH r).
    cbn [map sum_list sum_list_with length] in *. unfold id in *. lia.
  - specialize (IH s). destruct (split_blank fuel s) as [|p ps];
      cbn [map sum_list sum_list_with length] in *; unfold id in *; lia.
Qed.

Lemma padded_nonblank (ps : list text) :
  padded_length (List.filter nonempty (map strip ps)) <= padded_length ps.
Proof.
  unfold padded_length. induction ps as [|p ps IH]; simpl; [lia|].
  pose proof (length_strip p).
  destruct (nonempty (strip p)); cbn [map sum_list sum_list_with] in *;
    unfold id in *; lia.
Qed.

Lemma padded_app (l1 l2 : list text) :
  padded_length (l1 ++ l2) = padded_length l1 + padded_length l2.
Proof. unfold padded_length. rewrite map_app, sum_list_with_app. reflexivity. Qed.

(** While the joined paragraphs fit, the loop emits nothing and the
    buffer is their join. *)
Lemma fold_fitting cs ov rest : forall acc,
  Forall (fun p : text => p <> [] /\ strip p = p) acc ->
  (Z.of_nat (padded_length (acc ++ List.filter nonempty (map strip rest))) <= cs + 2)%Z ->
  fold_left (add_para cs ov) rest
            (mkS [] (join PARA_SEP acc) (length (join PARA_SEP acc)))
  = mkS [] (join PARA_SEP (acc ++ List.filter nonempty (map strip rest)))
           (length (join PARA_SEP (acc ++ List.filter nonempty (map strip rest)))).
Proof.
  induction rest as [|para0 rest IH]; intros acc Hacc Hfit.
  - simpl. rewrite app_nil_r. reflexivity.
  - cbn [fold_left map List.filter] in *. unfold add_para at 2.
    destruct (nonempty (strip para0)) eqn:N; [|apply IH; assumption].
    assert (Hacc' : Forall (fun p : text => p <> [] /\ strip p = p) (acc ++ [strip para0])).
    { apply List.Forall_app. split; [exact Hacc|]. constructor; [|constructor].
      split; [apply nonempty_true, N | apply strip_idem]. }
    replace (acc ++ strip para0 :: List.filter nonempty (map strip rest))
      with ((acc ++ [strip para0]) ++ List.filter nonempty (map strip rest)) in *
      by (rewrite <- app_assoc; reflexivity).
    assert (Hp : (Z.of_nat (padded_length (acc ++ [strip para0])) <= cs + 2)%Z).
    { rewrite padded_app in Hfit. lia. }
    rewrite padded_app in Hp. unfold padded_length at 2 in Hp.
    cbn [map sum_list sum_list_with] in Hp. unfold id in Hp.
    rewrite gtb_false by lia.
    rewrite <- (IH (acc ++ [strip para0]) Hacc' Hfit). f_equal.
    unfold add_short_para. cbn [current_chunk current_size chunks].
    destruct acc as [|a acc].
    + cbn [join nonempty app length]. rewrite andb_false_r. reflexivity.
    + destruct (join_trimmed (a :: acc) ltac:(discriminate) Hacc) as [Hj _].
      apply nonempty_true in Hj. rewrite Hj.
      pose proof (join_length (a :: acc) ltac:(discriminate)) as Hlen.
      rewrite gtb_false by lia. cbn [andb].
      rewrite join_snoc by discriminate. reflexivity.
Qed.

(** X4. A content that is no longer than [chunk_size] is never cut: it
    comes back as one chunk, made of its paragraphs that are not blank,
    each one stripped, joined by one empty line (and as no chunk when all
    of them are blank). *)
Theorem smart_split_fits (content : text) (chunk_size overlap : Z) :
  (Z.of_nat (length content) <= chunk_size)%Z ->
  _smart_split content chunk_size overlap =
  match List.filter nonempty (map strip (paragraphs content)) with
  | [] => []
  | ps => [join PARA_SEP ps]
  end.
Proof.
  intros Hfit. unfold _smart_split.
  pose proof (fold_fitting chunk_size overlap (paragraphs content) [] (List.Forall_nil _)) as H.
  cbn [app join length] in H. rewrite H.
  2:{ pose proof (padded_nonblank (paragraphs content)).
      pose proof (padded_split_blank (length content) content).
      unfold paragraphs in *. lia. }
  unfold finish. cbn [current_chunk chunks].
  assert (Hall : Forall (fun p : text => p <> [] /\ strip p = p)
                        (List.filter nonempty (map strip (paragraphs content)))).
  { apply List.Forall_forall. intros p Hp. apply List.filter_In in Hp as [Hp Hn].
    apply in_map_iff in Hp as (p0 & <- & _).
    split; [apply nonempty_true, Hn | apply strip_idem]. }
  destruct (List.filter nonempty (map strip (paragraphs content))) as [|p ps] eqn:E.
  - reflexivity.
  - destruct (join_trimmed (p :: ps) ltac:(discriminate) Hall) as [Hj Hs].
    rewrite Hs. apply nonempty_true in Hj. rewrite Hj. reflexivity.
Qed.

(** X4, witness: two short paragraphs and the blank lines around them. *)
Lemma smart_split_fits_witness :
  _smart_split (text_of_string (LF ++ " one" ++ LF ++ " " ++ LF ++ LF ++ "two " ++ LF)) 400 50
  = [text_of_string ("one" ++ LF ++ LF ++ "two")].
Proof.
  apply (smart_split_fits
           (text_of_string (LF ++ " one" ++ LF ++ " " ++ LF ++ LF ++ "two " ++ LF)) 400 50).
  vm_compute. discriminate.
Defined.

(** ** The structure parser: one node per heading, in document order *)

(** *** The loop, line by line *)

Lemma line_offset_snoc pre (line : text) :
  line_offset (pre ++ [line]) = line_offset pre + length line + 1.
Proof.
  unfold line_offset. rewrite map_app, sum_list_with_app. simpl. unfold id. lia.
Qed.

Lemma line_offset_app_le pre (rest : list text) :
  line_offset pre <= line_offset (pre ++ rest).
Proof.
  unfold line_offset. rewrite map_app, sum_list_with_app. lia.
Qed.

(** An invariant of the loop of [parse_markdown]: it holds of the state
    after the lines [pre] when every line keeps it. *)
Lemma scan_invariant doc (Inv : list text -> pstate -> Prop) :
  (forall pre line st,
      parser_inv doc (line_offset pre) st -> Inv pre st ->
      line_offset pre + length line <= length doc ->
      Inv (pre ++ [line])
          (match heading_of line with
           | Some (lvl, ttl) => open_heading doc (line_offset pre) line lvl ttl st
           | None => st
           end)) ->
  forall rest pre st,
    line_offset (pre ++ rest) = length doc + 1 ->
    parser_inv doc (line_offset pre) st -> Inv pre st ->
    parser_inv doc (length doc + 1) (scan doc (pre ++ rest) (length pre) rest st) /\
    Inv (pre ++ rest) (scan doc (pre ++ rest) (length pre) rest st).
Proof.
  intros Hstep.
  induction rest as [|line rest IH]; intros pre st Htot Hinv HI.
  - simpl. rewrite app_nil_r in *. rewrite <- Htot. auto.
  - cbn [scan].
    assert (Hle : line_offset pre + length line <= length doc).
    { pose proof (line_offset_app_le (pre ++ [line]) rest) as H.
      rewrite <- app_assoc in H. simpl in H. rewrite Htot, line_offset_snoc in H. lia. }
    specialize (Hstep pre line st Hinv HI Hle).
    replace (pre ++ line :: rest) with ((pre ++ [line]) ++ rest) in *
      by (rewrite <- app_assoc; reflexivity).
    replace (S (length pre)) with (length (pre ++ [line]))
      by (rewrite length_app; simpl; lia).
    unfold visit_line.
    replace (char_pos_of ((pre ++ [line]) ++ rest) (length pre)) with (line_offset pre).
    2:{ rewrite <- app_assoc. simpl. symmetry. apply char_pos_of_app. }
    apply IH; [exact Htot | | exact Hstep].
    rewrite line_offset_snoc.
    destruct (heading_of line) as [[lvl ttl]|] eqn:Hh.
    + apply heading_of_level in Hh.
      apply parser_inv_open; [exact Hinv | lia | lia].
    + eapply parser_inv_mono; [exact Hinv | lia].
Qed.

(** The same for the whole document. *)
Lemma parse_invariant doc filename (Inv : list text -> pstate -> Prop) :
  Inv [] (init_state doc filename) ->
  (forall pre line st,
      parser_inv doc (line_offset pre) st -> Inv pre st ->
      line_offset pre + length line <= length doc ->
      Inv (pre ++ [line])
          (match heading_of line with
           | Some (lvl, ttl) => open_heading doc (line_offset pre) line lvl ttl st
           | None => st
           end)) ->
  parser_inv doc (length doc + 1)
    (scan doc (split_lines doc) 0 (split_lines doc) (init_state doc filename)) /\
  Inv (split_lines doc)
    (scan doc (split_lines doc) 0 (split_lines doc) (init_state doc filename)).
Proof.
  intros H0 Hstep.
  apply (scan_invariant doc Inv Hstep (split_lines doc) [] (init_state doc filename)).
  - apply split_lines_total.
  - apply parser_inv_init.
  - exact H0.
Qed.

(** *** The tree of the open nodes and the heap *)

Lemma cells_plug_cons f fs :
  flat_map cells_of (plug (f :: fs)) =
  (f_id f, mkCell (f_data f) (map node_id (f_kids f) ++ map node_id (plug fs)))
  :: flat_map cells_of (f_kids f) ++ flat_map cells_of (plug fs).
Proof. simpl. rewrite app_nil_r, map_app, flat_map_app. reflexivity. Qed.

(** A new open node without children: its parent, the last open node so
    far, gets one more child. *)
Lemma cells_snoc fs : forall p g,
  last fs = Some p -> f_kids g = [] ->
  exists pre post c,
    flat_map cells_of (plug fs) = pre ++ (f_id p, c) :: post /\
    flat_map cells_of (plug (fs ++ [g])) =
      pre ++ (f_id p, add_child (f_id g) c) :: post ++ [(f_id g, mkCell (f_data g) [])].
Proof.
  induction fs as [|f fs IH]; intros p g Hl Hg; [discriminate|].
  destruct fs as [|f' fs].
  - injection Hl as <-.
    exists [], (flat_map cells_of (f_kids f)), (mkCell (f_data f) (map node_id (f_kids f))).
    split.
    + rewrite cells_plug_cons. simpl. rewrite !app_nil_r. reflexivity.
    + change ([f] ++ [g]) with (f :: [g]). rewrite !cells_plug_cons.
      simpl. rewrite Hg. simpl. reflexivity.
  - rewrite last_cons_cons in Hl.
    destruct (IH p g Hl Hg) as (pre & post & c & E1 & E2).
    exists ((f_id f, mkCell (f_data f) (map node_id (f_kids f) ++ [f_id f']))
            :: flat_map cells_of (f_kids f) ++ pre), post, c.
    split.
    + rewrite cells_plug_cons, E1. simpl. rewrite <- app_assoc. reflexivity.
    + change ((f :: f' :: fs) ++ [g]) with (f :: ((f' :: fs) ++ [g])).
      rewrite cells_plug_cons, E2. simpl. rewrite <- app_assoc. reflexivity.
Qed.

(** New fields for the last open node. *)
Lemma cells_alter_last fs : forall fl d',
  exists pre post c,
    data c = f_data fl /\
    flat_map cells_of (plug (fs ++ [fl])) = pre ++ (f_id fl, c) :: post /\
    flat_map cells_of (plug (fs ++ [mkFrame (f_id fl) d' (f_kids fl)])) =
      pre ++ (f_id fl, mkCell d' (children c)) :: post.
Proof.
  induction fs as [|f fs IH]; intros fl d'.
  - exists [], (flat_map cells_of (f_kids fl) ++ flat_map cells_of (plug [])),
           (mkCell (f_data fl) (map node_id (f_kids fl) ++ map node_id (plug []))).
    split; [reflexivity|].
    split; cbn [app]; rewrite cells_plug_cons; reflexivity.
  - destruct (IH fl d') as (pre & post & c & Ed & E1 & E2).
    exists ((f_id f, mkCell (f_data f)
                       (map node_id (f_kids f) ++ map node_id (plug (fs ++ [fl]))))
            :: flat_map cells_of (f_kids f) ++ pre), post, c.
    split; [exact Ed|]. split.
    + change ((f :: fs) ++ [fl]) with (f :: (fs ++ [fl])).
      rewrite cells_plug_cons, E1, <- app_comm_cons, <- app_assoc. reflexivity.
    + change ((f :: fs) ++ [mkFrame (f_id fl) d' (f_kids fl)])
        with (f :: (fs ++ [mkFrame (f_id fl) d' (f_kids fl)])).
      rewrite cells_plug_cons, E2, <- app_comm_cons, <- app_assoc.
      replace (map node_id (plug (fs ++ [mkFrame (f_id fl) d' (f_kids fl)])))
        with (map node_id (plug (fs ++ [fl]))); [reflexivity|].
      destruct fs; reflexivity.
Qed.

(** Popping changes the stack and not the tree. *)
Lemma plug_collapse lvl sp : 1 <= lvl -> plug (collapse lvl sp) = plug sp.
Proof.
  destruct lvl as [|l]; [lia|]. intros _. unfold collapse.
  revert sp. induction l as [|l IH]; intros sp.
  - destruct sp as [|f sp]; [reflexivity|]. simpl.
    rewrite drop_0, app_nil_r. reflexivity.
  - destruct sp as [|f sp]; [reflexivity|].
    specialize (IH sp).
    change (plug (f :: (take l sp ++
                        match sp !! l with
                        | Some f0 => [mkFrame (f_id f0) (f_data f0)
                                              (f_kids f0 ++ plug (drop (S l) sp))]
                        | None => []
                        end)) = plug (f :: sp)).
    cbn [plug]. rewrite IH. reflexivity.
Qed.

Lemma collapse_ids lvl sp : 1 <= lvl -> map f_id (collapse lvl sp) = take lvl (map f_id sp).
Proof.
  destruct lvl as [|l]; [lia|]. intros _. unfold collapse.
  revert sp. induction l as [|l IH]; intros sp.
  - destruct sp as [|f sp]; reflexivity.
  - destruct sp as [|f sp]; [reflexivity|].
    specialize (IH sp).
    change (map f_id (f :: (take l sp ++
                            match sp !! l with
                            | Some f0 => [mkFrame (f_id f0) (f_data f0)
                                                  (f_kids f0 ++ plug (drop (S l) sp))]
                            | None => []
                            end)) = f_id f :: take (S l) (map f_id sp)).
    cbn [map]. rewrite IH. reflexivity.
Qed.

(** The object of an open node. *)
Lemma cells_frame sp : forall i f,
  sp !! i = Some f ->
  In (f_id f, mkCell (f_data f) (map node_id (f_kids f ++ plug (drop (S i) sp))))
     (flat_map cells_of (plug sp)).
Proof.
  induction sp as [|g sp IH]; intros i f Hf; [discriminate|].
  rewrite cells_plug_cons. destruct i as [|i].
  - injection Hf as <-. left. cbn [drop]. rewrite drop_0, map_app. reflexivity.
  - right. apply in_or_app. right. apply (IH i f Hf).
Qed.

Lemma cells_lookup (C : list (nat * Cell)) (h : list Cell) a c :
  map fst C = seq 0 (length h) -> map snd C = h -> In (a, c) C -> h !! a = Some c.
Proof.
  intros Hi Hc Hin.
  apply list_elem_of_In, list_elem_of_lookup_1 in Hin as [i Hl].
  assert (Ha : (map fst C) !! i = Some a).
  { change (map fst C) with (fst <$> C). rewrite list_lookup_fmap, Hl. reflexivity. }
  rewrite Hi in Ha. apply lookup_seq in Ha as [Ha _]. simpl in Ha. subst a.
  rewrite <- Hc. change (map snd C) with (snd <$> C).
  rewrite list_lookup_fmap, Hl. reflexivity.
Qed.

Lemma cells_position (pre post : list (nat * Cell)) a c n :
  map fst (pre ++ (a, c) :: post) = seq 0 n -> a = length pre.
Proof.
  intros H.
  assert (Ha : map fst (pre ++ (a, c) :: post) !! length pre = Some a).
  { rewrite map_app. simpl.
    rewrite lookup_app_r by (rewrite length_map; lia).
    rewrite length_map, Nat.sub_diag. reflexivity. }
  rewrite H in Ha. apply lookup_seq in Ha as [Ha _]. exact Ha.
Qed.

Lemma alter_middle {A} (f : A -> A) (l1 : list A) x l2 :
  alter f (length l1) (l1 ++ x :: l2) = l1 ++ f x :: l2.
Proof.
  replace (length l1) with (length l1 + 0) by lia.
  rewrite alter_app_r. reflexivity.
Qed.

(** *** One step of the two loops *)

Lemma sim_close doc pos st vs :
  sim st vs ->
  sim (close_top doc pos st) (mkV (v_close doc pos (frames vs)) (v_count vs) (v_pos vs)).
Proof.
  intros [Hstack Hids Hcells Hcount].
  unfold close_top, v_close. cbn [frames].
  replace (length (frames vs)) with (length (stack st))
    by (rewrite Hstack, length_map; reflexivity).
  destruct (1 <? length (stack st)) eqn:E; [|constructor; assumption].
  destruct (frames vs) as [|f0 fs0] eqn:Efr using rev_ind.
  { rewrite Hstack in E. discriminate. }
  clear IHfs0.
  assert (Hl : last (stack st) = Some (f_id f0))
    by (rewrite Hstack, map_app; apply last_snoc).
  assert (Hlen : length (stack st) - 1 = length fs0 + 0)
    by (rewrite Hstack, length_map, length_app; simpl; lia).
  rewrite Hl, Hlen, alter_app_r. simpl.
  destruct (cells_alter_last fs0 f0 (close_data doc pos (f_data f0)))
    as (pre & post & c & Ed & E1 & E2).
  rewrite E1 in Hids, Hcells.
  pose proof (cells_position _ _ _ _ _ Hids) as Hpos.
  constructor; cbn [stack heap frames v_count].
  - rewrite Hstack, !map_app. reflexivity.
  - rewrite E2, length_alter.
    rewrite map_app in Hids |- *. exact Hids.
  - rewrite E2, <- Hcells, Hpos.
    rewrite !map_app. simpl.
    rewrite <- (length_map snd pre), alter_middle.
    unfold close_node. rewrite Ed. reflexivity.
  - rewrite length_alter. exact Hcount.
Qed.

Lemma sim_sibling_index st vs lvl :
  sim st vs -> sibling_index st lvl = v_sibling_index (frames vs) lvl.
Proof.
  intros [Hstack Hids Hcells _].
  unfold sibling_index, v_sibling_index.
  rewrite Hstack, length_map.
  change (map f_id (frames vs)) with (f_id <$> frames vs).
  rewrite list_lookup_fmap.
  destruct (frames vs !! lvl) as [f|] eqn:Ef; simpl.
  - apply lookup_lt_Some in Ef as Hlt. apply Nat.ltb_lt in Hlt. rewrite Hlt.
    rewrite (cells_lookup _ _ _ _ Hids Hcells (cells_frame _ _ _ Ef)).
    simpl. apply length_map.
  - destruct (lvl <? length (frames vs)); reflexivity.
Qed.

Lemma sim_open doc P pos line lvl ttl st vs next_pos :
  parser_inv doc P st -> 1 <= lvl -> sim st vs ->
  sim (open_heading doc pos line lvl ttl st)
      (mkV (v_open doc pos line lvl ttl (v_count vs) (frames vs))
           (S (v_count vs)) next_pos).
Proof.
  intros Hinv Hlvl Hsim.
  pose proof (sim_close doc pos st vs Hsim) as H1.
  assert (Hne : stack st <> []).
  { intros E. destruct Hinv as [Hshape _ _ _ _ _ _].
    rewrite E in Hshape. simpl in Hshape. lia. }
  destruct (take_last_exists (stack st) lvl Hne Hlvl) as (parent & Hp & _).
  rewrite (open_heading_eq _ _ _ _ _ _ _ Hp).
  rewrite (sim_sibling_index _ _ lvl H1). cbn [frames].
  unfold v_open. cbv zeta.
  set (sp1 := v_close doc pos (frames vs)) in *.
  destruct H1 as [Hstack Hids Hcells Hcount]. cbn [frames v_count] in *.
  rewrite close_top_stack in Hstack. rewrite close_top_length in Hids.
  set (g := mkFrame (v_count vs) _ []).
  assert (Hlast : exists p, last (collapse lvl sp1) = Some p /\ f_id p = parent).
  { pose proof (collapse_ids lvl sp1 Hlvl) as Hc. rewrite <- Hstack in Hc.
    assert (L : last (map f_id (collapse lvl sp1)) = Some parent) by (rewrite Hc; exact Hp).
    change (map f_id (collapse lvl sp1)) with (f_id <$> collapse lvl sp1) in L.
    rewrite fmap_last in L.
    destruct (last (collapse lvl sp1)) as [p|]; [|discriminate].
    injection L as <-. eauto. }
  destruct Hlast as (p & Hlp & Hpid).
  destruct (cells_snoc (collapse lvl sp1) p g Hlp eq_refl)
    as (pre & post & c & E1 & E2).
  rewrite plug_collapse in E1 by exact Hlvl.
  rewrite E1 in Hids, Hcells.
  pose proof (cells_position _ _ _ _ _ Hids) as Hpos.
  destruct Hsim as [_ _ _ Hcnt].
  constructor; cbn [stack heap frames v_count].
  - rewrite map_app, collapse_ids, <- Hstack by exact Hlvl.
    simpl. rewrite Hcnt. reflexivity.
  - rewrite E2, length_app, length_alter, close_top_length. simpl.
    replace (length (heap st) + 1) with (S (length (heap st))) by lia.
    rewrite seq_S. simpl.
    rewrite app_comm_cons, app_assoc, map_app. simpl. rewrite Hcnt.
    f_equal. rewrite <- Hids, !map_app. reflexivity.
  - rewrite E2, <- Hcells, <- Hpid, Hpos.
    rewrite app_comm_cons, app_assoc, !map_app. simpl.
    rewrite <- (length_map snd pre), alter_middle. rewrite Hcnt. reflexivity.
  - rewrite length_app, length_alter, close_top_length. simpl. lia.
Qed.

(** *** The whole loop *)

Lemma v_scan_snoc doc filename pre line :
  v_scan doc filename (pre ++ [line]) = v_visit doc (v_scan doc filename pre) line.
Proof. unfold v_scan. rewrite fold_left_app. reflexivity. Qed.

Lemma v_scan_pos doc filename lines :
  v_pos (v_scan doc filename lines) = line_offset lines.
Proof.
  induction lines as [|line lines IH] using rev_ind; [reflexivity|].
  rewrite v_scan_snoc, line_offset_snoc. unfold v_visit.
  destruct (heading_of line) as [[lvl ttl]|]; simpl; rewrite IH; reflexivity.
Qed.

Lemma sim_scan doc filename :
  sim (close_top doc (length doc)
         (scan doc (split_lines doc) 0 (split_lines doc) (init_state doc filename)))
      (mkV (v_close doc (length doc) (frames (v_scan doc filename (split_lines doc))))
           (v_count (v_scan doc filename (split_lines doc)))
           (v_pos (v_scan doc filename (split_lines doc)))).
Proof.
  apply sim_close.
  refine (proj2 (parse_invariant doc filename
                   (fun pre st => sim st (v_scan doc filename pre)) _ _)).
  - constructor; reflexivity.
  - intros pre line st Hinv Hsim _.
    rewrite v_scan_snoc. unfold v_visit. rewrite v_scan_pos.
    destruct (heading_of line) as [[lvl ttl]|] eqn:Hh.
    + apply heading_of_level in Hh.
      eapply sim_open; [exact Hinv | lia | exact Hsim].
    + destruct Hsim. constructor; assumption.
Qed.

(** A tree whose objects are on the heap is the tree that [tree_of] reads. *)
Lemma tree_of_cells h : forall T fuel t,
  tree_of fuel h (node_id T) = Some t ->
  Forall (fun p => h !! fst p = Some (snd p)) (cells_of T) ->
  t = T.
Proof.
  induction T as [a d Ks IH] using DocNode_tree_ind.
  intros fuel t Ht Hc. destruct fuel as [|fuel]; [discriminate|].
  simpl in Ht, Hc. apply List.Forall_cons_iff in Hc as [Ha Hc]. simpl in Ha.
  rewrite Ha in Ht. simpl in Ht.
  destruct (mapM (tree_of fuel h) (map node_id Ks)) as [ks|] eqn:E; [|discriminate].
  injection Ht as <-. f_equal.
  apply mapM_Some_1 in E. clear Ha.
  revert ks E. induction Ks as [|K Ks IHK]; intros ks E.
  - inversion E. reflexivity.
  - simpl in E. inversion E as [|x y l l' Hxy Hl]; subst.
    apply List.Forall_cons_iff in IH as [IH1 IH2].
    simpl in Hc. apply List.Forall_app in Hc as [Hc1 Hc2].
    f_equal; [eapply IH1; eassumption | apply IHK; assumption].
Qed.

(** The two loops build the same tree. *)
Lemma parse_markdown_on_values doc filename :
  v_parse doc filename = [parse_markdown doc filename].
Proof.
  pose proof (sim_scan doc filename) as [Hstack Hids Hcells _].
  cbn [frames] in *. fold (v_parse doc filename) in *. fold (parse_heap doc filename) in *.
  pose proof (parse_tree_total doc filename) as Ht. unfold parse_tree in Ht.
  destruct (v_parse doc filename) as [|T [|T' l]] eqn:E.
  - simpl in Hids. destruct (parse_heap doc filename); [discriminate Ht | discriminate Hids].
  - f_equal. symmetry. simpl in Hids, Hcells. rewrite app_nil_r in Hids, Hcells.
    assert (H0 : node_id T = 0).
    { destruct T as [a d ks]. simpl in Hids.
      destruct (parse_heap doc filename); [discriminate Ht|].
      simpl in Hids. injection Hids as -> _. reflexivity. }
    rewrite <- H0 in Ht. eapply tree_of_cells; [exact Ht|].
    apply List.Forall_forall. intros [a c] Hin. simpl.
    eapply cells_lookup; eassumption.
  - unfold v_parse in E. destruct (v_close _ _ _); discriminate E.
Qed.

Lemma cells_nodes T :
  map (fun p => (fst p, data (snd p))) (cells_of T)
  = map (fun n => (node_id n, node_data n)) (nodes_of T).
Proof.
  induction T as [a d Ks IH] using DocNode_tree_ind. simpl. f_equal.
  induction IH as [|K Ks HK _ IHK]; [reflexivity|].
  simpl. rewrite !map_app, HK, IHK. reflexivity.
Qed.

(** The nodes of the tree of [parse_markdown], in the order in which
    [traverse] and [_save_nodes] visit them, are the objects of the heap
    in the order of their creation. *)
Lemma parse_markdown_preorder doc filename :
  map node_id (nodes_of (parse_markdown doc filename))
    = seq 0 (length (parse_heap doc filename)) /\
  map node_data (nodes_of (parse_markdown doc filename))
    = map data (parse_heap doc filename).
Proof.
  pose proof (sim_scan doc filename) as [_ Hids Hcells _].
  cbn [frames] in *. fold (v_parse doc filename) in *. fold (parse_heap doc filename) in *.
  rewrite parse_markdown_on_values in Hids, Hcells.
  simpl in Hids, Hcells. rewrite app_nil_r in Hids, Hcells.
  pose proof (cells_nodes (parse_markdown doc filename)) as H.
  split.
  - rewrite <- Hids.
    apply (f_equal (map fst)) in H. rewrite !map_map in H. simpl in H.
    symmetry. exact H.
  - rewrite <- Hcells.
    apply (f_equal (map snd)) in H. rewrite !map_map in H. simpl in H.
    rewrite map_map. symmetry. exact H.
Qed.

(** *** The fields of the objects *)

Lemma map_alter_same {A B} (f : A -> B) (g : A -> A) i l :
  (forall x, f (g x) = f x) -> map f (alter g i l) = map f l.
Proof.
  intros H. apply list_eq. intros j.
  change (map f (alter g i l)) with (f <$> alter g i l).
  change (map f l) with (f <$> l).
  rewrite !list_lookup_fmap.
  destruct (decide (i = j)) as [-> | NE].
  - rewrite list_lookup_alter_eq. destruct (l !! j); simpl; [rewrite H|]; reflexivity.
  - rewrite list_lookup_alter_ne by exact NE. reflexivity.
Qed.

Lemma close_top_datas doc P pos st :
  parser_inv doc P st ->
  map data (heap (close_top doc pos st)) =
  if 1 <? length (heap st)
  then alter (close_data doc pos) (length (heap st) - 1) (map data (heap st))
  else map data (heap st).
Proof.
  intros [Hshape Htop _ _ _ _ _]. unfold close_top. rewrite Htop.
  destruct Hshape as [[H1 H2] | [H1 H2]].
  - rewrite H1, H2. reflexivity.
  - apply Nat.ltb_lt in H1, H2. rewrite H1, H2. simpl.
    apply (list_fmap_alter data (close_node doc pos) (close_data doc pos)).
    apply Forall_true. reflexivity.
Qed.

Lemma open_heading_datas doc P pos line lvl ttl st :
  parser_inv doc P st -> 1 <= lvl ->
  map data (heap (open_heading doc pos line lvl ttl st)) =
  map data (heap (close_top doc pos st))
  ++ [mkData lvl (sibling_index (close_top doc pos st) lvl) ttl [] None None
             (pos + length line + 1) (length doc)].
Proof.
  intros Hinv Hlvl.
  assert (Hne : stack st <> []).
  { intros E. destruct Hinv as [Hshape _ _ _ _ _ _].
    rewrite E in Hshape. simpl in Hshape. lia. }
  destruct (take_last_exists (stack st) lvl Hne Hlvl) as (parent & Hp & _).
  rewrite (open_heading_eq _ _ _ _ _ _ _ Hp). simpl.
  rewrite map_app, map_alter_same by reflexivity. reflexivity.
Qed.

(** The level and the title of the objects: those of the root, then
    those of the heading lines, in the order of the lines. *)
Lemma heap_headings doc filename :
  map (fun c => (level (data c), title (data c))) (parse_heap doc filename)
  = (0, title (data (root_cell doc filename))) :: omap heading_of (split_lines doc).
Proof.
  unfold parse_heap.
  generalize (eq_refl (title (data (root_cell doc filename)))).
  generalize (title (data (root_cell doc filename))) at 2 3 as rt. intros rt Hrt.
  pose proof (parse_invariant doc filename
    (fun pre st =>
       map (fun d => (level d, title d)) (map data (heap st))
       = (0, rt) :: omap heading_of pre)) as H.
  destruct H as [Hinv H].
  - simpl. rewrite <- Hrt. reflexivity.
  - intros pre line st Hinv IH _.
    rewrite omap_app. simpl.
    destruct (heading_of line) as [[lvl ttl]|] eqn:Hh.
    + apply heading_of_level in Hh.
      rewrite (open_heading_datas doc _ _ _ _ _ _ Hinv) by lia.
      rewrite (close_top_datas doc _ _ _ Hinv).
      rewrite map_app, app_comm_cons, <- IH. f_equal.
      destruct (1 <? length (heap st)); [|reflexivity].
      apply map_alter_same. reflexivity.
    + rewrite app_nil_r. exact IH.
  - rewrite <- (map_map data (fun d => (level d, title d))).
    rewrite (close_top_datas doc _ _ _ Hinv), <- H.
    destruct (1 <? length _); [|reflexivity].
    apply map_alter_same. reflexivity.
Qed.

(** The same on the tree. *)
Lemma nodes_headings doc filename :
  map (fun n => (level (node_data n), title (node_data n)))
      (nodes_of (parse_markdown doc filename))
  = (0, match filename with [] => default_title | _ => filename end)
    :: omap heading_of (split_lines doc).
Proof.
  destruct (parse_markdown_preorder doc filename) as [_ H].
  rewrite <- (map_map node_data (fun d => (level d, title d))), H, map_map.
  apply heap_headings.
Qed.

Lemma closed_after_close doc pos (D : list NodeData) rootd :
  D !! 0 = Some rootd ->
  (forall a d, 0 < a -> S a < length D -> D !! a = Some d ->
               content d = slice doc (char_start d) (char_end d)) ->
  (if 1 <? length D then alter (close_data doc pos) (length D - 1) D else D) !! 0
    = Some rootd /\
  forall a d, 0 < a ->
    (if 1 <? length D then alter (close_data doc pos) (length D - 1) D else D) !! a
      = Some d ->
    content d = slice doc (char_start d) (char_end d).
Proof.
  intros H0 Hc. destruct (1 <? length D) eqn:E.
  - apply Nat.ltb_lt in E. split.
    + rewrite list_lookup_alter_ne by lia. exact H0.
    + intros a d Ha Hd. destruct (decide (a = length D - 1)) as [-> | NE].
      * rewrite list_lookup_alter_eq in Hd.
        apply fmap_Some in Hd as (d0 & _ & ->). reflexivity.
      * rewrite list_lookup_alter_ne in Hd by congruence.
        apply (Hc a d Ha); [|exact Hd]. apply lookup_lt_Some in Hd. lia.
  - apply Nat.ltb_ge in E. split; [exact H0|].
    intros a d Ha Hd. apply lookup_lt_Some in Hd. lia.
Qed.

(** The fields of the root are those it was created with; the content
    of every other object is the text of its range. *)
Lemma heap_bodies doc filename :
  map data (parse_heap doc filename) !! 0 = Some (data (root_cell doc filename)) /\
  forall a d, 0 < a -> map data (parse_heap doc filename) !! a = Some d ->
              content d = slice doc (char_start d) (char_end d).
Proof.
  unfold parse_heap.
  pose proof (parse_invariant doc filename
    (fun pre st =>
       map data (heap st) !! 0 = Some (data (root_cell doc filename)) /\
       forall a d, 0 < a -> S a < length (map data (heap st)) ->
                   map data (heap st) !! a = Some d ->
                   content d = slice doc (char_start d) (char_end d))) as H.
  destruct H as [Hinv [H0 Hc]].
  - split; [reflexivity|]. intros a d Ha Hl. simpl in Hl. lia.
  - intros pre line st Hinv [H0 Hc] _.
    destruct (heading_of line) as [[lvl ttl]|] eqn:Hh; [|auto].
    apply heading_of_level in Hh.
    rewrite (open_heading_datas doc _ _ _ _ _ _ Hinv) by lia.
    rewrite (close_top_datas doc _ _ _ Hinv).
    rewrite <- (length_map data (heap st)).
    destruct (closed_after_close doc (line_offset pre) _ _ H0 Hc) as [C0 Cc].
    set (Dc := if 1 <? length (map data (heap st)) then _ else _) in *.
    assert (Hlen : length Dc = length (map data (heap st))).
    { unfold Dc. destruct (1 <? _); [apply length_alter | reflexivity]. }
    split.
    + rewrite lookup_app_l; [exact C0|]. apply lookup_lt_Some in C0. exact C0.
    + intros a d Ha Hl Hd. rewrite length_app in Hl. simpl in Hl.
      rewrite lookup_app_l in Hd by lia. eauto.
  - rewrite (close_top_datas doc _ _ _ Hinv).
    rewrite <- (length_map data (heap _)).
    apply closed_after_close; assumption.
Qed.

(** The same on the tree. *)
Lemma nodes_bodies doc filename :
  (content (node_data (parse_markdown doc filename)) = [] /\
   char_start (node_data (parse_markdown doc filename)) = 0 /\
   char_end (node_data (parse_markdown doc filename)) = length doc) /\
  Forall (fun n => content (node_data n)
                   = slice doc (char_start (node_data n)) (char_end (node_data n)))
         (flat_map nodes_of (node_children (parse_markdown doc filename))).
Proof.
  destruct (parse_markdown_preorder doc filename) as [_ H].
  destruct (heap_bodies doc filename) as [H0 Hc]. rewrite <- H in H0, Hc.
  destruct (parse_markdown doc filename) as [a d ks]. simpl in *.
  injection H0 as ->. split; [auto|].
  apply List.Forall_forall. intros n Hn.
  apply list_elem_of_In, list_elem_of_lookup_1 in Hn as [i Hi].
  apply (Hc (S i) (node_data n)); [lia|]. simpl.
  change (map node_data (flat_map nodes_of ks))
    with (node_data <$> flat_map nodes_of ks).
  rewrite list_lookup_fmap, Hi. reflexivity.
Qed.

(** X5. [parse_markdown] makes one node for the root and one for every
    line that matches a heading pattern, and none else: listed in the
    order in which [get_all_chunks] and [_save_nodes] walk the tree
    (a node before its children, children from first to last), the nodes
    are the root, with the file name (or the default title) and level 0,
    followed by the headings in the order of their lines, each with the
    level of the first pattern that matches and the stripped text of its
    group as title. *)
Theorem parse_markdown_headings (doc filename : text) :
  map (fun n => (level (node_data n), title (node_data n)))
      (nodes_of (parse_markdown doc filename))
  = (0, match filename with [] => default_title | _ => filename end)
    :: omap heading_of (split_lines doc).
Proof. apply nodes_headings. Qed.

(** X6. In the tree of [parse_markdown] the root keeps the fields it was
    created with: an empty [content] and the range of the whole document;
    the text before the first heading is in the content of no node.  The
    [content] of every other node is the text of its range,
    [content[char_start:char_end]]. *)
Theorem parse_markdown_bodies (doc filename : text) :
  (content (node_data (parse_markdown doc filename)) = [] /\
   char_start (node_data (parse_markdown doc filename)) = 0 /\
   char_end (node_data (parse_markdown doc filename)) = length doc) /\
  Forall (fun n => content (node_data n)
                   = slice doc (char_start (node_data n)) (char_end (node_data n)))
         (flat_map nodes_of (node_children (parse_markdown doc filename))).
Proof. apply nodes_bodies. Qed.

(** *** The ranges of the sections *)

Lemma heading_spans_snoc pre : forall pos line,
  heading_spans pos (pre ++ [line]) =
  heading_spans pos pre ++
  match heading_of line with
  | Some _ => [(pos + line_offset pre, pos + line_offset pre + length line + 1)]
  | None => []
  end.
Proof.
  induction pre as [|a pre IH]; intros pos line.
  - cbn [app heading_spans]. unfold line_offset. simpl.
    rewrite Nat.add_0_r, app_nil_r. reflexivity.
  - cbn [app heading_spans]. rewrite IH, <- app_assoc.
    assert (E : line_offset (a :: pre) = length a + 1 + line_offset pre)
      by (unfold line_offset; simpl; unfold id; lia).
    rewrite E, !Nat.add_assoc. reflexivity.
Qed.

(** Closing the last of the sections moves its end, and nothing else. *)
Lemma close_last_ranges doc pos rootd (D : list NodeData) :
  let D' := if 1 <? length (rootd :: D)
            then alter (close_data doc pos) (length (rootd :: D) - 1) (rootd :: D)
            else rootd :: D in
  exists E, D' = rootd :: E /\
    map char_start E = map char_start D /\
    map char_end E = match D with
                     | [] => []
                     | _ => removelast (map char_end D) ++ [pos]
                     end.
Proof.
  destruct D as [|d D0] using rev_ind; [exists []; auto|]. clear IHD0.
  cbn zeta. replace (1 <? length (rootd :: D0 ++ [d])) with true.
  2:{ symmetry. apply Nat.ltb_lt. simpl. rewrite length_app. simpl. lia. }
  exists (D0 ++ [close_data doc pos d]). split; [|split].
  - replace (length (rootd :: D0 ++ [d]) - 1) with (length (rootd :: D0) + 0)
      by (simpl; rewrite length_app; simpl; lia).
    change (rootd :: D0 ++ [d]) with ((rootd :: D0) ++ [d]).
    rewrite alter_app_r. reflexivity.
  - rewrite !map_app. reflexivity.
  - rewrite !map_app. simpl. rewrite removelast_last.
    destruct (D0 ++ [d]) eqn:E; [destruct D0; discriminate | reflexivity].
Qed.

(** The ranges of the objects after the root: each one starts after its
    heading line and ends where the next heading line starts, the last
    one at the end of the document. *)
Lemma heap_ranges doc filename :
  exists D, map data (parse_heap doc filename) = data (root_cell doc filename) :: D /\
    map char_start D = map snd (heading_spans 0 (split_lines doc)) /\
    map char_end D = match heading_spans 0 (split_lines doc) with
                     | [] => []
                     | _ :: rest => map fst rest ++ [length doc]
                     end.
Proof.
  unfold parse_heap.
  pose proof (parse_invariant doc filename
    (fun pre st =>
       exists D, map data (heap st) = data (root_cell doc filename) :: D /\
         map char_start D = map snd (heading_spans 0 pre) /\
         map char_end D = match heading_spans 0 pre with
                          | [] => []
                          | _ :: rest => map fst rest ++ [length doc]
                          end)) as H.
  destruct H as [Hinv (D & HD & Hs & He)].
  - exists []. auto.
  - intros pre line st Hinv (D & HD & Hs & He) _.
    rewrite heading_spans_snoc.
    destruct (heading_of line) as [[lvl ttl]|] eqn:Hh.
    2:{ rewrite app_nil_r. exists D. auto. }
    apply heading_of_level in Hh.
    rewrite (open_heading_datas doc _ _ _ _ _ _ Hinv) by lia.
    rewrite (close_top_datas doc _ _ _ Hinv).
    rewrite <- (length_map data (heap st)), HD.
    destruct (close_last_ranges doc (line_offset pre) (data (root_cell doc filename)) D)
      as (E & -> & Es & Ee).
    eexists (E ++ [_]). split; [reflexivity|].
    rewrite !map_app, Es, Ee, Hs. cbn [map char_start char_end snd app].
    split; [reflexivity|].
    destruct (heading_spans 0 pre) as [|sp0 sps] eqn:Esp.
    + destruct D; [reflexivity | discriminate].
    + cbn [app]. destruct D as [|d0 D0]; [discriminate|].
      rewrite He, removelast_last, map_app. reflexivity.
  - rewrite (close_top_datas doc _ _ _ Hinv).
    rewrite <- (length_map data (heap _)), HD.
    destruct (close_last_ranges doc (length doc) (data (root_cell doc filename)) D)
      as (E & -> & Es & Ee).
    exists E. split; [reflexivity|]. rewrite Es, Ee, Hs. split; [reflexivity|].
    destruct (heading_spans 0 (split_lines doc)) as [|sp0 sps].
    + destruct D; [reflexivity | discriminate].
    + destruct D as [|d0 D0]; [destruct sps; discriminate|].
      rewrite He, removelast_last. reflexivity.
Qed.

(** X7. Where the sections of a parsed document start and end.  Listed in
    the order of the text, the nodes under the root have as [char_start]
    the offset just after their heading line and its line break, and as
    [char_end] the offset at which the next heading line starts, whatever
    its level (the range of a section does not reach into its
    subsections); the last one ends at the end of the document. *)
Theorem sections_run_between_headings (doc filename : text) :
  let spans := heading_spans 0 (split_lines doc) in
  let sections := flat_map nodes_of (node_children (parse_markdown doc filename)) in
  map (fun n => char_start (node_data n)) sections = map snd spans /\
  map (fun n => char_end (node_data n)) sections =
    match spans with
    | [] => []
    | _ :: rest => map fst rest ++ [length doc]
    end.
Proof.
  cbn zeta.
  destruct (parse_markdown_preorder doc filename) as [_ H].
  destruct (heap_ranges doc filename) as (D & HD & Hs & He).
  rewrite HD in H.
  destruct (parse_markdown doc filename) as [a d ks]. simpl in H.
  injection H as _ H. cbn [node_children].
  rewrite <- (map_map node_data char_start), <- (map_map node_data char_end), H.
  auto.
Qed.

(** The identifiers of the nodes under the root are not that of the root. *)
Lemma section_ids doc filename n :
  In n (flat_map nodes_of (node_children (parse_markdown doc filename))) ->
  In n (nodes_of (parse_markdown doc filename)) /\ node_id n <> 0.
Proof.
  intros Hn.
  destruct (parse_markdown_preorder doc filename) as [Hids _].
  destruct (parse_markdown doc filename) as [a d ks]. simpl in *.
  split; [auto|].
  destruct (length (parse_heap doc filename)) as [|m]; [discriminate|].
  simpl in Hids. injection Hids as _ Hids.
  assert (Hin : In (node_id n) (seq 1 m)).
  { rewrite <- Hids. apply in_map. exact Hn. }
  apply in_seq in Hin. lia.
Qed.

Lemma nodes_end_in_document doc filename :
  Forall (fun n => char_end (node_data n) <= length doc)
         (nodes_of (parse_markdown doc filename)).
Proof.
  destruct (parse_markdown_preorder doc filename) as [_ H].
  destruct (parse_heap_inv doc filename) as [_ _ Hend].
  apply List.Forall_forall. intros n Hn.
  assert (Hd : In (node_data n) (map data (parse_heap doc filename))).
  { rewrite <- H. apply in_map. exact Hn. }
  apply in_map_iff in Hd as (c & <- & Hc).
  apply list_elem_of_In, list_elem_of_lookup_1 in Hc as [a Ha].
  exact (Hend a c Ha).
Qed.

(** C1 (as amended). In the tree of [parse_markdown] the range of a node
    other than the root is its own body text only: listed in the order of
    the text, these nodes start just after their heading line and its
    line break and end where the next heading line starts, the last one
    at the end of the document.  Hence, under every node, the ranges of
    the children are pairwise disjoint and in document order: a child
    that is followed by another one has a well-formed range that ends
    strictly before the range of every later child begins; and the range
    of every node ends within the document.  But the ranges of the
    children do not cover the range of the parent: the children of every
    node other than the root start after the range of that node has
    ended. *)
Theorem sibling_ranges_ordered (doc filename : text) :
  let root := parse_markdown doc filename in
  let sections := flat_map nodes_of (node_children root) in
  let spans := heading_spans 0 (split_lines doc) in
  (map (fun n => char_start (node_data n)) sections = map snd spans /\
   map (fun n => char_end (node_data n)) sections =
     match spans with
     | [] => []
     | _ :: rest => map fst rest ++ [length doc]
     end) /\
  Forall (fun n => StronglySorted ends_before (node_children n) /\
                   char_end (node_data n) <= length doc)
         (nodes_of root) /\
  Forall (fun n => Forall (fun k => char_end (node_data n) < char_start (node_data k))
                          (node_children n))
         sections.
Proof.
  cbn zeta. split; [|split].
  - destruct (parse_markdown_preorder doc filename) as [_ H].
    destruct (heap_ranges doc filename) as (D & HD & Hs & He).
    rewrite HD in H.
    destruct (parse_markdown doc filename) as [a d ks]. simpl in H.
    injection H as _ H. cbn [node_children].
    rewrite <- (map_map node_data char_start), <- (map_map node_data char_end), H.
    auto.
  - pose proof (nodes_end_in_document doc filename) as Hend.
    rewrite List.Forall_forall in Hend |- *. intros n Hn.
    split; [|apply Hend, Hn].
    apply (parse_markdown_siblings_ordered doc filename n Hn).
  - apply List.Forall_forall. intros n Hn.
    destruct (section_ids doc filename n Hn) as [Hin Hid].
    apply (parse_markdown_siblings_ordered doc filename n Hin), Hid.
Qed.

(** C1, witness: the two chapters of [doc_two_chapters], the only
    children of the root. *)
Lemma sibling_ranges_ordered_witness :
  StronglySorted ends_before (node_children (parse_markdown doc_two_chapters [])) /\
  map (fun n => (char_start (node_data n), char_end (node_data n)))
      (node_children (parse_markdown doc_two_chapters []))
  = [(4, 6); (10, 11)].
Proof.
  split; [|vm_compute; reflexivity].
  destruct (sibling_ranges_ordered doc_two_chapters []) as (_ & H & _).
  apply Forall_inv in H. exact (proj1 H).
Defined.

(** *** The path of a chunk *)

Lemma descends_head n chain : descends n chain -> exists rest, chain = n :: rest.
Proof. destruct chain as [|m rest]; simpl; [tauto|]. intros [-> _]. eauto. Qed.

Lemma traverse_path cs ov n :
  forall parent_path c, In c (traverse cs ov n parent_path) ->
  exists chain m,
    descends n chain /\ last chain = Some m /\
    chunk_node_id c = node_id m /\
    chunk_node_path c
    = join PATH_SEP (parent_path ++ map (fun k => title (node_data k)) chain).
Proof.
  induction n as [id d kids IH] using DocNode_tree_ind.
  intros path c Hc. simpl in Hc.
  apply in_app_or in Hc as [Hc | Hc].
  - exists [Node id d kids], (Node id d kids). simpl.
    split; [auto|]. split; [reflexivity|].
    unfold node_chunks in Hc.
    destruct (nonempty (content d) && nonempty (strip (content d))); [|destruct Hc].
    apply in_map_iff in Hc as (piece & <- & _). auto.
  - apply in_flat_map in Hc as (k & Hk & Hc).
    rewrite List.Forall_forall in IH.
    destruct (IH k Hk _ _ Hc) as (chain & m & Hd & Hl & Hid & Hp).
    destruct (descends_head _ _ Hd) as [rest ->].
    exists (Node id d kids :: k :: rest), m.
    split; [|split; [|split]].
    + cbn [descends node_children]. auto.
    + exact Hl.
    + exact Hid.
    + rewrite Hp, <- app_assoc. reflexivity.
Qed.

(** X8. The [node_path] of a chunk names the way from the root to the node
    of the chunk: there is a chain of nodes that starts with the root,
    goes from each node to one of its children and ends with the node
    whose [node_id] the chunk carries, and the [node_path] is the titles
    along that chain, joined by [" > "]. *)
Theorem chunk_path_from_root (root : DocNode) (chunk_size overlap : Z) :
  Forall (fun c =>
            exists chain m,
              descends root chain /\ last chain = Some m /\
              chunk_node_id c = node_id m /\
              chunk_node_path c
              = join PATH_SEP (map (fun k => title (node_data k)) chain))
         (get_all_chunks root chunk_size overlap).
Proof.
  apply List.Forall_forall. intros c Hc.
  apply (traverse_path chunk_size overlap root [] c Hc).
Qed.

(** *** Parsing, then cutting *)

Lemma node_chunks_fields cs ov id d path c :
  In c (node_chunks cs ov id d path) ->
  nonempty (strip (content d)) = true /\
  chunk_node_id c = id /\
  chunk_level c = level d /\
  chunk_char_start c = char_start d /\
  chunk_char_end c = char_end d /\
  In (chunk_content c) (_smart_split (content d) cs ov).
Proof.
  unfold node_chunks.
  destruct (nonempty (content d)); simpl; [|tauto].
  destruct (nonempty (strip (content d))); simpl; [|tauto].
  rewrite in_map_iff. intros (piece & <- & Hin). simpl. auto 10.
Qed.

Lemma traverse_fields cs ov n :
  forall path c, In c (traverse cs ov n path) ->
  exists m, In m (nodes_of n) /\
    nonempty (strip (content (node_data m))) = true /\
    chunk_node_id c = node_id m /\
    chunk_level c = level (node_data m) /\
    chunk_char_start c = char_start (node_data m) /\
    chunk_char_end c = char_end (node_data m) /\
    In (chunk_content c) (_smart_split (content (node_data m)) cs ov).
Proof.
  induction n as [id d kids IH] using DocNode_tree_ind.
  intros path c Hc. simpl in Hc.
  apply in_app_or in Hc as [Hc | Hc].
  - exists (Node id d kids). split; [simpl; auto|].
    simpl. eapply node_chunks_fields; eauto.
  - apply in_flat_map in Hc as (k & Hk & Hc).
    rewrite List.Forall_forall in IH.
    destruct (IH k Hk _ _ Hc) as (m & Hm & Hrest).
    exists m. split; [|exact Hrest].
    simpl. right. apply in_flat_map. eauto.
Qed.

(** A node of the tree of [parse_markdown] that has content: it is not
    the root, its level is that of a heading, its range lies in the
    document and holds its content. *)
Lemma section_node doc filename m :
  In m (nodes_of (parse_markdown doc filename)) ->
  content (node_data m) <> [] ->
  (exists line, In line (split_lines doc) /\
                heading_of line = Some (level (node_data m), title (node_data m))) /\
  content (node_data m) = slice doc (char_start (node_data m)) (char_end (node_data m)) /\
  char_start (node_data m) < char_end (node_data m) <= length doc.
Proof.
  intros Hm Hne.
  assert (Hend : char_end (node_data m) <= length doc).
  { pose proof (parse_tree_total doc filename) as Ht. unfold parse_tree in Ht.
    destruct (tree_of_nodes _ _ _ _ Ht m Hm) as (c & Hc & Hd & _).
    destruct (parse_heap_inv doc filename) as [_ _ Hend].
    rewrite Hd. eapply Hend. exact Hc. }
  pose proof (nodes_headings doc filename) as Hh.
  destruct (nodes_bodies doc filename) as [(Hroot & _) Hb].
  destruct (parse_markdown doc filename) as [a d ks]. simpl in *.
  destruct Hm as [<- | Hm]; [simpl in Hne; congruence|].
  injection Hh as _ _ Hh.
  rewrite List.Forall_forall in Hb. specialize (Hb m Hm).
  split; [|split; [exact Hb|split; [|exact Hend]]].
  - assert (Hin : In (level (node_data m), title (node_data m))
                     (omap heading_of (split_lines doc))).
    { rewrite <- Hh. apply (in_map (fun n => (level (node_data n), title (node_data n)))).
      exact Hm. }
    apply list_elem_of_In, list_elem_of_omap in Hin as (line & Hl & E).
    exists line. split; [apply list_elem_of_In, Hl | exact E].
  - rewrite Hb in Hne. unfold slice in Hne.
    destruct (char_end (node_data m) - char_start (node_data m)) eqn:E; [|lia].
    rewrite take_0 in Hne. congruence.
Qed.

Lemma strip_nonempty (s : text) : nonempty (strip s) = true -> s <> [].
Proof. intros H ->. discriminate. Qed.

(** X9. Every chunk that [get_all_chunks] makes of a parsed document is
    cut from a section: its level is that of a heading, between 1 and 4,
    never that of the root; the range it records is not empty and lies
    in the document; and the chunk is one of the pieces into which
    [_smart_split] cuts the text of that range. *)
Theorem chunks_cut_from_sections (doc filename : text) (chunk_size overlap : Z)
    (c : Chunk) :
  In c (get_all_chunks (parse_markdown doc filename) chunk_size overlap) ->
  1 <= chunk_level c <= 4 /\
  chunk_char_start c < chunk_char_end c <= length doc /\
  In (chunk_content c)
     (_smart_split (slice doc (chunk_char_start c) (chunk_char_end c))
                   chunk_size overlap).
Proof.
  intros Hc. unfold get_all_chunks in Hc.
  apply traverse_fields in Hc as (m & Hm & Hn & _ & Hl & Hs & He & Hin).
  apply strip_nonempty in Hn.
  destruct (section_node doc filename m Hm Hn) as ((line & _ & Hh) & Hb & Hr).
  apply heading_of_level in Hh.
  rewrite Hl, Hs, He, <- Hb. auto.
Qed.

(** X9, witness: the first chunk of [doc_outline]. *)
Lemma chunks_cut_from_sections_witness :
  1 <= chunk_level (nth 0 (get_all_chunks (parse_markdown doc_outline []) 400 50)
                           (mkChunk [] 0 [] 0 0 0)) <= 4.
Proof.
  refine (proj1 (chunks_cut_from_sections doc_outline [] 400 50 _ _)).
  vm_compute. left. reflexivity.
Defined.

Lemma omap_all_none {A B} (f : A -> option B) l :
  Forall (fun x => f x = None) l -> omap f l = [].
Proof.
  induction 1 as [|x l Hx _ IH]; [reflexivity|].
  cbn [omap list_omap]. rewrite Hx. exact IH.
Qed.

(** X10. A document without a heading line gives no chunk at all, whatever
    its text: the root is the only node, and the root has no content. *)
Theorem no_heading_no_chunk (doc filename : text) (chunk_size overlap : Z) :
  Forall (fun line => heading_of line = None) (split_lines doc) ->
  get_all_chunks (parse_markdown doc filename) chunk_size overlap = [].
Proof.
  intros Hnone.
  destruct (get_all_chunks _ _ _) as [|c l] eqn:E; [reflexivity|]. exfalso.
  assert (Hc : In c (get_all_chunks (parse_markdown doc filename) chunk_size overlap))
    by (rewrite E; left; reflexivity).
  unfold get_all_chunks in Hc.
  apply traverse_fields in Hc as (m & Hm & Hn & _).
  apply strip_nonempty in Hn.
  destruct (section_node doc filename m Hm Hn) as ((line & Hl & Hh) & _).
  rewrite List.Forall_forall in Hnone. rewrite (Hnone line Hl) in Hh. discriminate.
Qed.

(** X10, witness: three lines of plain text. *)
Lemma no_heading_no_chunk_witness :
  get_all_chunks
    (parse_markdown (text_of_string ("plain text" ++ LF ++ LF ++ "#no heading")) [])
    400 50 = [].
Proof.
  apply (no_heading_no_chunk
           (text_of_string ("plain text" ++ LF ++ LF ++ "#no heading")) [] 400 50).
  apply List.Forall_forall. intros line Hl. vm_compute in Hl.
  repeat (destruct Hl as [<- | Hl]; [vm_compute; reflexivity|]). destruct Hl.
Defined.

(** *** The order of the chunks *)

Lemma sorted_app_iff {A} (R : A -> A -> Prop) l1 l2 :
  StronglySorted R (l1 ++ l2) <->
  StronglySorted R l1 /\ StronglySorted R l2 /\
  forall x y, In x l1 -> In y l2 -> R x y.
Proof.
  induction l1 as [|a l1 IH]; simpl.
  - split; [intros H; repeat split; [constructor | exact H | tauto] | tauto].
  - split.
    + intros H. apply StronglySorted_inv in H as [H Ha].
      apply IH in H as (H1 & H2 & H12).
      apply List.Forall_app in Ha as [Ha1 Ha2].
      split; [constructor; assumption|]. split; [exact H2|].
      intros x y [<- | Hx] Hy; [|auto].
      rewrite List.Forall_forall in Ha2. auto.
    + intros (H1 & H2 & H12). apply StronglySorted_inv in H1 as [H1 Ha].
      constructor.
      * apply IH. auto.
      * apply List.Forall_app. split; [exact Ha|].
        apply List.Forall_forall. auto.
Qed.

Lemma sorted_of_lookup {A} (R : A -> A -> Prop) l :
  (forall i j x y, i < j -> l !! i = Some x -> l !! j = Some y -> R x y) ->
  StronglySorted R l.
Proof.
  induction l as [|a l IH]; intros H; constructor.
  - apply IH. intros i j x y Hij Hi Hj. apply (H (S i) (S j)); [lia | exact Hi | exact Hj].
  - apply List.Forall_forall. intros y Hy.
    apply list_elem_of_In, list_elem_of_lookup_1 in Hy as [j Hj].
    apply (H 0 (S j)); [lia | reflexivity | exact Hj].
Qed.

Lemma node_chunks_sorted cs ov id d path :
  StronglySorted chunk_before (node_chunks cs ov id d path).
Proof.
  apply sorted_of_lookup. intros i j x y _ Hi Hj.
  apply list_elem_of_lookup_2, list_elem_of_In, node_chunks_fields in Hi
    as (_ & Hi1 & _ & Hi2 & Hi3 & _).
  apply list_elem_of_lookup_2, list_elem_of_In, node_chunks_fields in Hj
    as (_ & Hj1 & _ & Hj2 & Hj3 & _).
  left. repeat split; congruence.
Qed.

Lemma traverse_sorted cs ov n :
  forall path,
    StronglySorted section_before (nodes_of n) ->
    StronglySorted chunk_before (traverse cs ov n path).
Proof.
  induction n as [id d kids IH] using DocNode_tree_ind.
  intros path Hs. cbn [traverse nodes_of] in *.
  apply StronglySorted_inv in Hs as [Hs Hn].
  apply sorted_app_iff. split; [apply node_chunks_sorted|]. split.
  - set (cp := path ++ [title d]). clearbody cp.
    induction kids as [|k kids IHk]; [constructor|].
    apply List.Forall_cons_iff in IH as [IH1 IH2].
    cbn [flat_map] in *. apply sorted_app_iff in Hs as (Hs1 & Hs2 & Hs12).
    apply List.Forall_app in Hn as [Hn1 Hn2].
    apply sorted_app_iff. split; [apply IH1, Hs1|]. split; [apply IHk; assumption|].
    intros x y Hx Hy.
    apply traverse_fields in Hx as (m1 & Hm1 & Hb1 & _ & _ & _ & He1 & _).
    apply in_flat_map in Hy as (k' & Hk' & Hy).
    apply traverse_fields in Hy as (m2 & Hm2 & Hb2 & _ & _ & Hs2' & _).
    right. rewrite He1, Hs2'.
    apply (Hs12 m1 m2); [exact Hm1 | | apply strip_nonempty, Hb1 | apply strip_nonempty, Hb2].
    apply in_flat_map. eauto.
  - intros x y Hx Hy.
    apply node_chunks_fields in Hx as (Hb1 & _ & _ & _ & He1 & _).
    apply in_flat_map in Hy as (k' & Hk' & Hy).
    apply traverse_fields in Hy as (m2 & Hm2 & Hb2 & _ & _ & Hs2' & _).
    right. rewrite He1, Hs2'.
    rewrite List.Forall_forall in Hn.
    apply (Hn m2); [| apply strip_nonempty, Hb1 | apply strip_nonempty, Hb2].
    apply in_flat_map. eauto.
Qed.

Lemma nodes_in_order doc filename :
  StronglySorted section_before (nodes_of (parse_markdown doc filename)).
Proof.
  destruct (parse_markdown_preorder doc filename) as [_ Hd].
  destruct (nodes_bodies doc filename) as [(Hroot & _) _].
  destruct (parse_heap_inv doc filename) as [_ Horder _].
  apply sorted_of_lookup. intros i j x y Hij Hi Hj H1 H2.
  assert (Hx : map node_data (nodes_of (parse_markdown doc filename)) !! i
               = Some (node_data x)).
  { change (map node_data ?l) with (node_data <$> l).
    rewrite list_lookup_fmap, Hi. reflexivity. }
  assert (Hy : map node_data (nodes_of (parse_markdown doc filename)) !! j
               = Some (node_data y)).
  { change (map node_data ?l) with (node_data <$> l).
    rewrite list_lookup_fmap, Hj. reflexivity. }
  rewrite Hd in Hx, Hy.
  change (map data ?l) with (data <$> l) in Hx, Hy.
  rewrite list_lookup_fmap in Hx, Hy.
  apply fmap_Some in Hx as (cx & Hcx & Ex). apply fmap_Some in Hy as (cy & Hcy & Ey).
  rewrite Ex, Ey.
  destruct i as [|i].
  - exfalso. apply H1.
    destruct (parse_markdown doc filename) as [a d ks]. simpl in *.
    injection Hi as <-. exact Hroot.
  - apply (Horder (S i) j cx cy); [lia | exact Hij | exact Hcx | exact Hcy].
Qed.

(** X11. The chunks of a parsed document come in the order of the text:
    of any two chunks of the list, the earlier one either belongs to the
    same node as the later one and carries the same range, or carries a
    range that ends before the range of the later one starts. *)
Theorem chunks_in_document_order (doc filename : text) (chunk_size overlap : Z) :
  StronglySorted chunk_before
    (get_all_chunks (parse_markdown doc filename) chunk_size overlap).
Proof. apply traverse_sorted, nodes_in_order. Qed.

(** *** The loop on values *)

Lemma v_scan_ind doc filename (J : list text -> list frame -> Prop) :
  J [] (frames (v_init doc filename)) ->
  (forall pre line sp, J pre sp -> heading_of line = None -> J (pre ++ [line]) sp) ->
  (forall pre line sp lvl ttl n pos,
      J pre sp -> heading_of line = Some (lvl, ttl) ->
      J (pre ++ [line]) (v_open doc pos line lvl ttl n sp)) ->
  forall lines, J lines (frames (v_scan doc filename lines)).
Proof.
  intros H0 Hnone Hsome lines.
  induction lines as [|line lines IH] using rev_ind; [exact H0|].
  rewrite v_scan_snoc. unfold v_visit.
  destruct (heading_of line) as [[lvl ttl]|] eqn:E; cbn [frames]; eauto.
Qed.

Lemma v_close_cases doc pos sp :
  v_close doc pos sp = sp \/
  exists fs fl, sp = fs ++ [fl] /\
    v_close doc pos sp
    = fs ++ [mkFrame (f_id fl) (close_data doc pos (f_data fl)) (f_kids fl)].
Proof.
  unfold v_close. destruct (1 <? length sp); [|auto].
  destruct sp as [|fl fs] using rev_ind; [auto|]. right.
  exists fs, fl. split; [reflexivity|].
  rewrite length_app. simpl.
  replace (length fs + 1 - 1) with (length fs + 0) by lia.
  rewrite alter_app_r. reflexivity.
Qed.

Lemma v_close_length doc pos sp : length (v_close doc pos sp) = length sp.
Proof. unfold v_close. destruct (1 <? _); [apply length_alter | reflexivity]. Qed.

(** The stack after the pops: the open nodes up to the parent of the new
    node; the nodes that were popped make up the last child of the
    parent. *)
Lemma collapse_shape lvl sp :
  1 <= lvl -> sp <> [] ->
  exists p,
    sp !! (Nat.min lvl (length sp) - 1) = Some p /\
    collapse lvl sp
    = take (Nat.min lvl (length sp) - 1) sp
      ++ [mkFrame (f_id p) (f_data p)
                  (f_kids p ++ plug (drop (Nat.min lvl (length sp)) sp))].
Proof.
  intros Hl Hne. destruct lvl as [|l]; [lia|]. unfold collapse.
  destruct (sp !! l) as [p|] eqn:E.
  - apply lookup_lt_Some in E as Hlt.
    replace (Nat.min (S l) (length sp)) with (S l) by lia.
    replace (S l - 1) with l by lia. eauto.
  - apply lookup_ge_None in E.
    replace (Nat.min (S l) (length sp)) with (length sp) by lia.
    destruct sp as [|p fs] using rev_ind; [congruence|]. clear IHfs.
    rewrite length_app in *. simpl in *.
    exists p. replace (length fs + 1 - 1) with (length fs) by lia.
    split; [rewrite lookup_app_r, Nat.sub_diag by lia; reflexivity|].
    rewrite app_nil_r, take_ge by (rewrite length_app; simpl; lia).
    rewrite take_app_length.
    rewrite drop_ge by (rewrite length_app; simpl; lia).
    simpl. rewrite app_nil_r. destruct p; reflexivity.
Qed.

(** **** Depths and levels *)

Lemma depth_levels_plug d f fs :
  flat_map (depth_levels d) (plug (f :: fs))
  = (d, level (f_data f))
    :: flat_map (depth_levels (S d)) (f_kids f)
    ++ flat_map (depth_levels (S d)) (plug fs).
Proof. simpl. rewrite app_nil_r, flat_map_app. reflexivity. Qed.

Lemma depth_levels_alter_last fs : forall d fl x,
  level x = level (f_data fl) ->
  flat_map (depth_levels d) (plug (fs ++ [mkFrame (f_id fl) x (f_kids fl)]))
  = flat_map (depth_levels d) (plug (fs ++ [fl])).
Proof.
  induction fs as [|f fs IH]; intros d fl x Hx.
  - cbn [app]. rewrite !depth_levels_plug. simpl. rewrite Hx. reflexivity.
  - change ((f :: fs) ++ [?a]) with (f :: (fs ++ [a])).
    rewrite !depth_levels_plug, IH by exact Hx. reflexivity.
Qed.

Lemma depth_levels_snoc fs : forall d g,
  f_kids g = [] ->
  flat_map (depth_levels d) (plug (fs ++ [g]))
  = flat_map (depth_levels d) (plug fs) ++ [(d + length fs, level (f_data g))].
Proof.
  induction fs as [|f fs IH]; intros d g Hg.
  - cbn [app]. rewrite depth_levels_plug, Hg. simpl.
    replace (d + 0) with d by lia. reflexivity.
  - change ((f :: fs) ++ [g]) with (f :: (fs ++ [g])).
    rewrite !depth_levels_plug, IH by exact Hg. cbn [length].
    rewrite Nat.add_succ_r, <- app_comm_cons, <- !app_assoc. reflexivity.
Qed.

Lemma depth_levels_close doc pos sp d :
  flat_map (depth_levels d) (plug (v_close doc pos sp))
  = flat_map (depth_levels d) (plug sp).
Proof.
  destruct (v_close_cases doc pos sp) as [-> | (fs & fl & -> & ->)]; [reflexivity|].
  apply depth_levels_alter_last. reflexivity.
Qed.

(** A new heading adds one node, at the depth of the stack after the
    pops. *)
Lemma depth_levels_open doc pos line lvl ttl n sp :
  1 <= lvl -> sp <> [] ->
  flat_map (depth_levels 0) (plug (v_open doc pos line lvl ttl n sp))
  = flat_map (depth_levels 0) (plug sp) ++ [(Nat.min lvl (length sp), lvl)].
Proof.
  intros Hl Hne. unfold v_open. cbv zeta.
  rewrite depth_levels_snoc by reflexivity.
  rewrite plug_collapse, depth_levels_close by exact Hl.
  assert (Hne1 : v_close doc pos sp <> []).
  { intros E. apply (f_equal (@length _)) in E. rewrite v_close_length in E.
    destruct sp; [congruence | discriminate]. }
  destruct (collapse_shape lvl _ Hl Hne1) as (p & Hp & ->).
  rewrite v_close_length in *.
  rewrite length_app, length_take, v_close_length. simpl.
  apply lookup_lt_Some in Hp. rewrite v_close_length in Hp.
  do 2 f_equal. f_equal. lia.
Qed.

Lemma v_open_length doc pos line lvl ttl n sp :
  1 <= lvl -> sp <> [] ->
  length (v_open doc pos line lvl ttl n sp) = S (Nat.min lvl (length sp)).
Proof.
  intros Hl Hne. unfold v_open. cbv zeta.
  assert (Hne1 : v_close doc pos sp <> []).
  { intros E. apply (f_equal (@length _)) in E. rewrite v_close_length in E.
    destruct sp; [congruence | discriminate]. }
  destruct (collapse_shape lvl _ Hl Hne1) as (p & Hp & ->).
  rewrite v_close_length in *.
  rewrite !length_app, length_take, v_close_length. simpl.
  apply lookup_lt_Some in Hp. rewrite v_close_length in Hp. lia.
Qed.

Lemma v_open_nonempty doc pos line lvl ttl n sp :
  v_open doc pos line lvl ttl n sp <> [].
Proof. unfold v_open. cbv zeta. destruct (collapse _ _); discriminate. Qed.

Lemma frames_nonempty doc filename lines :
  frames (v_scan doc filename lines) <> [].
Proof.
  apply (v_scan_ind doc filename (fun _ sp => sp <> [])).
  - discriminate.
  - auto.
  - intros. apply v_open_nonempty.
Qed.

Lemma parse_depth_levels doc filename :
  depth_levels 0 (parse_markdown doc filename)
  = flat_map (depth_levels 0) (plug (frames (v_scan doc filename (split_lines doc)))).
Proof.
  rewrite <- depth_levels_close with (doc := doc) (pos := length doc).
  fold (v_parse doc filename). rewrite parse_markdown_on_values.
  simpl. rewrite app_nil_r. reflexivity.
Qed.

(** X12. In the tree of [parse_markdown] no node lies deeper than its
    heading level says: a node at depth [d] (the [node_level] under
    which [_save_nodes] stores it) has a level of [d] at least; the
    stack is cut to [level] entries before the new node is pushed. *)
Theorem depth_at_most_level (doc filename : text) :
  Forall (fun p => fst p <= snd p) (depth_levels 0 (parse_markdown doc filename)).
Proof.
  rewrite parse_depth_levels.
  apply (v_scan_ind doc filename
           (fun _ sp => sp <> [] /\
              Forall (fun p => fst p <= snd p) (flat_map (depth_levels 0) (plug sp)))).
  - split; [discriminate|]. repeat constructor.
  - auto.
  - intros pre line sp lvl ttl n pos [Hne H] Hh.
    apply heading_of_level in Hh.
    split; [apply v_open_nonempty|].
    rewrite depth_levels_open by (lia || exact Hne).
    apply List.Forall_app. split; [exact H|]. repeat constructor. simpl. lia.
Qed.

Lemma no_skip_snoc prev ls l :
  no_skip prev (ls ++ [l]) <-> no_skip prev ls /\ l <= S (default prev (last ls)).
Proof.
  revert prev. induction ls as [|x ls IH]; intros prev; simpl.
  - tauto.
  - rewrite IH. rewrite last_cons. destruct (last ls); simpl; tauto.
Qed.

(** X13. On a document whose headings go down by one level at most at a
    time (the first heading has level 1, and every heading has at most
    one level more than the heading before it), the tree follows the
    levels: every node lies at the depth of its level. *)
Theorem well_nested_depth_is_level (doc filename : text) :
  no_skip 0 (map fst (omap heading_of (split_lines doc))) ->
  Forall (fun p => fst p = snd p) (depth_levels 0 (parse_markdown doc filename)).
Proof.
  intros Hns. rewrite parse_depth_levels.
  refine (proj1 (proj2 (v_scan_ind doc filename
           (fun pre sp =>
              no_skip 0 (map fst (omap heading_of pre)) ->
              sp <> [] /\
              Forall (fun p => fst p = snd p) (flat_map (depth_levels 0) (plug sp)) /\
              length sp = S (default 0 (last (map fst (omap heading_of pre)))))
           _ _ _ (split_lines doc) Hns))).
  - intros _. split; [discriminate|]. split; [repeat constructor | reflexivity].
  - intros pre line sp IH Hh. rewrite omap_app. simpl. rewrite Hh, app_nil_r. exact IH.
  - intros pre line sp lvl ttl n pos IH Hh.
    rewrite omap_app. simpl. rewrite Hh. simpl. rewrite map_app. simpl.
    intros H. apply no_skip_snoc in H as [H Hl].
    destruct (IH H) as (Hne & HF & Hlen).
    apply heading_of_level in Hh.
    split; [apply v_open_nonempty|]. split.
    + rewrite depth_levels_open by (lia || exact Hne).
      apply List.Forall_app. split; [exact HF|]. repeat constructor. simpl. lia.
    + rewrite v_open_length by (lia || exact Hne). rewrite last_snoc. simpl. lia.
Qed.

(** X13, witness: the headings of [doc_outline], of levels 1, 2 and 1. *)
Lemma well_nested_depth_is_level_witness :
  Forall (fun p => fst p = snd p) (depth_levels 0 (parse_markdown doc_outline [])).
Proof.
  apply (well_nested_depth_is_level doc_outline []).
  vm_compute. repeat split; lia.
Defined.

(** **** The field [index] *)

Lemma nodes_plug f fs :
  flat_map nodes_of (plug (f :: fs))
  = Node (f_id f) (f_data f) (f_kids f ++ plug fs)
    :: flat_map nodes_of (f_kids f) ++ flat_map nodes_of (plug fs).
Proof. simpl. rewrite app_nil_r, flat_map_app. reflexivity. Qed.

Lemma index_chain_snoc prev ks k :
  index_chain prev (ks ++ [k]) <->
  index_chain prev ks /\
  index (node_data k) = match last ks with
                        | Some l => length (node_children l)
                        | None => prev
                        end.
Proof.
  revert prev. induction ks as [|x ks IH]; intros prev; simpl.
  - tauto.
  - rewrite IH, last_cons. destruct (last ks); tauto.
Qed.

(** The chain looks at the last child for its [index] only. *)
Lemma index_chain_roots prev ks (ts ts' : list DocNode) :
  length ts <= 1 ->
  map (fun t => index (node_data t)) ts = map (fun t => index (node_data t)) ts' ->
  index_chain prev (ks ++ ts) -> index_chain prev (ks ++ ts').
Proof.
  intros Hlen E.
  destruct ts as [|t [|t2 ts]]; [| |simpl in Hlen; lia].
  - destruct ts'; [auto | discriminate].
  - destruct ts' as [|t' [|t2' ts']]; try discriminate.
    injection E as E. rewrite !index_chain_snoc, E. auto.
Qed.

Lemma plug_length fs : length (plug fs) <= 1.
Proof. destruct fs; simpl; lia. Qed.

Lemma rule_alter_last fs : forall fl x,
  index x = index (f_data fl) ->
  Forall (fun n => index_chain 0 (node_children n))
         (flat_map nodes_of (plug (fs ++ [fl]))) ->
  Forall (fun n => index_chain 0 (node_children n))
         (flat_map nodes_of (plug (fs ++ [mkFrame (f_id fl) x (f_kids fl)]))).
Proof.
  induction fs as [|f fs IH]; intros fl x Hx.
  - cbn [app]. rewrite !nodes_plug. intros H.
    apply List.Forall_cons_iff in H as [H1 H2]. constructor; assumption.
  - change ((f :: fs) ++ [?a]) with (f :: (fs ++ [a])).
    rewrite !nodes_plug. intros H.
    apply List.Forall_cons_iff in H as [H1 H2].
    apply List.Forall_app in H2 as [H2 H3].
    constructor; [|apply List.Forall_app; split; [exact H2 | apply IH; assumption]].
    simpl in *. eapply index_chain_roots; [apply plug_length | | exact H1].
    destruct fs; simpl; [rewrite Hx|]; reflexivity.
Qed.

Lemma rule_snoc fs : forall p g,
  last fs = Some p -> f_kids g = [] ->
  index (f_data g) = match last (f_kids p) with
                     | Some l => length (node_children l)
                     | None => 0
                     end ->
  Forall (fun n => index_chain 0 (node_children n))
         (flat_map nodes_of (plug fs)) ->
  Forall (fun n => index_chain 0 (node_children n))
         (flat_map nodes_of (plug (fs ++ [g]))).
Proof.
  induction fs as [|f fs IH]; intros p g Hl Hg Hi; [discriminate|].
  change ((f :: fs) ++ [g]) with (f :: (fs ++ [g])).
  rewrite !nodes_plug. intros H.
  apply List.Forall_cons_iff in H as [H1 H2].
  apply List.Forall_app in H2 as [H2 H3].
  destruct fs as [|f' fs].
  - injection Hl as <-. simpl in *. rewrite app_nil_r in H1. rewrite Hg.
    constructor; [apply index_chain_snoc; auto|].
    apply List.Forall_app. split; [exact H2|]. repeat constructor.
  - rewrite last_cons_cons in Hl.
    constructor; [|apply List.Forall_app; split; [exact H2 | eapply IH; eassumption]].
    cbn [node_children] in *.
    eapply index_chain_roots; [apply plug_length | | exact H1]. reflexivity.
Qed.

(** X14. What the field [index] of a node holds.  In the tree of
    [parse_markdown] the first child of every node has [index = 0], and
    every later child has as [index] the number of children of the
    sibling just before it, not its own position among the siblings: the
    code reads [len(stack[level].children)] before the pops. *)
Theorem index_follows_previous_sibling (doc filename : text) :
  Forall (fun n => index_chain 0 (node_children n))
         (nodes_of (parse_markdown doc filename)).
Proof.
  assert (H : Forall (fun n => index_chain 0 (node_children n))
                     (flat_map nodes_of (v_parse doc filename))).
  2:{ rewrite parse_markdown_on_values in H. simpl in H.
      rewrite app_nil_r in H. exact H. }
  unfold v_parse.
  assert (Hclose : forall pos sp,
    sp <> [] /\
    (forall f, last sp = Some f -> f_kids f = []) /\
    Forall (fun n => index_chain 0 (node_children n)) (flat_map nodes_of (plug sp)) ->
    v_close doc pos sp <> [] /\
    (forall f, last (v_close doc pos sp) = Some f -> f_kids f = []) /\
    Forall (fun n => index_chain 0 (node_children n))
           (flat_map nodes_of (plug (v_close doc pos sp)))).
  { intros pos sp (Hne & Hk & Hr).
    destruct (v_close_cases doc pos sp) as [-> | (fs & fl & -> & ->)]; [auto|].
    split; [destruct fs; discriminate|]. split.
    - intros f Hf. rewrite last_snoc in Hf. injection Hf as <-. simpl.
      apply Hk, last_snoc.
    - apply rule_alter_last; [reflexivity | exact Hr]. }
  apply Hclose.
  apply (v_scan_ind doc filename
           (fun _ sp =>
              sp <> [] /\
              (forall f, last sp = Some f -> f_kids f = []) /\
              Forall (fun n => index_chain 0 (node_children n))
                     (flat_map nodes_of (plug sp)))).
  - split; [discriminate|].
    split; [intros f [= <-]; reflexivity | repeat constructor].
  - auto.
  - intros pre line sp lvl ttl n pos IH Hh.
    apply heading_of_level in Hh.
    destruct (Hclose pos sp IH) as (Hne1 & Hk & Hr).
    split; [apply v_open_nonempty|].
    unfold v_open. cbv zeta.
    set (sp1 := v_close doc pos sp) in *.
    split; [intros f Hf; rewrite last_snoc in Hf; injection Hf as <-; reflexivity|].
    destruct (collapse_shape lvl sp1 ltac:(lia) Hne1) as (p & Hp & Ec).
    rewrite <- (plug_collapse lvl sp1) in Hr by lia.
    rewrite Ec in Hr |- *.
    eapply rule_snoc; [apply last_snoc | reflexivity | | exact Hr].
    cbn [f_data index f_kids].
    unfold v_sibling_index.
    destruct (sp1 !! lvl) as [f|] eqn:Ef.
    + apply lookup_lt_Some in Ef as Hlt.
      replace (Nat.min lvl (length sp1)) with lvl by lia.
      rewrite (drop_S _ _ _ Ef). cbn [plug]. rewrite last_snoc. reflexivity.
    + apply lookup_ge_None in Ef.
      replace (Nat.min lvl (length sp1)) with (length sp1) in * by lia.
      rewrite drop_all. cbn [plug]. rewrite app_nil_r.
      rewrite (Hk p); [reflexivity|].
      rewrite last_lookup. rewrite <- Hp. f_equal. lia.
Qed.

(** ** Retrieval: bounds, provenance, and what indexing leaves to find *)

Section SearchFacts.
Variable cosine_distance : vector -> vector -> Q.
Local Open Scope Q_scope.

(** The rows of the join come from an embedding row and the chunk row it
    points to. *)
Lemma joined_rows_in q s c :
  In c (joined_rows cosine_distance q s) ->
  exists ce dc,
    In ce (chunk_embeddings s) /\ In dc (document_chunks s) /\
    chunk_id dc = emb_chunk_id ce /\
    c_chunk_id c = chunk_id dc /\
    c_document_id c = document_id dc /\
    c_content c = row_content dc /\
    c_metadata c = metadata dc /\
    c_node_id c = row_node_id dc /\
    c_vector_score c = 1 - cosine_distance (embedding ce) q.
Proof.
  unfold joined_rows. intros H.
  apply in_flat_map in H as (ce & Hce & H).
  apply in_flat_map in H as (dc & Hdc & H).
  apply list_elem_of_In, list_elem_of_filter in Hdc as [Hid Hdc].
  apply list_elem_of_In in Hdc.
  exists ce, dc. split; [exact Hce|]. split; [exact Hdc|]. split; [exact Hid|].
  destruct (filter _ (doc_nodes s)) as [|dn dns].
  - destruct H as [<- | []]. simpl. auto 10.
  - apply in_map_iff in H as (dn' & <- & _). simpl. auto 10.
Qed.

(** X15. [hybrid_search] returns at most [top_k] entries.  Each of them is a
    chunk that has an embedding row: it carries the id, the document id
    and the content of the stored chunk, its [vector_score] is one minus
    the distance of that embedding to the query and is at least
    [min_score], and its final [score] is at most [1] and at most
    [vector_score + node_boost]. *)
Theorem hybrid_search_sound query q top_k min_score ids s :
  (length (hybrid_search cosine_distance query q top_k min_score ids s) <= top_k)%nat /\
  forall r, In r (hybrid_search cosine_distance query q top_k min_score ids s) ->
    (exists ce dc,
        In ce (chunk_embeddings s) /\ In dc (document_chunks s) /\
        chunk_id dc = emb_chunk_id ce /\
        r_chunk_id r = chunk_id dc /\
        r_document_id r = document_id dc /\
        r_content r = row_content dc /\
        vector_score r = 1 - cosine_distance (embedding ce) q) /\
    min_score <= vector_score r /\
    score r <= 1 /\
    score r <= vector_score r + node_boost r.
Proof.
  split; [apply hybrid_search_length|].
  intros r Hr.
  destruct (hybrid_search_in _ _ _ _ _ _ _ _ Hr) as (c & Hc & ->).
  pose proof (proj2 (chunk_sql_bounds cosine_distance q min_score (top_k * 2) s) c Hc)
    as Hmin.
  unfold chunk_sql in Hc. apply in_take in Hc. apply in_order_by in Hc.
  apply list_elem_of_In, list_elem_of_filter in Hc as [_ Hc].
  apply list_elem_of_In, joined_rows_in in Hc
    as (ce & dc & H1 & H2 & H3 & H4 & H5 & H6 & _ & _ & H9).
  split; [|split; [|split]].
  - exists ce, dc. simpl. auto 10.
  - exact Hmin.
  - apply fuse_score_le_1.
  - rewrite fuse_score. apply Q.le_min_l.
Qed.

Lemma node_sql_unrouted q s : unrouted s -> node_sql cosine_distance q s = [].
Proof.
  unfold unrouted, node_sql. intros H.
  replace (omap _ (doc_nodes s)) with (@nil NodeHit); [reflexivity|].
  induction H as [|r l Hr Hl IH]; [reflexivity|].
  cbn [omap list_omap]. rewrite Hr. exact IH.
Qed.

Lemma hybrid_search_unrouted query q top_k min_score ids s r :
  unrouted s ->
  In r (hybrid_search cosine_distance query q top_k min_score ids s) ->
  node_boost r = 0 /\ score r == Qmin (vector_score r) 1.
Proof.
  intros Hs Hr.
  destruct (hybrid_search_in _ _ _ _ _ _ _ _ Hr) as (c & Hc & ->).
  rewrite (node_sql_unrouted q s Hs).
  assert (E : node_boost (fuse (node_scores_of []) c) = 0).
  { unfold fuse, node_scores_of. simpl.
    destruct (c_node_id c); [rewrite lookup_empty|]; reflexivity. }
  split; [exact E|].
  rewrite fuse_score, E. simpl vector_score.
  rewrite Qplus_0_r. reflexivity.
Qed.

Lemma hybrid_search_no_embeddings query q top_k min_score ids s :
  chunk_embeddings s = [] ->
  hybrid_search cosine_distance query q top_k min_score ids s = [].
Proof.
  intros H. unfold hybrid_search, chunk_sql, joined_rows. rewrite H. simpl.
  rewrite take_nil. simpl. apply take_nil.
Qed.

End SearchFacts.

(** ** Indexing: what a run leaves in the store *)

(** A relation that every statement of [build_index] keeps is kept by
    [build_index]. *)
Section IndexFrames.
Variable R : db -> db -> Prop.
Hypothesis R_refl : forall s, R s s.
Hypothesis R_trans : forall s1 s2 s3, R s1 s2 -> R s2 s3 -> R s1 s3.
Hypothesis R_uuid : keeps R fresh_uuid.
Hypothesis R_tree : forall tid doc ttl, keeps R (insert_tree tid doc ttl).
Hypothesis R_update : forall count tid, keeps R (update_total_nodes count tid).
Hypothesis R_node : forall id tid parent lvl idx ttl cs ce summ prev s,
  R s (mkDb (doc_trees s)
            (doc_nodes s ++ [mkNodeRow id tid parent lvl idx ttl cs ce summ prev None])
            (document_chunks s) (chunk_embeddings s) (next_uuid s)).
Hypothesis R_chunk : forall id doc idx body0 meta nid s,
  R s (mkDb (doc_trees s) (doc_nodes s)
            (document_chunks s ++ [mkChunkRow id doc idx body0 meta nid])
            (chunk_embeddings s) (next_uuid s)).
Variable registry : registry_t.
Hypothesis R_embedding : forall embed cid v model,
  registry = Some embed -> keeps R (insert_embedding cid v model).

Lemma kept_insert_node tid parent lvl idx ttl cs ce summ prev :
  keeps R (insert_node tid parent lvl idx ttl cs ce summ prev).
Proof.
  unfold insert_node. apply keeps_bind; [exact R_trans | exact R_uuid |].
  intros id s. destruct (existsb _ _); simpl; [apply R_refl | apply R_node].
Qed.

Lemma kept_save_nodes node :
  forall tid parent lvl idx, keeps R (_save_nodes tid node parent lvl idx).
Proof.
  induction node as [id d kids IH] using DocNode_tree_ind.
  intros tid parent lvl idx. simpl.
  apply keeps_bind; [exact R_trans | apply kept_insert_node |].
  intros db_id.
  apply keeps_save_each; [exact R_refl | exact R_trans |].
  eapply List.Forall_impl; [|exact IH]. simpl. intros child H i. apply H.
Qed.

Lemma kept_insert_chunk doc idx body0 meta nid :
  keeps R (insert_chunk doc idx body0 meta nid).
Proof.
  unfold insert_chunk. apply keeps_bind; [exact R_trans | exact R_uuid |].
  intros id s. destruct (existsb _ _); simpl; [apply R_refl | apply R_chunk].
Qed.

Lemma kept_save_chunks doc model cs :
  forall i, keeps R (save_chunks doc model registry i cs).
Proof.
  induction cs as [|chunk cs IH]; intros i; simpl.
  - apply keeps_ret, R_refl.
  - apply keeps_bind; [exact R_trans | apply kept_insert_chunk |].
    intros cid.
    apply keeps_bind; [exact R_trans | |].
    + destruct registry as [embed|] eqn:E;
        [eapply R_embedding; reflexivity | apply keeps_ret, R_refl].
    + intros _. apply IH.
Qed.

Lemma kept_build_index doc body0 filename model :
  keeps R (build_index doc body0 filename model registry).
Proof.
  unfold build_index.
  apply keeps_bind; [exact R_trans | exact R_uuid |]. intros tid.
  apply keeps_bind; [exact R_trans | apply R_tree |]. intros _.
  apply keeps_bind; [exact R_trans | apply kept_save_nodes |]. intros count.
  apply keeps_bind; [exact R_trans | apply R_update |]. intros _.
  apply keeps_bind; [exact R_trans | apply kept_save_chunks |]. intros _.
  apply keeps_ret, R_refl.
Qed.

End IndexFrames.

(** [build_index] gives no vector to a node. *)
Lemma build_index_unrouted doc body0 filename model registry s :
  unrouted s -> unrouted (fst (build_index doc body0 filename model registry s)).
Proof.
  apply (kept_build_index keeps_unrouted); unfold keeps_unrouted, unrouted, keeps;
    try (intros; simpl; assumption).
  - intros s1 s2 s3 H12 H23 H1. auto.
  - intros tid doc0 ttl s0. unfold insert_tree.
    destruct (existsb _ _); simpl; auto.
  - intros id tid parent lvl idx ttl cs ce summ prev s0 H. simpl.
    apply List.Forall_app. split; [exact H|]. repeat constructor.
Qed.

(** Without a [registry], [build_index] adds no embedding row. *)
Lemma build_index_same_embeddings doc body0 filename model s :
  chunk_embeddings (fst (build_index doc body0 filename model None s))
  = chunk_embeddings s.
Proof.
  apply (kept_build_index same_embeddings); unfold same_embeddings, keeps;
    try (intros; simpl; reflexivity).
  - intros s1 s2 s3 H12 H23. congruence.
  - intros tid doc0 ttl s0. unfold insert_tree.
    destruct (existsb _ _); reflexivity.
  - discriminate.
Qed.

Section IndexThenSearch.
Variable cosine_distance : vector -> vector -> Q.

(** X16. [build_index] called without a [registry] (the default) stores the
    chunks and no vector for them, and [hybrid_search] reads chunks
    through their embedding rows only: on a store without embedding rows,
    whatever is indexed this way, every search returns the empty list. *)
Theorem index_without_registry_not_searchable
    (doc : nat) (body0 filename model query : text) (q : vector)
    (top_k : nat) (min_score : Q) (ids : option (list nat)) (s : db) :
  chunk_embeddings s = [] ->
  hybrid_search cosine_distance query q top_k min_score ids
    (fst (build_index doc body0 filename model None s)) = [].
Proof.
  intros H. apply hybrid_search_no_embeddings.
  rewrite build_index_same_embeddings. exact H.
Qed.

(** X17. [build_index] never writes the [embedding] column of [doc_nodes], so
    the routing query of [hybrid_search] (which reads only the nodes that
    have one) finds no node: when no node row of the store holds a vector
    before a run of [build_index], every result of a search after it has
    [node_boost = 0] and its score is [min(vector_score, 1)]. *)
Theorem build_index_routing_inert
    (doc : nat) (body0 filename model query : text) (registry : registry_t)
    (q : vector) (top_k : nat) (min_score : Q) (ids : option (list nat))
    (s : db) (r : SearchResult) :
  unrouted s ->
  In r (hybrid_search cosine_distance query q top_k min_score ids
          (fst (build_index doc body0 filename model registry s))) ->
  node_boost r = 0%Q /\ (score r == Qmin (vector_score r) 1)%Q.
Proof.
  intros Hs Hr.
  eapply hybrid_search_unrouted; [|exact Hr].
  apply build_index_unrouted, Hs.
Qed.

End IndexThenSearch.

(** X16, witness: [doc_outline] indexed without a registry into the empty
    store. *)
Lemma index_without_registry_not_searchable_witness :
  hybrid_search unit_distance [] east 5 (1 # 2)%Q None
    (fst (build_index 7 doc_outline [102%N] [109%N] None empty_db)) = [].
Proof.
  apply (index_without_registry_not_searchable unit_distance 7 doc_outline
           [102%N] [109%N] [] east 5 (1 # 2)%Q None empty_db).
  reflexivity.
Defined.

(** X17, witness: [doc_outline] indexed with a provider that maps every text
    to [east]; the first result of a search for [east]. *)
Lemma build_index_routing_inert_witness :
  node_boost
    (nth 0 (hybrid_search unit_distance [] east 5 (1 # 2)%Q None
              (fst (build_index 7 doc_outline [102%N] [109%N]
                      (Some (fun _ => east)) empty_db))) no_result) = 0%Q.
Proof.
  refine (proj1 (build_index_routing_inert unit_distance 7 doc_outline
                   [102%N] [109%N] [] (Some (fun _ => east)) east 5 (1 # 2)%Q None
                   empty_db _ _ _)).
  - constructor.
  - vm_compute. left. reflexivity.
Defined.

(** *** The rows of a tree *)

Lemma rows_of_length n : forall tid parent lvl idx base,
  length (rows_of tid n parent lvl idx base) = length (nodes_of n).
Proof.
  induction n as [id d kids IH] using DocNode_tree_ind.
  intros tid parent lvl idx base. simpl. f_equal.
  generalize 0 (S base). induction IH as [|k ks Hk _ IHk]; intros i b; simpl.
  - reflexivity.
  - rewrite !length_app, Hk, IHk. reflexivity.
Qed.

Lemma rows_of_ids n : forall tid parent lvl idx base,
  map node_row_id (rows_of tid n parent lvl idx base) = seq base (length (nodes_of n)).
Proof.
  induction n as [id d kids IH] using DocNode_tree_ind.
  intros tid parent lvl idx base. simpl. f_equal.
  generalize 0 (S base). induction IH as [|k ks Hk _ IHk]; intros i b; simpl.
  - reflexivity.
  - rewrite map_app, length_app, seq_app, Hk, IHk. reflexivity.
Qed.

Lemma rows_of_fresh n : forall tid parent lvl idx base,
  Forall (fun r => node_embedding r = None /\ node_tree_id r = tid)
         (rows_of tid n parent lvl idx base).
Proof.
  induction n as [id d kids IH] using DocNode_tree_ind.
  intros tid parent lvl idx base. simpl. constructor; [auto|].
  generalize 0 (S base). induction IH as [|k ks Hk _ IHk]; intros i b; simpl.
  - constructor.
  - apply List.Forall_app. auto.
Qed.

(** The pairs [(node_level, node_index)] depend on the shape of the tree
    only. *)
Lemma rows_of_pairs n : forall tid tid' parent parent' lvl idx base base',
  map (fun r => (node_level r, node_index r)) (rows_of tid n parent lvl idx base)
  = map (fun r => (node_level r, node_index r)) (rows_of tid' n parent' lvl idx base').
Proof.
  induction n as [id d kids IH] using DocNode_tree_ind.
  intros tid tid' parent parent' lvl idx base base'. simpl. f_equal.
  generalize 0 (S base) (S base').
  induction IH as [|k ks Hk _ IHk]; intros i b b'; simpl.
  - reflexivity.
  - rewrite !map_app. f_equal; [apply Hk | apply IHk].
Qed.

(** *** One [INSERT] after the other *)

Lemma insert_node_run tid parent lvl idx ttl cs ce summ prev s :
  insert_node tid parent lvl idx ttl cs ce summ prev s =
  if existsb (fun r => (node_tree_id r =? tid) && (node_level r =? lvl)
                       && (node_index r =? idx)) (doc_nodes s)
  then (mkDb (doc_trees s) (doc_nodes s) (document_chunks s) (chunk_embeddings s)
             (S (next_uuid s)),
        Raised (UniqueViolation "doc_nodes_tree_id_node_level_node_index_key"))
  else (mkDb (doc_trees s)
             (doc_nodes s ++ [mkNodeRow (next_uuid s) tid parent lvl idx ttl cs ce
                                        summ prev None])
             (document_chunks s) (chunk_embeddings s) (S (next_uuid s)),
        Done (next_uuid s)).
Proof.
  unfold insert_node, bind, fresh_uuid. simpl.
  destruct (existsb _ _); reflexivity.
Qed.

Lemma key_taken rows tid lvl idx :
  existsb (fun r => (node_tree_id r =? tid) && (node_level r =? lvl)
                    && (node_index r =? idx)) rows = true
  <-> In (tid, lvl, idx) (map node_key rows).
Proof.
  rewrite existsb_exists, in_map_iff. unfold node_key. split.
  - intros (r & Hr & H). apply andb_prop in H as [H H3]. apply andb_prop in H as [H1 H2].
    apply Nat.eqb_eq in H1, H2, H3. exists r. subst. auto.
  - intros (r & [= <- <- <-] & Hr). exists r. split; [exact Hr|].
    rewrite !Nat.eqb_refl. reflexivity.
Qed.

Lemma insert_rows_app a b s :
  insert_rows (a ++ b) s =
  match insert_rows a s with
  | (s', Done _) => insert_rows b s'
  | (s', Raised e) => (s', Raised e)
  end.
Proof.
  revert s. induction a as [|r a IH]; intros s; [reflexivity|].
  cbn [app insert_rows]. unfold bind.
  destruct (insert_node _ _ _ _ _ _ _ _ _ s) as [s1 [id|e]]; [apply IH | reflexivity].
Qed.

(** [insert_rows] raises nothing but the unique violation of
    [doc_nodes], and each [INSERT] takes one identifier. *)
Lemma insert_rows_outcome rows : forall s,
  (exists s', insert_rows rows s = (s', Done tt) /\
              next_uuid s' = next_uuid s + length rows) \/
  (exists s', insert_rows rows s
              = (s', Raised (UniqueViolation "doc_nodes_tree_id_node_level_node_index_key"))).
Proof.
  induction rows as [|r rows IH]; intros s.
  - left. exists s. split; [reflexivity | simpl; lia].
  - cbn [insert_rows]. unfold bind. rewrite insert_node_run.
    destruct (existsb _ _); [right; eauto|].
    match goal with |- context [insert_rows rows ?s1] =>
      destruct (IH s1) as [(s' & E & Hn) | (s' & E)]; rewrite E end.
    + left. exists s'. split; [reflexivity|]. simpl in *. lia.
    + right. eauto.
Qed.

(** A run that returns has inserted rows with keys that differ from each
    other and from those of the store. *)
Lemma insert_rows_distinct rows : forall s s' u,
  insert_rows rows s = (s', Done u) ->
  NoDup (map node_key rows) /\
  forall k, In k (map node_key rows) -> ~ In k (map node_key (doc_nodes s)).
Proof.
  induction rows as [|r rows IH]; intros s s' u H.
  - split; [constructor | intros k []].
  - cbn [insert_rows] in H. unfold bind in H. rewrite insert_node_run in H.
    destruct (existsb _ _) eqn:E; [discriminate|].
    apply IH in H as (Hnd & Hdis).
    assert (Hnot : ~ In (node_key r) (map node_key (doc_nodes s))).
    { intros Hin.
      apply (proj2 (key_taken (doc_nodes s) (node_tree_id r) (node_level r)
                              (node_index r))) in Hin.
      congruence. }
    split.
    + simpl. constructor; [|exact Hnd].
      intros Hin. apply list_elem_of_In in Hin.
      apply (Hdis _ Hin). simpl. rewrite map_app.
      apply in_or_app. right. left. reflexivity.
    + intros k [<- | Hk]; [exact Hnot|].
      intros Hin. apply (Hdis _ Hk). simpl. rewrite map_app.
      apply in_or_app. left. exact Hin.
Qed.

(** The rows as the store holds them after the [INSERT]s. *)
Lemma insert_rows_done rows : forall s s' u,
  insert_rows rows s = (s', Done u) ->
  map node_row_id rows = seq (next_uuid s) (length rows) ->
  Forall (fun r => node_embedding r = None) rows ->
  s' = add_node_rows s rows.
Proof.
  induction rows as [|r rows IH]; intros s s' u H Hids Hnone.
  - injection H as <- _.
    unfold add_node_rows. destruct s; simpl. rewrite app_nil_r, Nat.add_0_r. reflexivity.
  - cbn [insert_rows] in H. unfold bind in H. rewrite insert_node_run in H.
    destruct (existsb _ _) eqn:E; [discriminate|].
    simpl in Hids. injection Hids as Hid Hids.
    apply List.Forall_cons_iff in Hnone as [Hr Hnone].
    apply IH in H as ->; [|exact Hids | exact Hnone].
    unfold add_node_rows. simpl. rewrite <- app_assoc. simpl.
    destruct r; simpl in *. subst. f_equal. lia.
Qed.

(** *** [_save_nodes] issues the [INSERT]s of [rows_of] *)

Lemma save_nodes_inserts node : forall tid parent lvl idx s,
  _save_nodes tid node parent lvl idx s =
  returning (length (nodes_of node))
            (insert_rows (rows_of tid node parent lvl idx (next_uuid s)) s).
Proof.
  induction node as [id d kids IH] using DocNode_tree_ind.
  intros tid parent lvl idx s.
  cbn [_save_nodes rows_of insert_rows node_tree_id parent_id node_level node_index
       node_title node_char_start node_char_end summary content_preview].
  unfold bind at 1 2. rewrite insert_node_run.
  destruct (existsb _ _); [reflexivity|].
  set (s1 := mkDb _ _ _ _ _). set (pid := next_uuid s).
  change (S pid) with (next_uuid s1).
  cbn [nodes_of length].
  assert (H : forall ks, Forall (fun n => forall tid parent lvl idx s,
                 _save_nodes tid n parent lvl idx s =
                 returning (length (nodes_of n))
                   (insert_rows (rows_of tid n parent lvl idx (next_uuid s)) s)) ks ->
              forall i count s2,
    save_each (fun child i => _save_nodes tid child (Some pid) (S lvl) i) ks i count s2
    = returning (count + length (flat_map nodes_of ks))
        (insert_rows (rows_each (fun child i b => rows_of tid child (Some pid) (S lvl) i b)
                                ks i (next_uuid s2)) s2)).
  { clear. induction 1 as [|k ks Hk _ IHk]; intros i count s2.
    - simpl. unfold ret. rewrite Nat.add_0_r. reflexivity.
    - cbn [save_each rows_each flat_map]. unfold bind at 1.
      rewrite Hk, insert_rows_app.
      destruct (insert_rows_outcome (rows_of tid k (Some pid) (S lvl) i (next_uuid s2)) s2)
        as [(s3 & E & Hn) | (s3 & E)]; rewrite E; simpl.
      + rewrite rows_of_length in Hn. rewrite <- Hn, IHk.
        rewrite length_app, Nat.add_assoc. reflexivity.
      + reflexivity. }
  rewrite (H kids IH 0 1 s1). reflexivity.
Qed.

(** X18. What a run of [_save_nodes] that returns has done.  The result
    is the number of nodes of the tree, and the store holds the rows of
    [rows_of] after those it held: one row per node, a node before its
    children, with the depth as [node_level], the position among the
    siblings as [node_index] and the row of the parent as [parent_id].
    The keys [(tree_id, node_level, node_index)] of these rows differ
    from each other and from those that the store held: a tree in which
    two nodes have the same depth and the same position among their
    siblings is never saved. *)
Theorem save_nodes_postcondition (tid : nat) (node : DocNode) (parent : option nat)
    (lvl idx : nat) (s s' : db) (n : nat) :
  _save_nodes tid node parent lvl idx s = (s', Done n) ->
  n = length (nodes_of node) /\
  s' = add_node_rows s (rows_of tid node parent lvl idx (next_uuid s)) /\
  NoDup (map node_key (rows_of tid node parent lvl idx (next_uuid s))) /\
  forall k, In k (map node_key (rows_of tid node parent lvl idx (next_uuid s))) ->
            ~ In k (map node_key (doc_nodes s)).
Proof.
  rewrite save_nodes_inserts.
  set (rows := rows_of tid node parent lvl idx (next_uuid s)).
  assert (Hids : map node_row_id rows = seq (next_uuid s) (length rows)).
  { unfold rows. rewrite rows_of_ids, rows_of_length. reflexivity. }
  assert (Hnone : Forall (fun r => node_embedding r = None) rows).
  { eapply List.Forall_impl; [|apply rows_of_fresh]. simpl. tauto. }
  intros H.
  destruct (insert_rows rows s) as [s1 [[]|e]] eqn:E; [|discriminate].
  injection H as <- <-.
  destruct (insert_rows_distinct rows s s1 tt E) as (H1 & H2).
  rewrite (insert_rows_done rows s s1 tt E Hids Hnone). auto.
Qed.

(** X18, witness: the tree of [doc_outline] saved into the empty store;
    four nodes. *)
Lemma save_nodes_postcondition_witness :
  NoDup (map node_key (rows_of 0 (parse_markdown doc_outline []) None 0 0 0)) /\
  length (nodes_of (parse_markdown doc_outline [])) = 4.
Proof.
  destruct (save_nodes_postcondition 0 (parse_markdown doc_outline []) None 0 0 empty_db
              (fst (_save_nodes 0 (parse_markdown doc_outline []) None 0 0 empty_db)) 4)
    as (Hn & _ & Hkeys & _).
  - vm_compute. reflexivity.
  - split; [exact Hkeys | symmetry; exact Hn].
Defined.

(** Two rows with one key: the second [INSERT] cannot pass. *)
Lemma insert_rows_clash rows s i j k :
  i < j -> map node_key rows !! i = Some k -> map node_key rows !! j = Some k ->
  exists s', insert_rows rows s
             = (s', Raised (UniqueViolation "doc_nodes_tree_id_node_level_node_index_key")).
Proof.
  intros Hij Hi Hj.
  destruct (insert_rows_outcome rows s) as [(s' & E & _) | H]; [|exact H].
  exfalso. destruct (insert_rows_distinct rows s s' tt E) as [Hnd _].
  pose proof (NoDup_lookup _ _ _ _ Hnd Hi Hj). lia.
Qed.

(** X19. A document in which two nodes get the same depth and the same
    position among their siblings cannot be indexed: [build_index]
    raises, and no chunk and no embedding is stored.  Two chapters that
    each have a section are such a document: both sections are the first
    child of their chapter, at depth 2. *)
Theorem build_index_sibling_clash (doc : nat) (body0 filename model : text)
    (registry : registry_t) (s : db) (i j : nat) (k : nat * nat) :
  i < j ->
  level_index_pairs (parse_markdown body0 filename) !! i = Some k ->
  level_index_pairs (parse_markdown body0 filename) !! j = Some k ->
  (exists e, snd (build_index doc body0 filename model registry s) = Raised e) /\
  document_chunks (fst (build_index doc body0 filename model registry s))
    = document_chunks s /\
  chunk_embeddings (fst (build_index doc body0 filename model registry s))
    = chunk_embeddings s.
Proof.
  intros Hij Hi Hj.
  rewrite build_index_steps. cbv zeta.
  destruct (existsb _ (doc_trees s)); [simpl; eauto|].
  set (s2 := mkDb (doc_trees s ++ _) _ _ _ _).
  rewrite save_nodes_inserts.
  set (rows := rows_of _ _ _ _ _ _).
  pose proof (keeps_save_nodes (parse_markdown body0 filename) (next_uuid s) None 0 0 s2)
    as (_ & _ & N3 & N4).
  rewrite save_nodes_inserts in N3, N4. fold rows in N3, N4.
  assert (Hkeys : forall n, map node_key rows !! n
                  = (fun p => (next_uuid s, fst p, snd p))
                    <$> level_index_pairs (parse_markdown body0 filename) !! n).
  { intros n. unfold level_index_pairs, rows.
    rewrite (rows_of_pairs _ 0 (next_uuid s) None None 0 0 0 (next_uuid s2)).
    change (map ?f ?l) with (f <$> l).
    rewrite !list_lookup_fmap.
    pose proof (rows_of_fresh (parse_markdown body0 filename) (next_uuid s) None 0 0
                  (next_uuid s2)) as Hf.
    destruct (rows_of _ _ _ _ _ _ !! n) as [r|] eqn:Er; [|reflexivity].
    rewrite List.Forall_forall in Hf.
    destruct (Hf r) as [_ Ht].
    { apply list_elem_of_In. eapply list_elem_of_lookup_2. exact Er. }
    simpl. unfold node_key. rewrite Ht. reflexivity. }
  destruct (insert_rows_clash rows s2 i j (next_uuid s, fst k, snd k) Hij) as (s3 & E).
  { rewrite Hkeys, Hi. reflexivity. }
  { rewrite Hkeys, Hj. reflexivity. }
  rewrite E in *. simpl in *. eauto.
Qed.

(** X19, witness: [doc_two_sections]; the sections [A1] and [B1] are the
    third and the fifth node, both at depth 2 with position 0. *)
Lemma build_index_sibling_clash_witness :
  exists e, snd (build_index 7 doc_two_sections [102%N] [109%N] None empty_db) = Raised e.
Proof.
  refine (proj1 (build_index_sibling_clash 7 doc_two_sections [102%N] [109%N] None
                   empty_db 2 4 (2, 0) _ _ _)).
  - lia.
  - vm_compute. reflexivity.
  - vm_compute. reflexivity.
Defined.

(** *** A run that returns *)

Lemma insert_chunk_run doc idx body0 meta nid s :
  insert_chunk doc idx body0 meta nid s =
  if existsb (fun r => (document_id r =? doc) && (chunk_index r =? idx))
             (document_chunks s)
  then (mkDb (doc_trees s) (doc_nodes s) (document_chunks s) (chunk_embeddings s)
             (S (next_uuid s)),
        Raised (UniqueViolation "uk_chunk_document_index"))
  else (mkDb (doc_trees s) (doc_nodes s)
             (document_chunks s ++ [mkChunkRow (next_uuid s) doc idx body0 meta nid])
             (chunk_embeddings s) (S (next_uuid s)),
        Done (next_uuid s)).
Proof.
  unfold insert_chunk, bind, fresh_uuid. simpl.
  destruct (existsb _ _); reflexivity.
Qed.

Lemma save_chunks_done doc model registry cs : forall i s s' u,
  save_chunks doc model registry i cs s = (s', Done u) ->
  s' = mkDb (doc_trees s) (doc_nodes s)
            (document_chunks s ++ chunk_rows_of doc i (next_uuid s) cs)
            (chunk_embeddings s ++ embedding_rows_of model registry (next_uuid s) cs)
            (next_uuid s + length cs).
Proof.
  induction cs as [|c cs IH]; intros i s s' u H.
  - injection H as <- _. unfold chunk_rows_of, embedding_rows_of.
    destruct s, registry; simpl; rewrite !app_nil_r, Nat.add_0_r; reflexivity.
  - cbn [save_chunks] in H. unfold bind at 1 in H. rewrite insert_chunk_run in H.
    destruct (existsb _ _); [discriminate|].
    unfold bind at 1 in H.
    assert (E : forall j, chunk_rows_of doc i j (c :: cs)
                = mkChunkRow j doc (i + 1) (chunk_content c)
                    (mkMeta (Some (chunk_node_path c)) (Some (chunk_level c)))
                    (Some (chunk_node_id c))
                  :: chunk_rows_of doc (S i) (S j) cs).
    { intros j. unfold chunk_rows_of. rewrite imap_cons.
      rewrite !Nat.add_0_r. f_equal. apply imap_ext. intros n x _. simpl.
      f_equal; lia. }
    destruct registry as [embed|]; simpl in H.
    + apply IH in H. rewrite H. cbn [doc_trees doc_nodes document_chunks
                                     chunk_embeddings next_uuid length].
      rewrite E, <- !app_assoc. simpl. f_equal; [|lia].
      do 2 f_equal. rewrite Nat.add_0_r. f_equal.
      apply imap_ext. intros n x _. simpl. f_equal. lia.
    + unfold ret in H. apply IH in H. rewrite H.
      cbn [doc_trees doc_nodes document_chunks chunk_embeddings next_uuid length].
      rewrite E, <- !app_assoc. simpl. f_equal. lia.
Qed.

(** The store after a run that returns. *)
Lemma build_index_done (doc : nat) (body0 filename model : text)
    (registry : registry_t) (s s' : db) (res : IndexResult) :
  build_index doc body0 filename model registry s = (s', Done res) ->
  res = mkResult (next_uuid s)
                 (length (nodes_of (parse_markdown body0 filename)))
                 (length (get_all_chunks (parse_markdown body0 filename) 400 50)) /\
  length (nodes_of (parse_markdown body0 filename))
    = S (length (omap heading_of (split_lines body0))) /\
  s' = mkDb
         (doc_trees s ++ [mkTree (next_uuid s) doc filename
                                 (length (nodes_of (parse_markdown body0 filename)))])
         (doc_nodes s
          ++ rows_of (next_uuid s) (parse_markdown body0 filename) None 0 0
                     (S (next_uuid s)))
         (document_chunks s
          ++ chunk_rows_of doc 0
               (S (next_uuid s) + length (nodes_of (parse_markdown body0 filename)))
               (get_all_chunks (parse_markdown body0 filename) 400 50))
         (chunk_embeddings s
          ++ embedding_rows_of model registry
               (S (next_uuid s) + length (nodes_of (parse_markdown body0 filename)))
               (get_all_chunks (parse_markdown body0 filename) 400 50))
         (S (next_uuid s) + length (nodes_of (parse_markdown body0 filename))
          + length (get_all_chunks (parse_markdown body0 filename) 400 50)).
Proof.
  rewrite build_index_steps. cbv zeta.
  set (root := parse_markdown body0 filename).
  set (cks := get_all_chunks root 400 50).
  destruct (existsb _ (doc_trees s)) eqn:Efresh; [discriminate|].
  set (s2 := mkDb (doc_trees s ++ _) _ _ _ _).
  rewrite save_nodes_inserts.
  set (rows := rows_of (next_uuid s) root None 0 0 (next_uuid s2)).
  destruct (insert_rows rows s2) as [s3 [[]|e]] eqn:E; [|discriminate].
  simpl returning. cbv iota.
  apply insert_rows_done in E.
  2:{ unfold rows. rewrite rows_of_ids, rows_of_length. reflexivity. }
  2:{ eapply List.Forall_impl; [|apply rows_of_fresh]. simpl. tauto. }
  subst s3. unfold add_node_rows, s2.
  cbn [doc_trees doc_nodes document_chunks chunk_embeddings next_uuid].
  rewrite map_app, map_update_fresh by exact Efresh.
  simpl map. rewrite Nat.eqb_refl. cbn [tree_id tree_document_id tree_title].
  destruct (save_chunks _ _ _ _ _ _) as [s5 [[]|e]] eqn:E5; [|discriminate].
  intros H. injection H as <- <-.
  apply save_chunks_done in E5. subst s5.
  cbn [doc_trees doc_nodes document_chunks chunk_embeddings next_uuid].
  unfold rows. rewrite rows_of_length.
  split; [reflexivity|]. split; [|reflexivity].
  unfold root. rewrite <- (length_map (fun n => (level (node_data n), title (node_data n)))).
  rewrite nodes_headings. reflexivity.
Qed.


(** X20. What a run of [build_index] that returns leaves in the store.
    The result names the new tree and counts the nodes (the root and one
    per heading line) and the chunks.  The store holds, after the rows it
    held before: one tree row with that count; the node rows of
    [rows_of], a node before its children, with the depth as
    [node_level], the position among the siblings as [node_index], the
    row of the parent as [parent_id], the first 200 and 100 characters of
    the content as [summary] and [content_preview], and no embedding; one
    chunk row per chunk, in the order of [get_all_chunks], with
    [chunk_index] running from 1; and one embedding row per chunk when a
    [registry] is given, none otherwise. *)
Theorem build_index_postcondition (doc : nat) (body0 filename model : text)
    (registry : registry_t) (s s' : db) (res : IndexResult) :
  build_index doc body0 filename model registry s = (s', Done res) ->
  res = mkResult (next_uuid s)
                 (length (nodes_of (parse_markdown body0 filename)))
                 (length (get_all_chunks (parse_markdown body0 filename) 400 50)) /\
  length (nodes_of (parse_markdown body0 filename))
    = S (length (omap heading_of (split_lines body0))) /\
  s' = mkDb
         (doc_trees s ++ [mkTree (next_uuid s) doc filename
                                 (length (nodes_of (parse_markdown body0 filename)))])
         (doc_nodes s
          ++ rows_of (next_uuid s) (parse_markdown body0 filename) None 0 0
                     (S (next_uuid s)))
         (document_chunks s
          ++ chunk_rows_of doc 0
               (S (next_uuid s) + length (nodes_of (parse_markdown body0 filename)))
               (get_all_chunks (parse_markdown body0 filename) 400 50))
         (chunk_embeddings s
          ++ embedding_rows_of model registry
               (S (next_uuid s) + length (nodes_of (parse_markdown body0 filename)))
               (get_all_chunks (parse_markdown body0 filename) 400 50))
         (S (next_uuid s) + length (nodes_of (parse_markdown body0 filename))
          + length (get_all_chunks (parse_markdown body0 filename) 400 50)).
Proof. apply build_index_done. Qed.

(** X20, witness: [doc_outline] indexed into the empty store; three headings,
    four nodes. *)
Lemma build_index_postcondition_witness :
  length (nodes_of (parse_markdown doc_outline [102%N]))
  = S (length (omap heading_of (split_lines doc_outline))).
Proof.
  refine (proj1 (proj2 (build_index_postcondition 7 doc_outline [102%N] [109%N] None
                          empty_db
                          (fst (build_index 7 doc_outline [102%N] [109%N] None empty_db))
                          (mkResult 0 4 3) _))).
  vm_compute. reflexivity.
Defined.

(** *** A run on a store that holds chunks of the document *)

(** The first chunk cannot be inserted when its index is taken: nothing
    is stored. *)
Lemma save_chunks_first_taken doc model registry chunk cs s :
  (exists r, In r (document_chunks s) /\ document_id r = doc /\ chunk_index r = 1) ->
  save_chunks doc model registry 0 (chunk :: cs) s
  = (mkDb (doc_trees s) (doc_nodes s) (document_chunks s) (chunk_embeddings s)
          (S (next_uuid s)),
     Raised (UniqueViolation "uk_chunk_document_index")).
Proof.
  intros (r & Hr & Hd & Hi).
  cbn [save_chunks]. unfold bind at 1. rewrite insert_chunk_run.
  assert (E : existsb (fun r => (document_id r =? doc) && (chunk_index r =? 0 + 1))
                      (document_chunks s) = true).
  { apply existsb_exists. exists r. split; [exact Hr|].
    rewrite Hd, Hi, !Nat.eqb_refl. reflexivity. }
  rewrite E. reflexivity.
Qed.

(** C2 (as amended). [build_index] never deletes or replaces a row: the
    rows that the four tables held before the call are still there after
    it, unchanged and in the same order, followed by the rows that the
    call added, whether it returned or raised.  So re-ingesting a
    document id removes nothing of the earlier run.  If the store already
    holds the chunk with index 1 of the document id, a run that emits at
    least one chunk does not return: it raises, and stores no chunk and
    no embedding.  And whenever a run raises on the unique constraint on
    [(document_id, chunk_index)], it has by then added a tree row for the
    document and the node rows of the whole tree, and they stay in the
    store. *)
Theorem build_index_appends_only (doc : nat) (body filename model : text)
    (registry : registry_t) (s : db) :
  let run := build_index doc body filename model registry s in
  let root := parse_markdown body filename in
  (doc_trees s `prefix_of` doc_trees (fst run) /\
   doc_nodes s `prefix_of` doc_nodes (fst run) /\
   document_chunks s `prefix_of` document_chunks (fst run) /\
   chunk_embeddings s `prefix_of` chunk_embeddings (fst run))
  /\
  ((exists r, In r (document_chunks s) /\ document_id r = doc /\ chunk_index r = 1) ->
   get_all_chunks root 400 50 <> [] ->
   (exists e, snd run = Raised e) /\
   document_chunks (fst run) = document_chunks s /\
   chunk_embeddings (fst run) = chunk_embeddings s)
  /\
  (snd run = Raised (UniqueViolation "uk_chunk_document_index") ->
   doc_trees (fst run)
     = doc_trees s ++ [mkTree (next_uuid s) doc filename (length (nodes_of root))] /\
   doc_nodes (fst run)
     = doc_nodes s ++ rows_of (next_uuid s) root None 0 0 (S (next_uuid s))).
Proof.
  cbv zeta. rewrite build_index_steps. cbv zeta.
  set (root := parse_markdown body filename).
  set (cks := get_all_chunks root 400 50).
  set (tid := next_uuid s).
  destruct (existsb (fun r => tree_id r =? tid) (doc_trees s)) eqn:Efresh.
  { simpl. split; [repeat split; reflexivity|]. split.
    - intros _ _. split; [eauto | split; reflexivity].
    - discriminate. }
  set (s2 := mkDb (doc_trees s ++ _) _ _ _ _).
  pose proof (keeps_save_nodes root tid None 0 0 s2) as (N1 & N2 & N3 & N4).
  rewrite save_nodes_inserts in N1, N2, N3, N4 |- *.
  set (rows := rows_of tid root None 0 0 (next_uuid s2)) in *.
  destruct (insert_rows_outcome rows s2) as [(s3 & E & _) | (s3 & E)];
    rewrite E in N1, N2, N3, N4 |- *; cbn [returning fst snd] in N1, N2, N3, N4 |- *.
  2:{ split; [|split].
      - rewrite N1, N3, N4.
        repeat split; try reflexivity; [apply prefix_app_r; reflexivity | exact N2].
      - intros _ _. split; [eauto | split; [exact N3 | exact N4]].
      - discriminate. }
  apply insert_rows_done in E.
  2:{ unfold rows. rewrite rows_of_ids, rows_of_length. reflexivity. }
  2:{ eapply List.Forall_impl; [|apply rows_of_fresh]. simpl. tauto. }
  set (s4 := mkDb _ (doc_nodes s3) (document_chunks s3) (chunk_embeddings s3) (next_uuid s3)).
  assert (T4 : doc_trees s4
               = doc_trees s ++ [mkTree tid doc filename (length (nodes_of root))]).
  { unfold s4. simpl. rewrite N1. simpl. rewrite map_app, map_update_fresh by exact Efresh.
    simpl. rewrite Nat.eqb_refl. reflexivity. }
  assert (D4 : doc_nodes s4 = doc_nodes s ++ rows).
  { unfold s4. simpl. rewrite E. reflexivity. }
  pose proof (keeps_save_chunks doc model registry cks 0 s4) as (C1 & C2 & C3 & C4).
  split; [|split].
  - destruct (save_chunks doc model registry 0 cks s4) as [s5 [[]|e]];
      cbn [fst] in C1, C2, C3, C4 |- *; rewrite C1, C2, T4;
      (repeat split;
       [ apply prefix_app_r; reflexivity
       | exact N2
       | etransitivity; [|exact C3]; simpl; rewrite N3; reflexivity
       | etransitivity; [|exact C4]; simpl; rewrite N4; reflexivity ]).
  - intros Hrow Hne.
    destruct cks as [|chunk cks']; [congruence|].
    rewrite save_chunks_first_taken by (simpl; rewrite N3; exact Hrow).
    cbn [fst snd document_chunks chunk_embeddings].
    split; [eauto|]. split; [exact N3 | exact N4].
  - destruct (save_chunks doc model registry 0 cks s4) as [s5 [[]|e]];
      cbn [fst snd] in C1, C2 |- *; [discriminate|].
    intros _. rewrite C1, C2, T4, D4. split; reflexivity.
Qed.

(** C2, witness: [doc_outline] indexed a second time under the same id.
    The second run raises on the index of its first chunk; the store then
    holds a second tree row and a second set of four node rows, and the
    three chunks of the first run. *)
Lemma build_index_appends_only_witness :
  let s1 := fst (build_index 7 doc_outline [102%N] [109%N] None empty_db) in
  let run := build_index 7 doc_outline [102%N] [109%N] None s1 in
  ((exists e, snd run = Raised e) /\
   document_chunks (fst run) = document_chunks s1 /\
   chunk_embeddings (fst run) = chunk_embeddings s1) /\
  (doc_trees (fst run)
     = doc_trees s1 ++ [mkTree (next_uuid s1) 7 [102%N]
                               (length (nodes_of (parse_markdown doc_outline [102%N])))] /\
   doc_nodes (fst run)
     = doc_nodes s1 ++ rows_of (next_uuid s1) (parse_markdown doc_outline [102%N])
                               None 0 0 (S (next_uuid s1))).
Proof.
  cbv zeta.
  destruct (build_index_appends_only 7 doc_outline [102%N] [109%N] None
              (fst (build_index 7 doc_outline [102%N] [109%N] None empty_db)))
    as (_ & Hchunk & Htree).
  split.
  - apply Hchunk.
    + exists (nth 0 (document_chunks
                       (fst (build_index 7 doc_outline [102%N] [109%N] None empty_db)))
                    (mkChunkRow 0 0 0 [] (mkMeta None None) None)).
      vm_compute. split; [left; reflexivity | split; reflexivity].
    + vm_compute. discriminate.
  - apply Htree. vm_compute. reflexivity.
Defined.


(** ** Reading the tree back *)

Lemma in_insert_row x y l : In y (insert_row x l) <-> y = x \/ In y l.
Proof.
  induction l as [|z l IH]; simpl; [intuition|].
  destruct (row_le x z); simpl; [intuition|]. rewrite IH. intuition.
Qed.

Lemma in_order_rows y l : In y (order_rows l) <-> In y l.
Proof.
  induction l as [|x l IH]; simpl; [tauto|].
  rewrite in_insert_row, IH. intuition.
Qed.

Lemma in_tree_nodes_sql tid s r :
  In r (tree_nodes_sql tid s) <-> In r (doc_nodes s) /\ node_tree_id r = tid.
Proof.
  unfold tree_nodes_sql. rewrite in_order_rows.
  rewrite <- !list_elem_of_In, list_elem_of_filter. tauto.
Qed.

Lemma node_map_fold (l : list NodeRow) (m : gmap nat NodeDict) (i : nat) :
  match foldl (fun m n => <[node_row_id n := dict_of_row n]> m) m l !! i with
  | Some d => m !! i = Some d \/
              exists r, In r l /\ node_row_id r = i /\ d = dict_of_row r
  | None => m !! i = None /\ forall r, In r l -> node_row_id r <> i
  end.
Proof.
  revert m. induction l as [|n l IH]; intros m; simpl.
  - destruct (m !! i); [left; reflexivity|]. split; [reflexivity|]. intros r [].
  - specialize (IH (<[node_row_id n := dict_of_row n]> m)).
    destruct (foldl _ _ l !! i) as [d|].
    + destruct IH as [H | (r & Hin & Hid & Hd)].
      * destruct (decide (node_row_id n = i)) as [E | NE].
        -- rewrite E, lookup_insert_eq in H. injection H as <-.
           right. exists n. auto.
        -- rewrite lookup_insert_ne in H by exact NE. auto.
      * right. exists r. auto.
    + destruct IH as [H Hall].
      destruct (decide (node_row_id n = i)) as [E | NE].
      * rewrite E, lookup_insert_eq in H. discriminate.
      * rewrite lookup_insert_ne in H by exact NE.
        split; [exact H|]. intros r [<- | Hin]; auto.
Qed.

Lemma more_children_cons c x l :
  more_children (Some (default [] c ++ [x])) l = more_children c (x :: l).
Proof.
  unfold more_children. destruct l; simpl; [reflexivity|].
  rewrite <- app_assoc. reflexivity.
Qed.

(** The loop appends to the [children] of a dict the rows that name it
    as parent, in the order of the rows; the last row without parent is
    the root. *)
Lemma link_loop nodes : forall m root,
  (forall i,
      fst (foldl link (m, root) nodes) !! i
      = (fun d => set_children d
                    (more_children (nd_children d)
                       (map node_row_id
                            (filter (fun r => parent_id r = Some i) nodes))))
        <$> m !! i) /\
  snd (foldl link (m, root) nodes)
  = match last (filter (fun r => parent_id r = None) nodes) with
    | Some r => Some (node_row_id r)
    | None => root
    end.
Proof.
  induction nodes as [|n nodes IH]; intros m root.
  - split; [|reflexivity]. intros i. simpl.
    destruct (m !! i) as [[]|]; reflexivity.
  - cbn [foldl]. unfold link at 2 4. cbn [fst snd].
    destruct (parent_id n) as [p|] eqn:Ep.
    + rewrite (filter_cons_False (fun r => parent_id r = None)) by congruence.
      destruct (m !! p) as [parent|] eqn:Em.
      * destruct (IH (<[p := append_child (node_row_id n) parent]> m) root) as [H1 H2].
        split; [|exact H2]. intros i. rewrite H1.
        destruct (decide (p = i)) as [<- | NE].
        -- rewrite lookup_insert_eq, Em.
           rewrite filter_cons_True by exact Ep. simpl.
           rewrite more_children_cons. reflexivity.
        -- rewrite lookup_insert_ne by exact NE.
           rewrite filter_cons_False by congruence. reflexivity.
      * destruct (IH m root) as [H1 H2].
        split; [|exact H2]. intros i. rewrite H1.
        destruct (decide (p = i)) as [<- | NE].
        -- rewrite Em. reflexivity.
        -- rewrite filter_cons_False by congruence. reflexivity.
    + destruct (IH m (Some (node_row_id n))) as [H1 H2].
      split.
      * intros i. rewrite H1, filter_cons_False by congruence. reflexivity.
      * rewrite H2, filter_cons_True by exact Ep. rewrite last_cons.
        destruct (last _); reflexivity.
Qed.

(** X21. What [get_node_tree] returns for a document: [None] when the
    document has no tree row; otherwise the columns of its first tree
    row, and the rows of that tree linked into dicts.  Every dict holds
    the columns of a row of the tree; its [children] are the rows that
    name it as [parent_id], in the order of [(node_level, node_index)],
    and it has no key [children] when there is no such row; the [root]
    is the last row, in that order, that has no parent.  A row whose
    [parent_id] is the id of no row of the tree is the child of no
    dict. *)
Theorem get_node_tree_links (document_id : nat) (s : db) :
  match get_node_tree document_id s with
  | None => forall t, In t (doc_trees s) -> tree_document_id t <> document_id
  | Some v =>
      (exists t, In t (doc_trees s) /\ tree_document_id t = document_id /\
                 view_tree_id v = tree_id t /\ view_title v = tree_title t /\
                 view_total_nodes v = total_nodes t) /\
      view_root v
      = option_map node_row_id
          (last (filter (fun r => parent_id r = None)
                        (tree_nodes_sql (view_tree_id v) s))) /\
      forall i,
        match view_nodes v !! i with
        | Some d =>
            (exists r, In r (doc_nodes s) /\ node_tree_id r = view_tree_id v /\
                       node_row_id r = i /\
                       d = set_children (dict_of_row r) (nd_children d)) /\
            nd_children d
            = more_children None
                (map node_row_id
                     (filter (fun r => parent_id r = Some i)
                             (tree_nodes_sql (view_tree_id v) s)))
        | None =>
            forall r, In r (doc_nodes s) -> node_tree_id r = view_tree_id v ->
                      node_row_id r <> i
        end
  end.
Proof.
  unfold get_node_tree.
  destruct (List.find _ (doc_trees s)) as [t|] eqn:Ef.
  - apply List.find_some in Ef as [Hin Hd]. apply Nat.eqb_eq in Hd.
    cbn [view_tree_id view_title view_total_nodes view_root view_nodes].
    set (nodes := tree_nodes_sql (tree_id t) s).
    destruct (link_loop nodes (node_map_of nodes) None) as [H1 H2].
    split; [exists t; auto|]. split.
    + rewrite H2. destruct (last _); reflexivity.
    + intros i. rewrite H1.
      pose proof (node_map_fold nodes ∅ i) as Hm. fold (node_map_of nodes) in Hm.
      destruct (node_map_of nodes !! i) as [d|]; simpl.
      * destruct Hm as [Hm | (r & Hr & Hid & ->)]; [rewrite lookup_empty in Hm; discriminate|].
        apply in_tree_nodes_sql in Hr as [Hr Ht].
        split; [exists r; auto|]. reflexivity.
      * destruct Hm as [_ Hm]. intros r Hr Ht.
        apply Hm, in_tree_nodes_sql. auto.
  - intros t Hin Hd.
    apply (List.find_none _ _ Ef) in Hin. apply Nat.eqb_neq in Hin. congruence.
Qed.

Lemma insert_row_perm x l : insert_row x l ≡ₚ x :: l.
Proof.
  induction l as [|y l IH]; simpl; [reflexivity|].
  destruct (row_le x y); [reflexivity|].
  rewrite IH. apply Permutation_swap.
Qed.

Lemma order_rows_perm l : order_rows l ≡ₚ l.
Proof.
  induction l as [|x l IH]; [reflexivity|]. simpl.
  rewrite insert_row_perm, IH. reflexivity.
Qed.

(** Only the first of the rows of a tree can be without parent. *)
Lemma rows_of_tail_parents n : forall tid parent lvl idx base,
  Forall (fun r => parent_id r <> None) (tl (rows_of tid n parent lvl idx base)).
Proof.
  induction n as [id d kids IH] using DocNode_tree_ind.
  intros tid parent lvl idx base. simpl.
  generalize 0 (S base). induction IH as [|k ks Hk _ IHk]; intros i b; simpl.
  - constructor.
  - apply List.Forall_app. split; [|apply IHk].
    specialize (Hk tid (Some base) (S lvl) i b).
    destruct k as [kid kd kks]. simpl in *. constructor; [discriminate | exact Hk].
Qed.

Lemma find_app {A} (f : A -> bool) l1 l2 :
  List.find f (l1 ++ l2)
  = match List.find f l1 with Some x => Some x | None => List.find f l2 end.
Proof.
  induction l1 as [|x l1 IH]; simpl; [reflexivity|].
  destruct (f x); [reflexivity | exact IH].
Qed.

Lemma filter_none {A} (P : A -> Prop) `{!forall x, Decision (P x)} (l : list A) :
  Forall (fun x => ~ P x) l -> filter P l = [].
Proof.
  induction 1 as [|x l Hx _ IH]; [reflexivity|].
  rewrite filter_cons_False by exact Hx. exact IH.
Qed.

Lemma filter_all {A} (P : A -> Prop) `{!forall x, Decision (P x)} (l : list A) :
  Forall P l -> filter P l = l.
Proof.
  induction 1 as [|x l Hx _ IH]; [reflexivity|].
  rewrite filter_cons_True by exact Hx. rewrite IH. reflexivity.
Qed.

Lemma rows_of_root_only n tid lvl idx base :
  exists r0,
    filter (fun r => parent_id r = None) (rows_of tid n None lvl idx base) = [r0] /\
    node_row_id r0 = base.
Proof.
  pose proof (rows_of_tail_parents n tid None lvl idx base) as Ht.
  destruct n as [a d ks]. cbn [rows_of tl] in *.
  rewrite filter_cons_True by reflexivity.
  rewrite filter_none by exact Ht. eauto.
Qed.

Lemma in_map_unique {A B} (f : A -> B) (l : list A) x y :
  NoDup (map f l) -> In x l -> In y l -> f x = f y -> x = y.
Proof.
  intros Hnd Hx Hy E.
  apply list_elem_of_In, list_elem_of_lookup_1 in Hx as [i Hi].
  apply list_elem_of_In, list_elem_of_lookup_1 in Hy as [j Hj].
  assert (Hfi : map f l !! i = Some (f x)).
  { change (map f l) with (f <$> l). rewrite list_lookup_fmap, Hi. reflexivity. }
  assert (Hfj : map f l !! j = Some (f x)).
  { change (map f l) with (f <$> l). rewrite list_lookup_fmap, Hj, E. reflexivity. }
  pose proof (NoDup_lookup _ _ _ _ Hnd Hfi Hfj) as ->.
  congruence.
Qed.

(** The tree that a run of [build_index] stored, as the node query of
    [get_node_tree] returns it. *)
Lemma tree_nodes_sql_new (s : db) tid rows trees chunks embeddings n :
  Forall (fun r => node_tree_id r <> tid) (doc_nodes s) ->
  Forall (fun r => node_tree_id r = tid) rows ->
  tree_nodes_sql tid (mkDb trees (doc_nodes s ++ rows) chunks embeddings n)
  = order_rows rows.
Proof.
  intros Hold Hnew. unfold tree_nodes_sql. cbn [doc_nodes].
  rewrite filter_app, filter_none, filter_all; [reflexivity | exact Hnew|].
  eapply List.Forall_impl; [|exact Hold]. simpl. auto.
Qed.

(** X22. Saving a tree and reading it back.  After a run of [build_index]
    that returns, for a document that had no tree, [get_node_tree] finds
    the new tree row, with the title and the node count of the run; the
    root is the row of the root of the parsed tree; every row that
    [_save_nodes] inserted is there as a dict with its columns, and the
    [children] of the dict are the inserted rows that name it as parent,
    in the order of the query, by [(node_level, node_index)]; there is no
    other dict. *)
Theorem get_node_tree_after_build_index (doc : nat) (body0 filename model : text)
    (registry : registry_t) (s s' : db) (res : IndexResult) :
  build_index doc body0 filename model registry s = (s', Done res) ->
  Forall (fun t => tree_document_id t <> doc) (doc_trees s) ->
  Forall (fun r => node_tree_id r <> next_uuid s) (doc_nodes s) ->
  exists v,
    get_node_tree doc s' = Some v /\
    view_tree_id v = res_tree_id res /\
    view_title v = filename /\
    view_total_nodes v = res_total_nodes res /\
    view_root v = Some (S (next_uuid s)) /\
    (forall r,
        In r (rows_of (next_uuid s) (parse_markdown body0 filename) None 0 0
                      (S (next_uuid s))) ->
        view_nodes v !! node_row_id r
        = Some (set_children (dict_of_row r)
                  (more_children None
                     (map node_row_id
                        (filter (fun r' => parent_id r' = Some (node_row_id r))
                           (order_rows
                              (rows_of (next_uuid s) (parse_markdown body0 filename)
                                       None 0 0 (S (next_uuid s))))))))) /\
    (forall i, is_Some (view_nodes v !! i) ->
               exists r, In r (rows_of (next_uuid s) (parse_markdown body0 filename)
                                       None 0 0 (S (next_uuid s))) /\
                         node_row_id r = i).
Proof.
  intros Hrun Htrees Hnodes.
  apply build_index_done in Hrun as (-> & _ & ->).
  set (tid := next_uuid s) in *.
  set (root := parse_markdown body0 filename) in *.
  set (rows := rows_of tid root None 0 0 (S tid)) in *.
  unfold get_node_tree. cbn [doc_trees].
  rewrite find_app.
  assert (Hfind : List.find (fun t => tree_document_id t =? doc) (doc_trees s) = None).
  { induction Htrees as [|t l Ht _ IH]; [reflexivity|]. simpl.
    apply Nat.eqb_neq in Ht. rewrite Ht. exact IH. }
  rewrite Hfind. simpl List.find. rewrite Nat.eqb_refl.
  cbn [tree_id tree_title total_nodes].
  rewrite tree_nodes_sql_new; [|exact Hnodes|].
  2:{ eapply List.Forall_impl; [|apply rows_of_fresh]. simpl. tauto. }
  fold rows.
  destruct (link_loop (order_rows rows) (node_map_of (order_rows rows)) None)
    as [H1 H2].
  eexists. split; [reflexivity|].
  cbn [view_tree_id view_title view_total_nodes view_root view_nodes
       res_tree_id res_total_nodes].
  split; [reflexivity|]. split; [reflexivity|]. split; [reflexivity|].
  assert (Hids : NoDup (map node_row_id rows)).
  { unfold rows. rewrite rows_of_ids. apply NoDup_seq. }
  split; [|split].
  - rewrite H2.
    destruct (rows_of_root_only root tid 0 0 (S tid)) as (r0 & E0 & Hid0).
    fold rows in E0.
    assert (Hp : filter (fun r => parent_id r = None) (order_rows rows)
                 ≡ₚ filter (fun r => parent_id r = None) rows)
      by (rewrite order_rows_perm; reflexivity).
    rewrite E0 in Hp. apply Permutation_singleton_r in Hp.
    rewrite Hp. simpl. rewrite Hid0. reflexivity.
  - intros r Hr. rewrite H1.
    pose proof (node_map_fold (order_rows rows) ∅ (node_row_id r)) as Hm.
    fold (node_map_of (order_rows rows)) in Hm.
    destruct (node_map_of (order_rows rows) !! node_row_id r) as [d|].
    + destruct Hm as [Hm | (r' & Hr' & Hid & ->)];
        [rewrite lookup_empty in Hm; discriminate|].
      apply (proj1 (in_order_rows _ _)) in Hr'.
      rewrite (in_map_unique node_row_id rows r' r Hids Hr' Hr Hid). reflexivity.
    + destruct Hm as [_ Hm]. exfalso.
      apply (Hm r); [apply (proj2 (in_order_rows _ _)), Hr | reflexivity].
  - intros i [d Hd]. rewrite H1 in Hd.
    pose proof (node_map_fold (order_rows rows) ∅ i) as Hm.
    fold (node_map_of (order_rows rows)) in Hm.
    destruct (node_map_of (order_rows rows) !! i) as [d0|]; [|discriminate].
    destruct Hm as [Hm | (r' & Hr' & Hid & _)];
      [rewrite lookup_empty in Hm; discriminate|].
    apply (proj1 (in_order_rows _ _)) in Hr'. eauto.
Qed.

(** X22, witness: [doc_outline] indexed into the empty store and read back. *)
Lemma get_node_tree_after_build_index_witness :
  exists v,
    get_node_tree 7 (fst (build_index 7 doc_outline [102%N] [109%N] None empty_db))
      = Some v /\
    view_root v = Some 1.
Proof.
  destruct (get_node_tree_after_build_index 7 doc_outline [102%N] [109%N] None
              empty_db
              (fst (build_index 7 doc_outline [102%N] [109%N] None empty_db))
              (mkResult 0 4 3))
    as (v & Hv & _ & _ & _ & Hroot & _).
  - vm_compute. reflexivity.
  - constructor.
  - constructor.
  - exists v. auto.
Defined.

(** The tree of [doc_outline] read back: the root row 1 with the two
    chapters, the first of which has one section. *)
Example outline_tree_read_back :
  option_map (fun v => (view_root v,
                        map (fun p => (fst p, nd_children (snd p)))
                            (map_to_list (view_nodes v))))
    (get_node_tree 7 (fst (build_index 7 doc_outline [102%N] [109%N] None empty_db)))
  = Some (Some 1, [(4, None); (2, Some [3]); (3, None); (1, Some [2; 4])]).
Proof. vm_compute. reflexivity. Qed.
